(** * mycoria: link layer (peering/link.go) and ping/pong handler
      (router/ping_pong.go)

    A shallow embedding of the Go code.  Mutable objects reached through
    pointers (the [*LinkBase], its [net.Conn], the [*Peering] registry, the
    frame pool) live in one explicit [World] that every method threads
    through; Go's [(value, error)] results are returned as values, with
    [None] for a [nil] error. *)

From Stdlib Require Import ZArith NArith Lia List Bool String.
From Stdlib Require Import Strings.Byte.
From stdpp Require Import base option list gmap strings.

Local Open Scope string_scope.
Local Open Scope list_scope.
Local Open Scope nat_scope.

(** ** Go runtime notions shared by both packages *)

(** A Go call either returns or panics (index out of range, division by
    zero).  Deferred calls still run when the body panics.  [OutOfFuel] is
    the result of a loop of the model that was given too few iterations; the
    functions below hand every loop as many as it can need. *)
Inductive Outcome (A : Type) : Type :=
| Returns (a : A)
| Panics (why : string)
| OutOfFuel.
Arguments Returns {A} a.
Arguments Panics {A} why.
Arguments OutOfFuel {A}.

(** [error] values.  [Sentinel] stands for a package-level [errors.New]
    variable or an error produced by the environment, [ErrorsNew] for an
    [errors.New] evaluated inline, [Errorf] for [fmt.Errorf] with its format
    string, its numeric arguments and the errors it wraps with [%w]. *)
#[warnings="-register-all"]
Inductive Error : Type :=
| Sentinel (name : string)
| ErrorsNew (msg : string)
| Errorf (format : string) (args : list nat) (wrapped : list Error).

(** A Go result pair [(value, error)] of which exactly one side is set. *)
Inductive Result (A : Type) : Type :=
| Ok (a : A)
| Err (e : Error).
Arguments Ok {A} a.
Arguments Err {A} e.

Definition ErrNetworkReadError : Error := Sentinel "read i/o error".
Definition ErrNetworkWriteError : Error := Sentinel "write i/o error".
Definition io_EOF : Error := Sentinel "EOF".
Definition net_ErrClosed : Error := Sentinel "use of closed network connection".

(** [errors.Is err target] for a sentinel target: walks the [%w] chain. *)
Fixpoint errors_Is (err : Error) (target : string) : bool :=
  match err with
  | Sentinel name => String.eqb name target
  | ErrorsNew _ => false
  | Errorf _ _ wrapped => existsb (fun e => errors_Is e target) wrapped
  end.

Definition isNetworkReadError (err : Error) : bool :=
  errors_Is err "read i/o error".
Definition isNetworkWriteError (err : Error) : bool :=
  errors_Is err "write i/o error".

(** ** Go's package net: address classes of [net.IP]

    [net.IP] is a byte slice of length 4 or 16; the predicates follow the
    standard library. *)
Module net.

Definition IP : Type := list byte.

Definition b2n (b : byte) : N := Byte.to_N b.

Definition bytesEqual (a b : list byte) : bool :=
  (length a =? length b) && forallb (λ p, Byte.eqb p.1 p.2) (combine a b).

Definition isZeros (p : list byte) : bool :=
  forallb (λ b, Byte.eqb b x00) p.

Definition v4InV6Prefix : list byte :=
  [x00; x00; x00; x00; x00; x00; x00; x00; x00; x00; xff; xff].

(** [IPv4(a, b, c, d)]: the 16-byte form of an IPv4 address. *)
Definition IPv4 (a b c d : byte) : IP := v4InV6Prefix ++ [a; b; c; d].

Definition IPv4bcast : IP := IPv4 xff xff xff xff.
Definition IPv4zero : IP := IPv4 x00 x00 x00 x00.
Definition IPv6unspecified : IP := replicate 16 x00.
Definition IPv6loopback : IP := replicate 15 x00 ++ [x01].

(** [ip.To4()]: the 4-byte form, or [None] for [nil]. *)
Definition To4 (ip : IP) : option IP :=
  if length ip =? 4 then Some ip
  else if (length ip =? 16) && isZeros (take 10 ip) &&
          bytesEqual (take 2 (drop 10 ip)) [xff; xff]
       then Some (drop 12 ip)
       else None.

Definition Equal (ip x : IP) : bool :=
  if length ip =? length x then bytesEqual ip x
  else if (length ip =? 4) && (length x =? 16)
       then bytesEqual (take 12 x) v4InV6Prefix && bytesEqual ip (drop 12 x)
  else if (length ip =? 16) && (length x =? 4)
       then bytesEqual (take 12 ip) v4InV6Prefix && bytesEqual (drop 12 ip) x
  else false.

(** [ip[i]] as a number (0 when out of range; the callers check lengths). *)
Definition at_ (ip : IP) (i : nat) : N := b2n (nth i ip x00).

Definition IsUnspecified (ip : IP) : bool :=
  Equal ip IPv4zero || Equal ip IPv6unspecified.

Definition IsLoopback (ip : IP) : bool :=
  match To4 ip with
  | Some ip4 => (at_ ip4 0 =? 127)%N
  | None => Equal ip IPv6loopback
  end.

Definition IsPrivate (ip : IP) : bool :=
  match To4 ip with
  | Some ip4 =>
      (at_ ip4 0 =? 10)%N
      || ((at_ ip4 0 =? 172)%N && (N.land (at_ ip4 1) 0xf0 =? 16)%N)
      || ((at_ ip4 0 =? 192)%N && (at_ ip4 1 =? 168)%N)
  | None => (length ip =? 16) && (N.land (at_ ip 0) 0xfe =? 0xfc)%N
  end.

Definition IsMulticast (ip : IP) : bool :=
  match To4 ip with
  | Some ip4 => (N.land (at_ ip4 0) 0xf0 =? 0xe0)%N
  | None => (length ip =? 16) && (at_ ip 0 =? 0xff)%N
  end.

Definition IsLinkLocalUnicast (ip : IP) : bool :=
  match To4 ip with
  | Some ip4 => (at_ ip4 0 =? 169)%N && (at_ ip4 1 =? 254)%N
  | None => (length ip =? 16) && (at_ ip 0 =? 0xfe)%N
            && (N.land (at_ ip 1) 0xc0 =? 0x80)%N
  end.

Definition IsGlobalUnicast (ip : IP) : bool :=
  ((length ip =? 4) || (length ip =? 16))
  && negb (Equal ip IPv4bcast)
  && negb (IsUnspecified ip)
  && negb (IsLoopback ip)
  && negb (IsMulticast ip)
  && negb (IsLinkLocalUnicast ip).

End net.

(** ** Package peering: link.go *)
Module Peering.

(** *** Data *)

(** [frame.Frame] is an interface of package frame, which is outside these
    sources; the record follows the data model of the specification. *)
Record Frame : Type := {
  poolHandle : nat;           (* identity of the pooled backing buffer *)
  raw : list byte;            (* raw buffer *)
  payloadOffset : nat;
  payloadLen : nat;
  srcIP : N;
  recvLink : option nat       (* back-reference to the receiving link *)
}.

(** Modelled from the spec: [data_with_margins(head, tail)] yields the slice
    [offset-head .. offset+len+tail] of the raw buffer and fails when the
    margins were not reserved. *)
Definition FrameDataWithMargins (f : Frame) (head tail : nat)
  : list byte * option Error :=
  if (head <=? payloadOffset f) &&
     (payloadOffset f + payloadLen f + tail <=? length (raw f))
  then (take (head + payloadLen f + tail)
             (drop (payloadOffset f - head) (raw f)), None)
  else ([], Some (ErrorsNew "frame margins not available")).

Definition SetRecvLink (f : Frame) (lid : nat) : Frame :=
  {| poolHandle := poolHandle f; raw := raw f;
     payloadOffset := payloadOffset f; payloadLen := payloadLen f;
     srcIP := srcIP f; recvLink := Some lid |}.

(** A buffered channel of frames, [make(chan frame.Frame, chanCap)]. *)
Record Chan : Type := {
  chanBuf : list Frame;       (* oldest first *)
  chanCap : nat
}.

Definition makeChan (capacity : nat) : Chan :=
  {| chanBuf := []; chanCap := capacity |}.

(** [len(ch)] and [cap(ch)]. *)
Definition chanLen (ch : Chan) : nat := length (chanBuf ch).

(** [select { case ch <- f: default: }]: the send proceeds exactly when the
    buffer has a free slot.  (All channels of a link have capacity at least
    one, so a parked receiver implies an empty buffer.) *)
Definition chanOffer (f : Frame) (ch : Chan) : bool * Chan :=
  if chanLen ch <? chanCap ch
  then (true, {| chanBuf := chanBuf ch ++ [f]; chanCap := chanCap ch |})
  else (false, ch).

(** [select { case f = <-ch: default: }]. *)
Definition chanPoll (ch : Chan) : option (Frame * Chan) :=
  match chanBuf ch with
  | [] => None
  | f :: rest => Some (f, {| chanBuf := rest; chanCap := chanCap ch |})
  end.

(** [net.Addr] values a connection can report. *)
Inductive NetAddr : Type :=
| TCPAddr (ip : list byte) (port : nat)
| UDPAddr (ip : list byte) (port : nat)
| IPAddr (ip : list byte)
| UnixAddr (name : string).

(** What one [Read] call on the connection does: deliver at most [S n]
    bytes of what is pending, or fail. *)
Inductive ReadStep : Type :=
| Deliver (n : nat)
| ReadFail (e : Error).

(** What one [Write] call does: accept at most [S n] bytes (possibly fewer
    than offered, which is what the loop of [writeData] is there for), or
    fail. *)
Inductive WriteStep : Type :=
| Accept (n : nat)
| WriteFail (e : Error).

(** [net.Conn]: a byte stream in each direction.  [rx] is everything the
    peer still sends before it closes; [rxPlan] and [txPlan] schedule how the
    following calls behave (when a plan is used up every call transfers as
    much as it can). *)
Record Conn : Type := {
  rx : list byte;
  rxPlan : list ReadStep;
  tx : list byte;
  txPlan : list WriteStep;
  connClosed : bool;
  remoteAddr : NetAddr
}.

Definition EncryptionSession : Type := N.
Definition SwitchLabel : Type := N.
Definition Addr : Type := N.

(** [LinkBase]; [lid] stands for the pointer identity of the object. *)
Record LinkBase : Type := {
  lid : nat;
  conn : Conn;
  encSession : option EncryptionSession;
  frameSize : nat;
  sendQueuePrio : Chan;
  sendQueueRegl : Chan;
  peer : Addr;
  peeringURL : string;
  outgoing : bool;
  latency : nat;
  switchLabel : SwitchLabel;
  closing : bool
}.

(** Modelled from the spec: the peering registry, a mapping from peer IP to
    link and a mapping from switch label to link, kept consistent; [started]
    records the workers handed to [mgr.Go]. *)
Record Registry : Type := {
  links : gmap N nat;
  linksByLabel : gmap N nat;
  started : list (string * nat)
}.

(** Everything the methods of a link can reach. *)
Record World : Type := {
  link : LinkBase;
  peering : Registry;
  pool : list nat;            (* pool handles returned, latest first *)
  nextHandle : nat;           (* next buffer the pool hands out *)
  rngDraws : nat;             (* draws taken from the label generator *)
  logged : list string        (* log callbacks that ran, latest first *)
}.

(** Field updates. *)
Definition setConn (c : Conn) (l : LinkBase) : LinkBase :=
  {| lid := lid l; conn := c; encSession := encSession l;
     frameSize := frameSize l; sendQueuePrio := sendQueuePrio l;
     sendQueueRegl := sendQueueRegl l; peer := peer l;
     peeringURL := peeringURL l; outgoing := outgoing l;
     latency := latency l; switchLabel := switchLabel l;
     closing := closing l |}.
Definition setEncSession (s : option EncryptionSession) (l : LinkBase) : LinkBase :=
  {| lid := lid l; conn := conn l; encSession := s;
     frameSize := frameSize l; sendQueuePrio := sendQueuePrio l;
     sendQueueRegl := sendQueueRegl l; peer := peer l;
     peeringURL := peeringURL l; outgoing := outgoing l;
     latency := latency l; switchLabel := switchLabel l;
     closing := closing l |}.
Definition setSendQueuePrio (q : Chan) (l : LinkBase) : LinkBase :=
  {| lid := lid l; conn := conn l; encSession := encSession l;
     frameSize := frameSize l; sendQueuePrio := q;
     sendQueueRegl := sendQueueRegl l; peer := peer l;
     peeringURL := peeringURL l; outgoing := outgoing l;
     latency := latency l; switchLabel := switchLabel l;
     closing := closing l |}.
Definition setSendQueueRegl (q : Chan) (l : LinkBase) : LinkBase :=
  {| lid := lid l; conn := conn l; encSession := encSession l;
     frameSize := frameSize l; sendQueuePrio := sendQueuePrio l;
     sendQueueRegl := q; peer := peer l;
     peeringURL := peeringURL l; outgoing := outgoing l;
     latency := latency l; switchLabel := switchLabel l;
     closing := closing l |}.
Definition setPeer (a : Addr) (l : LinkBase) : LinkBase :=
  {| lid := lid l; conn := conn l; encSession := encSession l;
     frameSize := frameSize l; sendQueuePrio := sendQueuePrio l;
     sendQueueRegl := sendQueueRegl l; peer := a;
     peeringURL := peeringURL l; outgoing := outgoing l;
     latency := latency l; switchLabel := switchLabel l;
     closing := closing l |}.
Definition setSwitchLabel (s : SwitchLabel) (l : LinkBase) : LinkBase :=
  {| lid := lid l; conn := conn l; encSession := encSession l;
     frameSize := frameSize l; sendQueuePrio := sendQueuePrio l;
     sendQueueRegl := sendQueueRegl l; peer := peer l;
     peeringURL := peeringURL l; outgoing := outgoing l;
     latency := latency l; switchLabel := s;
     closing := closing l |}.
Definition setClosing (b : bool) (l : LinkBase) : LinkBase :=
  {| lid := lid l; conn := conn l; encSession := encSession l;
     frameSize := frameSize l; sendQueuePrio := sendQueuePrio l;
     sendQueueRegl := sendQueueRegl l; peer := peer l;
     peeringURL := peeringURL l; outgoing := outgoing l;
     latency := latency l; switchLabel := switchLabel l;
     closing := b |}.

Definition onLink (f : LinkBase → LinkBase) (w : World) : World :=
  {| link := f (link w); peering := peering w; pool := pool w;
     nextHandle := nextHandle w; rngDraws := rngDraws w; logged := logged w |}.
Definition onPeering (f : Registry → Registry) (w : World) : World :=
  {| link := link w; peering := f (peering w); pool := pool w;
     nextHandle := nextHandle w; rngDraws := rngDraws w; logged := logged w |}.
Definition onPool (f : list nat → list nat) (w : World) : World :=
  {| link := link w; peering := peering w; pool := f (pool w);
     nextHandle := nextHandle w; rngDraws := rngDraws w; logged := logged w |}.
Definition onNextHandle (f : nat → nat) (w : World) : World :=
  {| link := link w; peering := peering w; pool := pool w;
     nextHandle := f (nextHandle w); rngDraws := rngDraws w;
     logged := logged w |}.
Definition onRngDraws (f : nat → nat) (w : World) : World :=
  {| link := link w; peering := peering w; pool := pool w;
     nextHandle := nextHandle w; rngDraws := f (rngDraws w); logged := logged w |}.
Definition onLogged (f : list string → list string) (w : World) : World :=
  {| link := link w; peering := peering w; pool := pool w;
     nextHandle := nextHandle w; rngDraws := rngDraws w; logged := f (logged w) |}.

(** Modelled from the spec: [f.ReturnToPool()] hands the frame's buffer back
    to the pool; the pool is kept as the log of handles it got back. *)
Definition ReturnToPool (f : Frame) (w : World) : World :=
  onPool (cons (poolHandle f)) w.

(** How often the buffer with handle [h] has been returned. *)
Definition timesReturned (h : nat) (w : World) : nat :=
  count_occ Nat.eq_dec (pool w) h.

(** *** Send entry points, flow control, close *)

(** [SendPriority]: non-blocking offer to the priority queue; the [default]
    branch is empty; the result is always [nil]. *)
Definition SendPriority (f : Frame) (w : World) : option Error * World :=
  let '(_, q) := chanOffer f (sendQueuePrio (link w)) in
  (None, onLink (setSendQueuePrio q) w).

(** [Send]: the same on the regular queue. *)
Definition Send (f : Frame) (w : World) : option Error * World :=
  let '(_, q) := chanOffer f (sendQueueRegl (link w)) in
  (None, onLink (setSendQueueRegl q) w).

Inductive FlowControlFlag : Type :=
| FlowControlFlagDecreaseFlow
| FlowControlFlagHoldFlow
| FlowControlFlagIncreaseFlow.

(** [FlowControlIndicator]; the integer division panics on a channel of
    capacity zero. *)
Definition FlowControlIndicator (l : LinkBase) : Outcome FlowControlFlag :=
  if chanCap (sendQueueRegl l) =? 0
  then Panics "integer divide by zero"
  else
    let percent := chanLen (sendQueueRegl l) * 100 / chanCap (sendQueueRegl l) in
    if 70 <=? percent then Returns FlowControlFlagDecreaseFlow
    else if 30 <=? percent then Returns FlowControlFlagHoldFlow
    else Returns FlowControlFlagIncreaseFlow.

Definition IsClosing (l : LinkBase) : bool := closing l.

(** Modelled from the spec: [remove_link(link)] removes the link from both
    mappings and is idempotent; entries held by another link stay. *)
Definition RemoveLink (l : LinkBase) (r : Registry) : Registry :=
  {| links := filter (λ kv, kv.2 ≠ lid l) (links r);
     linksByLabel := filter (λ kv, kv.2 ≠ lid l) (linksByLabel r);
     started := started r |}.

(** Modelled from the spec: [add_link(link)] fails if a link already exists
    for the same peer IP or label, and otherwise inserts into both
    mappings. *)
Definition AddLink (l : LinkBase) (r : Registry) : option Error * Registry :=
  match links r !! peer l, linksByLabel r !! switchLabel l with
  | None, None =>
      (None, {| links := <[peer l := lid l]> (links r);
                linksByLabel := <[switchLabel l := lid l]> (linksByLabel r);
                started := started r |})
  | Some _, _ => (Some (ErrorsNew "link to peer already exists"), r)
  | _, Some _ => (Some (ErrorsNew "switch label already in use"), r)
  end.

(** Modelled from the spec: [lookup_by_label(label)]. *)
Definition GetLinkByLabel (label : SwitchLabel) (r : Registry) : option nat :=
  linksByLabel r !! label.

Definition connClose (c : Conn) : Conn :=
  {| rx := rx c; rxPlan := rxPlan c; tx := tx c; txPlan := txPlan c;
     connClosed := true; remoteAddr := remoteAddr c |}.

(** [Close(log)]: the compare-and-swap on [closing] lets exactly the first
    call run the callback, leave the registry and close the connection.
    The callback is represented by the line it logs. *)
Definition Close (log : option string) (w : World) : World :=
  if closing (link w) then w
  else
    let w1 := onLink (setClosing true) w in
    let w2 := match log with
              | Some line => onLogged (cons line) w1
              | None => w1
              end in
    let w3 := onPeering (RemoveLink (link w2)) w2 in
    onLink (λ l, setConn (connClose (conn l)) l) w3.

(** [startWorkers]. *)
Definition startWorkers (w : World) : World :=
  onPeering (λ r, {| links := links r; linksByLabel := linksByLabel r;
                     started := ("link writer", lid (link w))
                                  :: ("link reader", lid (link w))
                                  :: started r |}) w.

(** *** Collaborators outside these sources

    The handshake state machine ([createPeeringRequest], [state.handle],
    [finalize]), the link-frame codec, the frame parser and the helpers of
    packages m and config are not part of the files modelled here; a link is
    verified against any implementation of them. *)
Class Collaborators : Type := {
  peeringRequestState : Type;
  createPeeringRequest : bool → Result (peeringRequestState * Frame);
  state_handle : peeringRequestState → Frame →
                 peeringRequestState * option Frame * option Error;
  state_finalize : peeringRequestState → option EncryptionSession * option Error;
  session_Address_IP : peeringRequestState → Addr;
  (* LinkFrame.Seal and LinkFrame.Unseal work in place: the new content *)
  Seal : EncryptionSession → list byte → list byte * option Error;
  Unseal : EncryptionSession → list byte → list byte * option Error;
  LinkData : list byte → list byte;
  FrameOffset : nat;
  FrameOverhead : nat;
  (* Builder.ParseFrame data pooledSlice offset, the slice by its handle *)
  ParseFrame : list byte → nat → nat → Result Frame;
  CalculateExpectedFrameSize : NetAddr → nat;
  DeriveSwitchLabelFromIP : Addr → SwitchLabel * bool;
  RoutingAddressPrefix_Contains : Addr → bool;
  (* GetRandomSwitchLabel short, at the n-th draw of the process generator *)
  GetRandomSwitchLabel : bool → nat → SwitchLabel * bool
}.

(** Modelled from the spec: the 2-byte length is big-endian
    ([m.GetUint16], [m.PutUint16]). *)
Definition GetUint16 (b : list byte) : nat :=
  N.to_nat (Byte.to_N (nth 0 b x00)) * 256 + N.to_nat (Byte.to_N (nth 1 b x00)).

Definition byteOfNat (n : nat) : byte :=
  match Byte.of_N (N.of_nat (n mod 256)) with
  | Some b => b
  | None => x00
  end.

(** [copy(to[pos:], bs)] for [bs] that fits. *)
Definition writeAt (to : list byte) (pos : nat) (bs : list byte) : list byte :=
  take pos to ++ bs ++ drop (pos + length bs) to.

Definition PutUint16 (b : list byte) (v : nat) : list byte :=
  writeAt b 0 [byteOfNat (v / 256); byteOfNat v].

(** *** The connection *)

Definition setRx (pending : list byte) (plan : list ReadStep) (c : Conn) : Conn :=
  {| rx := pending; rxPlan := plan; tx := tx c; txPlan := txPlan c;
     connClosed := connClosed c; remoteAddr := remoteAddr c |}.

Definition setTx (sent : list byte) (plan : list WriteStep) (c : Conn) : Conn :=
  {| rx := rx c; rxPlan := rxPlan c; tx := sent; txPlan := plan;
     connClosed := connClosed c; remoteAddr := remoteAddr c |}.

(** A read that may take up to [m] bytes: end of stream when nothing is
    pending. *)
Definition deliver (m : nat) (plan : list ReadStep) (c : Conn)
  : Result (list byte) * Conn :=
  match rx c with
  | [] => (Err io_EOF, setRx [] plan c)
  | _ => (Ok (take m (rx c)), setRx (drop m (rx c)) plan c)
  end.

(** [conn.Read(p)] with [len(p) = k]: the bytes read, or the error. *)
Definition connRead (k : nat) (c : Conn) : Result (list byte) * Conn :=
  if connClosed c then (Err net_ErrClosed, c)
  else
    match rxPlan c with
    | ReadFail e :: plan => (Err e, setRx (rx c) plan c)
    | Deliver n :: plan => deliver (min (S n) k) plan c
    | [] => deliver k [] c
    end.

(** [conn.Write(p)]: the number of bytes taken and the error. *)
Definition connWrite (p : list byte) (c : Conn) : nat * option Error * Conn :=
  if connClosed c then (0, Some net_ErrClosed, c)
  else
    match txPlan c with
    | WriteFail e :: plan => (0, Some e, setTx (tx c) plan c)
    | Accept n :: plan =>
        let k := min (S n) (length p) in
        (k, None, setTx (tx c ++ take k p) plan c)
    | [] => (length p, None, setTx (tx c ++ p) [] c)
    end.

Definition withConn (c : Conn) (w : World) : World := onLink (setConn c) w.

Inductive LoopExit : Type :=
| LoopDone (count : nat) (to : list byte) (c : Conn)
| LoopError (e : Error) (to : list byte) (c : Conn)
| LoopFuel.

(** [for read < upto { n, err := link.conn.Read(to[read:upto]); ... }] *)
Fixpoint readLoop (fuel upto read : nat) (to : list byte) (c : Conn) : LoopExit :=
  if upto <=? read then LoopDone read to c
  else
    match fuel with
    | 0 => LoopFuel
    | S fuel' =>
        match connRead (upto - read) c with
        | (Err err, c') =>
            LoopError (Errorf "%w: %w" [] [ErrNetworkReadError; err]) to c'
        | (Ok bs, c') =>
            readLoop fuel' upto (read + length bs) (writeAt to read bs) c'
        end
    end.

(** [for read < dataLen { n, err := link.conn.Read(to[:min(len(to),
    dataLen-read)]); ... }]: read and discard. *)
Fixpoint drainLoop (fuel dataLen read : nat) (to : list byte) (c : Conn) : LoopExit :=
  if dataLen <=? read then LoopDone read to c
  else
    match fuel with
    | 0 => LoopFuel
    | S fuel' =>
        match connRead (min (length to) (dataLen - read)) c with
        | (Err err, c') =>
            LoopError (Errorf "%w: %w" [] [ErrNetworkReadError; err]) to c'
        | (Ok bs, c') =>
            drainLoop fuel' dataLen (read + length bs) (writeAt to 0 bs) c'
        end
    end.

(** [readLengthAndData(to)]: the result, the buffer [to] as the reads left
    it, and the world.  Slicing [to[read:2]] panics on a buffer shorter than
    two bytes (a slice's capacity is taken to be its length). *)
Definition readLengthAndData (to : list byte) (w : World)
  : Outcome (Result (list byte)) * list byte * World :=
  if length to <? 2 then (Panics "slice bounds out of range", to, w)
  else
    match readLoop 2 2 0 to (conn (link w)) with
    | LoopFuel => (OutOfFuel, to, w)
    | LoopError err to1 c1 => (Returns (Err err), to1, withConn c1 w)
    | LoopDone read to1 c1 =>
        let dataLen := GetUint16 (take 2 to1) in
        if dataLen <=? 3
        then (Returns (Err (Errorf "invalid data length of %d" [dataLen] [])),
              to1, withConn c1 w)
        else if length to1 <? dataLen
        then
          match drainLoop (dataLen - read) dataLen read to1 c1 with
          | LoopFuel => (OutOfFuel, to1, withConn c1 w)
          | LoopError err to2 c2 => (Returns (Err err), to2, withConn c2 w)
          | LoopDone _ to2 c2 =>
              (Returns (Err (ErrorsNew "frame too big for slice")),
               to2, withConn c2 w)
          end
        else
          match readLoop (dataLen - read) dataLen read to1 c1 with
          | LoopFuel => (OutOfFuel, to1, withConn c1 w)
          | LoopError err to2 c2 => (Returns (Err err), to2, withConn c2 w)
          | LoopDone _ to2 c2 =>
              (Returns (Ok (take dataLen to2)), to2, withConn c2 w)
          end
    end.

(** [for written < len(data) { n, err := link.conn.Write(data[written:]);
    ... }] *)
Fixpoint writeLoop (fuel written : nat) (data : list byte) (c : Conn)
  : Outcome (option Error) * Conn :=
  if length data <=? written then (Returns None, c)
  else
    match fuel with
    | 0 => (OutOfFuel, c)
    | S fuel' =>
        match connWrite (drop written data) c with
        | (_, Some err, c') =>
            (Returns (Some (Errorf "%w: %w" [] [ErrNetworkWriteError; err])), c')
        | (n, None, c') => writeLoop fuel' (written + n) data c'
        end
    end.

Definition writeData (data : list byte) (w : World)
  : Outcome (option Error) * World :=
  let '(r, c) := writeLoop (length data) 0 data (conn (link w)) in
  (r, withConn c w).

(** *** Construction *)

(** [getFallbackLatency] *)
Definition getFallbackLatency (l : LinkBase) : nat :=
  match remoteAddr (conn l) with
  | TCPAddr remoteIP _ | UDPAddr remoteIP _ | IPAddr remoteIP =>
      if net.IsGlobalUnicast remoteIP then 20
      else if net.IsPrivate remoteIP then 5
      else 10
  | UnixAddr _ => 20
  end.

Section WithCollaborators.
Context `{Collaborators}.

(** [newLinkBase]; the fields the literal leaves out hold zero values. *)
Definition newLinkBase (id : nat) (c : Conn) (url : string) (out : bool) : LinkBase :=
  let link0 :=
    {| lid := id; conn := c; encSession := None; frameSize := 0;
       sendQueuePrio := makeChan 100; sendQueueRegl := makeChan 1000;
       peer := 0%N; peeringURL := url; outgoing := out; latency := 0;
       switchLabel := 0%N; closing := false |} in
  let link1 :=
    {| lid := id; conn := c; encSession := None;
       frameSize := CalculateExpectedFrameSize (remoteAddr (conn link0));
       sendQueuePrio := makeChan 100; sendQueueRegl := makeChan 1000;
       peer := 0%N; peeringURL := url; outgoing := out; latency := 0;
       switchLabel := 0%N; closing := false |} in
  {| lid := id; conn := c; encSession := None;
     frameSize := frameSize link1;
     sendQueuePrio := makeChan 100; sendQueueRegl := makeChan 1000;
     peer := 0%N; peeringURL := url; outgoing := out;
     latency := getFallbackLatency link1;
     switchLabel := 0%N; closing := false |}.

(** *** Frames on the wire *)

(** The body of [writeFrame], without the deferred call. *)
Definition writeFrameBody (f : Frame) (w : World) : Outcome (option Error) * World :=
  match encSession (link w) with
  | Some session =>
      match FrameDataWithMargins f FrameOffset FrameOverhead with
      | (_, Some err) =>
          (Returns (Some (Errorf "frame with margins %d,%d: %w"
                                 [FrameOffset; FrameOverhead] [err])), w)
      | (data, None) =>
          match Seal session data with
          | (_, Some err) =>
              (Returns (Some (Errorf "seal link frame: %w" [] [err])), w)
          | (sealed, None) =>
              match writeData sealed w with
              | (Returns (Some err), w') =>
                  (Returns (Some (Errorf "write: %w" [] [err])), w')
              | (r, w') => (r, w')
              end
          end
      end
  | None =>
      match FrameDataWithMargins f 2 0 with
      | (_, Some err) =>
          (Returns (Some (Errorf "frame with margins 2,0: %w" [] [err])), w)
      | (data, None) =>
          if (0xFFFF <? Z.of_nat (length data))%Z
          then (Returns (Some (Errorf "frame is too big (%d bytes)"
                                      [length data] [])), w)
          else
            match writeData (PutUint16 data (length data)) w with
            | (Returns (Some err), w') =>
                (Returns (Some (Errorf "write: %w" [] [err])), w')
            | (r, w') => (r, w')
            end
      end
  end.

(** [writeFrame]: [defer f.ReturnToPool()] runs when the body returns or
    panics. *)
Definition writeFrame (f : Frame) (w : World) : Outcome (option Error) * World :=
  match writeFrameBody f w with
  | (OutOfFuel, w') => (OutOfFuel, w')
  | (r, w') => (r, ReturnToPool f w')
  end.

(** [b.GetPooledSlice(size)]: a buffer of the pool, named by a fresh
    handle. *)
Definition GetPooledSlice (size : nat) (w : World) : nat * list byte * World :=
  (nextHandle w, replicate size x00, onNextHandle S w).

Definition ReturnPooledSlice (handle : nat) (w : World) : World :=
  onPool (cons handle) w.

(** [readFrame] *)
Definition readFrame (w : World) : Outcome (Result Frame) * World :=
  let '(handle, pooledSlice, w0) := GetPooledSlice (frameSize (link w)) w in
  match readLengthAndData pooledSlice w0 with
  | (Panics why, _, w1) => (Panics why, w1)
  | (OutOfFuel, _, w1) => (OutOfFuel, w1)
  | (Returns (Err err), _, w1) =>
      (Returns (Err (Errorf "read frame: %w" [] [err])),
       ReturnPooledSlice handle w1)
  | (Returns (Ok data), _, w1) =>
      match encSession (link w1) with
      | Some session =>
          match Unseal session data with
          | (_, Some err) =>
              (Returns (Err (Errorf "unseal link frame: %w" [] [err])), w1)
          | (lf, None) =>
              match ParseFrame (LinkData lf) handle FrameOffset with
              | Err err =>
                  (Returns (Err (Errorf "parse frame (from link frame): %w"
                                        [] [err])), w1)
              | Ok f => (Returns (Ok (SetRecvLink f (lid (link w1)))), w1)
              end
          end
      | None =>
          match ParseFrame (drop 2 data) handle 2 with
          | Err err => (Returns (Err (Errorf "parse frame: %w" [] [err])), w1)
          | Ok f => (Returns (Ok (SetRecvLink f (lid (link w1)))), w1)
          end
      end
  end.

(** *** Setup *)

(** The loop [for i := 1; i <= 3; i++] of [handleSetupMessages], entered
    with [remaining] iterations to go. *)
Fixpoint setupLoop (remaining i : nat) (state : peeringRequestState) (w : World)
  : Outcome (Result peeringRequestState) * World :=
  match remaining with
  | 0 => (Returns (Err (ErrorsNew "too much setup")), w)
  | S remaining' =>
      match readFrame w with
      | (Panics why, w1) => (Panics why, w1)
      | (OutOfFuel, w1) => (OutOfFuel, w1)
      | (Returns (Err err), w1) =>
          (Returns (Err (Errorf "read peering msg %d: %w" [i] [err])), w1)
      | (Returns (Ok f), w1) =>
          match state_handle state f with
          | (_, response, Some err) =>
              (* best effort: the result of the write is dropped *)
              let w2 := match response with
                        | Some r => (writeFrame r w1).2
                        | None => w1
                        end in
              (Returns (Err (Errorf "handle peering msg %d: %w" [i] [err])), w2)
          | (state', None, None) => (Returns (Ok state'), w1)
          | (state', Some r, None) =>
              match writeFrame r w1 with
              | (Returns None, w2) => setupLoop remaining' (S i) state' w2
              | (Returns (Some err), w2) =>
                  (Returns (Err (Errorf "write peering msg response %d: %w"
                                        [i + 1] [err])), w2)
              | (Panics why, w2) => (Panics why, w2)
              | (OutOfFuel, w2) => (OutOfFuel, w2)
              end
          end
      end
  end.

(** [handleSetupMessages(client)] *)
Definition handleSetupMessages (client : bool) (w : World)
  : Outcome (Result peeringRequestState) * World :=
  match createPeeringRequest client with
  | Err err =>
      (Returns (Err (Errorf "create peering request (1): %w" [] [err])), w)
  | Ok (state, f) =>
      match writeFrame f w with
      | (Returns (Some err), w1) =>
          (Returns (Err (Errorf "write peering request (1): %w" [] [err])), w1)
      | (Returns None, w1) => setupLoop 3 1 state w1
      | (Panics why, w1) => (Panics why, w1)
      | (OutOfFuel, w1) => (OutOfFuel, w1)
      end
  end.

(** [label, ok := ...; ok && label != 0 && GetLinkByLabel(label) == nil] *)
Definition labelAcceptable (draw : SwitchLabel * bool) (w : World) : bool :=
  draw.2 && negb (draw.1 =? 0)%N &&
  match GetLinkByLabel draw.1 (peering w) with
  | None => true
  | Some _ => false
  end.

(** [for i := 0; i < n; i++ { label, ok := m.GetRandomSwitchLabel(short);
    ... }]: the label accepted, if any. *)
Fixpoint tryRandomLabels (n : nat) (short : bool) (w : World)
  : option SwitchLabel * World :=
  match n with
  | 0 => (None, w)
  | S n' =>
      let draw := GetRandomSwitchLabel short (rngDraws w) in
      let w' := onRngDraws S w in
      if labelAcceptable draw w' then (Some draw.1, w')
      else tryRandomLabels n' short w'
  end.

(** [assignSwitchLabel] *)
Definition assignSwitchLabel (w : World) : option Error * World :=
  let derived := DeriveSwitchLabelFromIP (peer (link w)) in
  if labelAcceptable derived w
  then (None, onLink (setSwitchLabel derived.1) w)
  else
    let '(short, w1) :=
      if RoutingAddressPrefix_Contains (peer (link w))
      then tryRandomLabels 100 true w
      else (None, w) in
    match short with
    | Some label => (None, onLink (setSwitchLabel label) w1)
    | None =>
        match tryRandomLabels 1000 false w1 with
        | (Some label, w2) => (None, onLink (setSwitchLabel label) w2)
        | (None, w2) =>
            (Some (ErrorsNew "no suitable switch label found"), w2)
        end
    end.

(** [handleSetup]: the error threaded through the four stages, then close
    or start the workers.  The result is the error ([None]: the link). *)
Definition handleSetup (w : World) : Outcome (option Error) * World :=
  match handleSetupMessages (outgoing (link w)) w with
  | (Panics why, w1) => (Panics why, w1)
  | (OutOfFuel, w1) => (OutOfFuel, w1)
  | (Returns msgs, w1) =>
      let '(err2, w2) :=
        match msgs with
        | Err err => (Some err, w1)
        | Ok peeringState =>
            let '(session, err) := state_finalize peeringState in
            let w1' := onLink (setEncSession session) w1 in
            match err with
            | Some e => (Some e, w1')
            | None =>
                let w1'' := onLink (setPeer (session_Address_IP peeringState)) w1' in
                assignSwitchLabel w1''
            end
        end in
      let '(err3, w3) :=
        match err2 with
        | None =>
            let '(err, reg) := AddLink (link w2) (peering w2) in
            (err, onPeering (λ _, reg) w2)
        | Some e => (Some e, w2)
        end in
      match err3 with
      | Some e => (Returns (Some e), Close None w3)
      | None => (Returns None, startWorkers w3)
      end
  end.

(** *** The writer worker

    The writer runs concurrently with the callers of [Send] and
    [SendPriority].  Its loop is cut at the two [select] statements, which
    are the only places where it touches the queues: one step of the writer
    is one [select] together with the sequential code up to the next one. *)

Inductive WriterPC : Type :=
| AtSelectPrio        (* the outer select: priority queue or default *)
| AtSelectAny         (* the inner select: either queue or w.Done() *)
| WriterReturned.

Inductive Queue : Type := PrioQ | ReglQ.

Record System : Type := {
  world : World;
  writerPC : WriterPC;
  consecutiveErrors : nat;
  selected : list (Queue * Frame)   (* frames the writer took, oldest first *)
}.

Inductive SelectCase : Type := CasePrio | CaseRegl | CaseDone.

(** The cases of the inner select that can proceed, in source order. *)
Definition readyCases (done : bool) (l : LinkBase) : list SelectCase :=
  (if 0 <? chanLen (sendQueuePrio l) then [CasePrio] else [])
  ++ (if 0 <? chanLen (sendQueueRegl l) then [CaseRegl] else [])
  ++ (if done then [CaseDone] else []).

(** A select with several ready cases proceeds with one of them, chosen by
    the runtime ([pick]); with none it blocks. *)
Definition chooseCase (pick : nat) (ready : list SelectCase) : option SelectCase :=
  match ready with
  | [] => None
  | _ => ready !! (pick mod length ready)
  end.

(** The code after the selects: write the frame, then count or close.
    (Frames of the model are never [nil], so [if f == nil] is passed.) *)
Definition writerAfterSelect (q : Queue) (f : Frame) (s : System) : System :=
  let log := selected s ++ [(q, f)] in
  match writeFrame f (world s) with
  | (Returns None, w') =>
      {| world := w'; writerPC := AtSelectPrio; consecutiveErrors := 0;
         selected := log |}
  | (Returns (Some err), w') =>
      if isNetworkWriteError err
      then {| world := Close (Some "closing link (by writer)")
                         (Close (Some "write i/o error, closing link") w');
              writerPC := WriterReturned;
              consecutiveErrors := consecutiveErrors s; selected := log |}
      else if 100 <=? S (consecutiveErrors s)
      then {| world := Close (Some "closing link (by writer)")
                         (Close (Some "closing link after 100 consecutive write errors") w');
              writerPC := WriterReturned;
              consecutiveErrors := S (consecutiveErrors s); selected := log |}
      else {| world := w'; writerPC := AtSelectPrio;
              consecutiveErrors := S (consecutiveErrors s); selected := log |}
  | (_, w') =>
      (* a panic unwinds through the deferred Close *)
      {| world := Close (Some "closing link (by writer)") w';
         writerPC := WriterReturned;
         consecutiveErrors := consecutiveErrors s; selected := log |}
  end.

Definition takePrio (s : System) : option (Frame * System) :=
  match chanPoll (sendQueuePrio (link (world s))) with
  | Some (f, q) =>
      Some (f, {| world := onLink (setSendQueuePrio q) (world s);
                  writerPC := writerPC s;
                  consecutiveErrors := consecutiveErrors s;
                  selected := selected s |})
  | None => None
  end.

Definition takeRegl (s : System) : option (Frame * System) :=
  match chanPoll (sendQueueRegl (link (world s))) with
  | Some (f, q) =>
      Some (f, {| world := onLink (setSendQueueRegl q) (world s);
                  writerPC := writerPC s;
                  consecutiveErrors := consecutiveErrors s;
                  selected := selected s |})
  | None => None
  end.

Definition setWriterPC (pc : WriterPC) (s : System) : System :=
  {| world := world s; writerPC := pc;
     consecutiveErrors := consecutiveErrors s; selected := selected s |}.

Definition onWorld (f : World → World) (s : System) : System :=
  {| world := f (world s); writerPC := writerPC s;
     consecutiveErrors := consecutiveErrors s; selected := selected s |}.

(** One step of [writer]. *)
Definition writerStep (pick : nat) (done : bool) (s : System) : System :=
  match writerPC s with
  | WriterReturned => s
  | AtSelectPrio =>
      match takePrio s with
      | Some (f, s') => writerAfterSelect PrioQ f s'
      | None => setWriterPC AtSelectAny s
      end
  | AtSelectAny =>
      match chooseCase pick (readyCases done (link (world s))) with
      | None => s
      | Some CasePrio =>
          match takePrio s with
          | Some (f, s') => writerAfterSelect PrioQ f s'
          | None => s
          end
      | Some CaseRegl =>
          match takeRegl s with
          | Some (f, s') => writerAfterSelect ReglQ f s'
          | None => s
          end
      | Some CaseDone =>
          setWriterPC WriterReturned
            (onWorld (Close (Some "closing link (by writer)")) s)
      end
  end.

(** What can happen on a link between two steps of its writer. *)
Inductive Action : Type :=
| ActWriter (pick : nat) (done : bool)
| ActSend (f : Frame)
| ActSendPriority (f : Frame)
| ActClose.

Definition act (a : Action) (s : System) : System :=
  match a with
  | ActWriter pick done => writerStep pick done s
  | ActSend f => onWorld (λ w, (Send f w).2) s
  | ActSendPriority f => onWorld (λ w, (SendPriority f w).2) s
  | ActClose => onWorld (Close None) s
  end.

Definition run (schedule : list Action) (s : System) : System :=
  foldl (λ s a, act a s) s schedule.

(** The writer as [startWorkers] starts it. *)
Definition startWriter (w : World) : System :=
  {| world := w; writerPC := AtSelectPrio; consecutiveErrors := 0;
     selected := [] |}.

(** *** The reader worker and the setup worker *)

(** How the [select] after a successful read ends: the upstream channel
    takes the frame, or the worker context is done.  (Until one of the two
    happens the reader waits.) *)
Inductive Handoff : Type := UpstreamTakes | DoneFires.

Record ReaderState : Type := {
  readerWorld : World;
  readerErrors : nat;               (* consecutiveErrors *)
  delivered : list Frame;           (* sent upstream, oldest first *)
  readerReturned : bool
}.

(** One iteration of the loop of [reader]; returning runs the deferred
    [Close]. *)
Definition readerStep (handoff : Handoff) (r : ReaderState) : ReaderState :=
  if readerReturned r then r
  else
    match readFrame (readerWorld r) with
    | (Returns (Ok f), w') =>
        match handoff with
        | UpstreamTakes =>
            {| readerWorld := w'; readerErrors := 0;
               delivered := delivered r ++ [f]; readerReturned := false |}
        | DoneFires =>
            {| readerWorld := Close (Some "closing link (by reader)") w';
               readerErrors := 0; delivered := delivered r;
               readerReturned := true |}
        end
    | (Returns (Err err), w') =>
        if isNetworkReadError err
        then
          if errors_Is err "EOF"
          then {| readerWorld := Close (Some "closing link (by reader)")
                                   (Close (Some "closing link (by remote)") w');
                  readerErrors := readerErrors r; delivered := delivered r;
                  readerReturned := true |}
          else {| readerWorld := Close (Some "closing link (by reader)")
                                   (Close (Some "read i/o error, closing link") w');
                  readerErrors := readerErrors r; delivered := delivered r;
                  readerReturned := true |}
        else if 100 <=? S (readerErrors r)
        then {| readerWorld :=
                  Close (Some "closing link (by reader)")
                    (Close (Some "closing link after 100 consecutive read errors") w');
                readerErrors := S (readerErrors r); delivered := delivered r;
                readerReturned := true |}
        else {| readerWorld := w'; readerErrors := S (readerErrors r);
                delivered := delivered r; readerReturned := false |}
    | (_, w') =>
        (* a panic unwinds through the deferred Close *)
        {| readerWorld := Close (Some "closing link (by reader)") w';
           readerErrors := readerErrors r; delivered := delivered r;
           readerReturned := true |}
    end.

(** The reader as [startWorkers] starts it. *)
Definition startReader (w : World) : ReaderState :=
  {| readerWorld := w; readerErrors := 0; delivered := []; readerReturned := false |}.

Definition readerRun (handoffs : list Handoff) (r : ReaderState) : ReaderState :=
  foldl (λ r h, readerStep h r) r handoffs.


End WithCollaborators.

End Peering.

(** ** Package router: ping_pong.go *)
Module Router.

Definition pingPongPingType : string := "pong".

(** [pingPongState]; [notify] names the channel made for the request. *)
Record pingPongState : Type := {
  started : Z;
  notify : nat;
  expires : Z
}.

(** [PingHeader], as far as the handler reads it. *)
Record PingHeader : Type := {
  PingID : N;
  FollowUp : bool
}.

(** A call of [r.sendPingMsg]. *)
Record PingMsg : Type := {
  msgDst : N;
  msgPingID : N;
  msgPingType : string;
  msgData : list byte;
  msgFollowUp : bool;
  msgFlag : bool
}.

(** The handler with what it reaches: the channels it made and closed,
    the ping ids it drew and the messages it handed to the router. *)
Record PingPongHandler : Type := {
  active : gmap N pingPongState;
  nextChan : nat;               (* channels made so far *)
  closedChans : list nat;       (* close(notify) calls, latest first *)
  pingIDs : nat;                (* ids drawn from newPingID *)
  sent : list PingMsg           (* latest first *)
}.

(** The codec, the id generator and the router's send path are outside
    these sources. *)
Class Collaborators : Type := {
  cbor_Marshal : string → Result (list byte);
  (* cbor.Unmarshal into a pingPongMsg: its Msg field *)
  cbor_Unmarshal : list byte → Result string;
  newPingID : nat → N;
  sendPingMsg : PingMsg → option Error
}.

(** Times are nanoseconds; [30 * time.Second]. *)
Definition thirtySeconds : Z := 30 * 1000000000.

(** [t.After(u)] *)
Definition After (t u : Z) : bool := (u <? t)%Z.

Definition NewPingPongHandler : PingPongHandler :=
  {| active := ∅; nextChan := 0; closedChans := []; pingIDs := 0; sent := [] |}.

Definition Type_ : string := pingPongPingType.

Definition setActiveMap (m : gmap N pingPongState) (h : PingPongHandler)
  : PingPongHandler :=
  {| active := m; nextChan := nextChan h; closedChans := closedChans h;
     pingIDs := pingIDs h; sent := sent h |}.

(** [setActive]; [now] is what [time.Now()] returns inside. *)
Definition setActive (now : Z) (pingID : N) (pongState : pingPongState)
    (h : PingPongHandler) : PingPongHandler :=
  let pongState' := {| started := started pongState; notify := notify pongState;
                       expires := (now + thirtySeconds)%Z |} in
  setActiveMap (<[pingID := pongState']> (active h)) h.

(** [pluckActive] *)
Definition pluckActive (pingID : N) (h : PingPongHandler)
  : option pingPongState * PingPongHandler :=
  match active h !! pingID with
  | None => (None, h)
  | Some state => (Some state, setActiveMap (delete pingID (active h)) h)
  end.

(** [Clean]: the range loop deletes from the map it walks. *)
Definition Clean (now : Z) (h : PingPongHandler) : option Error * PingPongHandler :=
  (None,
   setActiveMap
     (map_fold (λ pingID pongState m,
                  if After now (expires pongState) then delete pingID m else m)
               (active h) (active h))
     h).

(** [make(chan struct{})] *)
Definition makeChan (h : PingPongHandler) : nat * PingPongHandler :=
  (nextChan h,
   {| active := active h; nextChan := S (nextChan h);
      closedChans := closedChans h; pingIDs := pingIDs h; sent := sent h |}).

(** [close(ch)]: closing a closed channel panics. *)
Definition closeChan (ch : nat) (h : PingPongHandler) : Outcome PingPongHandler :=
  if bool_decide (ch ∈ closedChans h)
  then Panics "close of closed channel"
  else Returns {| active := active h; nextChan := nextChan h;
                  closedChans := ch :: closedChans h;
                  pingIDs := pingIDs h; sent := sent h |}.

Section WithCollaborators.
Context `{Collaborators}.

(** [h.r.sendPingMsg(...)] *)
Definition doSendPingMsg (msg : PingMsg) (h : PingPongHandler)
  : option Error * PingPongHandler :=
  (sendPingMsg msg,
   {| active := active h; nextChan := nextChan h;
      closedChans := closedChans h; pingIDs := pingIDs h;
      sent := msg :: sent h |}).

Definition drawPingID (h : PingPongHandler) : N * PingPongHandler :=
  (newPingID (pingIDs h),
   {| active := active h; nextChan := nextChan h;
      closedChans := closedChans h; pingIDs := S (pingIDs h);
      sent := sent h |}).

(** [Send]: [now1] and [now2] are the two readings of the clock; the
    result is the notify channel or the error. *)
Definition Send (now1 now2 : Z) (dstIP : N) (h : PingPongHandler)
  : Result nat * PingPongHandler :=
  match cbor_Marshal "ping" with
  | Err err => (Err (Errorf "marshal: %w" [] [err]), h)
  | Ok data =>
      let '(ch, h1) := makeChan h in
      let pingState := {| started := now1; notify := ch; expires := 0 |} in
      let '(pingID, h2) := drawPingID h1 in
      match doSendPingMsg {| msgDst := dstIP; msgPingID := pingID;
                             msgPingType := pingPongPingType; msgData := data;
                             msgFollowUp := false; msgFlag := false |} h2 with
      | (Some err, h3) => (Err (Errorf "send ping: %w" [] [err]), h3)
      | (None, h3) => (Ok (notify pingState), setActive now2 pingID pingState h3)
      end
  end.

(** [handleRequest] *)
Definition handleRequest (f : Peering.Frame) (hdr : PingHeader) (data : list byte)
    (h : PingPongHandler) : option Error * PingPongHandler :=
  match cbor_Unmarshal data with
  | Err err => (Some (Errorf "unmarshal msg: %w" [] [err]), h)
  | Ok msg =>
      if negb (String.eqb msg "ping")
      then (Some (Errorf "invalid ping pong request" [] []), h)
      else
        match cbor_Marshal "pong" with
        | Err err => (Some (Errorf "marshal: %w" [] [err]), h)
        | Ok data' =>
            match doSendPingMsg {| msgDst := Peering.srcIP f;
                                   msgPingID := PingID hdr;
                                   msgPingType := pingPongPingType;
                                   msgData := data';
                                   msgFollowUp := true; msgFlag := false |} h with
            | (Some err, h1) =>
                (Some (Errorf "send ping pong response: %w" [] [err]), h1)
            | (None, h1) => (None, h1)
            end
        end
  end.

(** [handleResponse] *)
Definition handleResponse (f : Peering.Frame) (hdr : PingHeader) (data : list byte)
    (h : PingPongHandler) : Outcome (option Error) * PingPongHandler :=
  match pluckActive (PingID hdr) h with
  | (None, h1) => (Returns (Some (Errorf "no state" [] [])), h1)
  | (Some pingState, h1) =>
      match cbor_Unmarshal data with
      | Err err => (Returns (Some (Errorf "unmarshal response: %w" [] [err])), h1)
      | Ok response =>
          if negb (String.eqb response "pong")
          then (Returns (Some (Errorf "invalid ping pong response" [] [])), h1)
          else
            match closeChan (notify pingState) h1 with
            | Returns h2 => (Returns None, h2)
            | Panics why => (Panics why, h1)
            | OutOfFuel => (OutOfFuel, h1)
            end
      end
  end.

(** [Handle] *)
Definition Handle (f : Peering.Frame) (hdr : PingHeader) (data : list byte)
    (h : PingPongHandler) : Outcome (option Error) * PingPongHandler :=
  if FollowUp hdr then handleResponse f hdr data h
  else let '(err, h') := handleRequest f hdr data h in (Returns err, h').

(** The calls the router and its users make on one handler. *)
Inductive Call : Type :=
| CallSend (now1 now2 : Z) (dstIP : N)
| CallHandle (f : Peering.Frame) (hdr : PingHeader) (data : list byte)
| CallClean (now : Z).

Definition call (c : Call) (h : PingPongHandler) : Outcome PingPongHandler :=
  match c with
  | CallSend now1 now2 dstIP => Returns (Send now1 now2 dstIP h).2
  | CallHandle f hdr data =>
      match Handle f hdr data h with
      | (Returns _, h') => Returns h'
      | (Panics why, _) => Panics why
      | (OutOfFuel, _) => OutOfFuel
      end
  | CallClean now => Returns (Clean now h).2
  end.

Fixpoint calls (cs : list Call) (h : PingPongHandler) : Outcome PingPongHandler :=
  match cs with
  | [] => Returns h
  | c :: cs' =>
      match call c h with
      | Returns h' => calls cs' h'
      | stop => stop
      end
  end.

End WithCollaborators.

End Router.

(** * Properties of the link (peering/link.go) *)
Module LinkProps.
Import Peering.

(** ** Inputs used in examples *)

(** A frame with [n] payload bytes, a 2-byte head margin and no tail. *)
Definition plainFrame (handle n : nat) : Frame :=
  {| poolHandle := handle; raw := replicate (2 + n) x2a;
     payloadOffset := 2; payloadLen := n; srcIP := 0%N; recvLink := None |}.

Definition idleConn (remote : NetAddr) : Conn :=
  {| rx := []; rxPlan := []; tx := []; txPlan := []; connClosed := false;
     remoteAddr := remote |}.

Definition emptyRegistry : Registry :=
  {| links := ∅; linksByLabel := ∅; started := [] |}.

Definition worldOf (l : LinkBase) : World :=
  {| link := l; peering := emptyRegistry; pool := []; nextHandle := 0;
     rngDraws := 0; logged := [] |}.

(** [n] frames with handles [first], [first + 1], ... *)
Definition framesFrom (first n : nat) : list Frame :=
  map (λ i, plainFrame i 4) (seq first n).

(** Sending [fs] one after the other. *)
Definition sendAll (fs : list Frame) (w : World) : World :=
  foldl (λ w f, (Send f w).2) w fs.

Definition sendPriorityAll (fs : list Frame) (w : World) : World :=
  foldl (λ w f, (SendPriority f w).2) w fs.

(** Collaborators for the examples: a handshake that answers the first
    [rounds] messages and is then done, a codec that leaves the bytes as they
    are (and cannot seal for session 0), and a label generator whose short
    labels are never usable and whose long labels count up. *)
Definition exampleCollaborators (rounds : nat) (routable : bool) : Collaborators :=
  {| peeringRequestState := nat;
     createPeeringRequest := λ _, Ok (0, plainFrame 100 4);
     state_handle := λ handled _,
       if handled <? rounds
       then (S handled, Some (plainFrame (101 + handled) 4), None)
       else (S handled, None, None);
     state_finalize := λ _, (Some 7%N, None);
     session_Address_IP := λ _, 0xfd00%N;
     Seal := λ session data,
       if (session =? 0)%N then (data, Some (ErrorsNew "no key")) else (data, None);
     Unseal := λ _ data, (data, None);
     LinkData := drop 2;
     FrameOffset := 2;
     FrameOverhead := 0;
     ParseFrame := λ data handle offset,
       Ok {| poolHandle := handle; raw := replicate offset x00 ++ data;
             payloadOffset := offset; payloadLen := length data;
             srcIP := 0%N; recvLink := None |};
     CalculateExpectedFrameSize := λ _, 1500;
     DeriveSwitchLabelFromIP := λ _, (0%N, false);
     RoutingAddressPrefix_Contains := λ _, routable;
     GetRandomSwitchLabel := λ short n,
       if short then (0%N, false) else (N.of_nat (S n), true) |}.

(** A freshly constructed link to 192.168.1.1:4242. *)
Definition freshLink : LinkBase :=
  @newLinkBase (exampleCollaborators 1 true) 1
    (idleConn (TCPAddr [xc0; xa8; x01; x01] 4242)) "tcp://192.168.1.1:4242" true.

Definition freshWorld : World := worldOf freshLink.

(** ** Record bookkeeping *)

Lemma onLink_same (f : LinkBase → LinkBase) (w : World) :
  f (link w) = link w → onLink f w = w.
Proof. destruct w. unfold onLink. cbn. by intros ->. Qed.

Lemma setSendQueueRegl_same (l : LinkBase) : setSendQueueRegl (sendQueueRegl l) l = l.
Proof. by destruct l. Qed.

Lemma setSendQueuePrio_same (l : LinkBase) : setSendQueuePrio (sendQueuePrio l) l = l.
Proof. by destruct l. Qed.

Lemma chanOffer_free (f : Frame) (ch : Chan) :
  chanLen ch < chanCap ch →
  chanOffer f ch = (true, {| chanBuf := chanBuf ch ++ [f]; chanCap := chanCap ch |}).
Proof.
  intros Hfree. unfold chanOffer.
  destruct (Nat.ltb_spec (chanLen ch) (chanCap ch)); [done | lia].
Qed.

Lemma chanOffer_full (f : Frame) (ch : Chan) :
  chanCap ch ≤ chanLen ch → chanOffer f ch = (false, ch).
Proof.
  intros Hfull. unfold chanOffer.
  destruct (Nat.ltb_spec (chanLen ch) (chanCap ch)); [lia | done].
Qed.

(** ** Flow control *)

Lemma percent_at_least (len cap k : nat) :
  cap ≠ 0 → (k <=? len * 100 / cap) = (k * cap <=? 100 * len).
Proof.
  intros Hcap.
  destruct (Nat.leb_spec (k * cap) (100 * len)) as [Hle | Hlt].
  - apply Nat.leb_le, Nat.div_le_lower_bound; lia.
  - apply Nat.leb_gt, Nat.Div0.div_lt_upper_bound; lia.
Qed.

(** C6, as the code has it: the indicator depends on the regular queue
    only; it is DecreaseFlow from 70% fill, HoldFlow from 30% and
    IncreaseFlow below.  On a 1000-slot queue 700 frames give DecreaseFlow,
    300 frames are needed for HoldFlow, and both 200 and 10 frames give
    IncreaseFlow. *)
Theorem FlowControlIndicator_thresholds (l : LinkBase) :
  chanCap (sendQueueRegl l) ≠ 0 →
  let len := chanLen (sendQueueRegl l) in
  let cap := chanCap (sendQueueRegl l) in
  (∀ q, FlowControlIndicator (setSendQueuePrio q l) = FlowControlIndicator l)
  ∧ (70 * cap ≤ 100 * len →
     FlowControlIndicator l = Returns FlowControlFlagDecreaseFlow)
  ∧ (30 * cap ≤ 100 * len < 70 * cap →
     FlowControlIndicator l = Returns FlowControlFlagHoldFlow)
  ∧ (100 * len < 30 * cap →
     FlowControlIndicator l = Returns FlowControlFlagIncreaseFlow)
  ∧ (cap = 1000 →
     (len = 700 → FlowControlIndicator l = Returns FlowControlFlagDecreaseFlow)
     ∧ (len = 300 → FlowControlIndicator l = Returns FlowControlFlagHoldFlow)
     ∧ (len = 200 → FlowControlIndicator l = Returns FlowControlFlagIncreaseFlow)
     ∧ (len = 10 → FlowControlIndicator l = Returns FlowControlFlagIncreaseFlow)).
Proof.
  intros Hcap len cap.
  assert (Hgen : FlowControlIndicator l =
                 if 70 * cap <=? 100 * len
                 then Returns FlowControlFlagDecreaseFlow
                 else if 30 * cap <=? 100 * len
                      then Returns FlowControlFlagHoldFlow
                      else Returns FlowControlFlagIncreaseFlow).
  { unfold FlowControlIndicator. fold len cap.
    destruct (Nat.eqb_spec cap 0) as [Hzero | _]; [by destruct Hcap |].
    by rewrite !percent_at_least. }
  split; [done |].
  rewrite Hgen. clear Hgen. clearbody len cap.
  split_and!; intros; try split_and!; intros;
    repeat match goal with
           | |- context [?a <=? ?b] => destruct (Nat.leb_spec a b)
           end; first [done | lia].
Qed.

(** The scenario of the specification: 700 frames on the regular queue,
    drained by the writer to 200 and then to 10 (every frame takes the
    writer two steps: the outer select finds no priority frame, the inner
    one takes the regular frame). *)
Definition queued700 : System :=
  @startWriter (sendAll (framesFrom 0 700) freshWorld).
Definition drainedTo200 : System :=
  @run (exampleCollaborators 1 true) (replicate 1000 (ActWriter 0 false)) queued700.
Definition drainedTo10 : System :=
  @run (exampleCollaborators 1 true) (replicate 380 (ActWriter 0 false)) drainedTo200.

Lemma FlowControlIndicator_thresholds_witness :
  FlowControlIndicator (link (world queued700)) = Returns FlowControlFlagDecreaseFlow
  ∧ FlowControlIndicator (link (world drainedTo200)) = Returns FlowControlFlagIncreaseFlow
  ∧ FlowControlIndicator (link (world drainedTo10)) = Returns FlowControlFlagIncreaseFlow.
Proof.
  assert (Hcap700 : chanCap (sendQueueRegl (link (world queued700))) ≠ 0)
    by (by vm_compute).
  assert (Hcap200 : chanCap (sendQueueRegl (link (world drainedTo200))) ≠ 0)
    by (by vm_compute).
  assert (Hcap10 : chanCap (sendQueueRegl (link (world drainedTo10))) ≠ 0)
    by (by vm_compute).
  split; [| split].
  - destruct (FlowControlIndicator_thresholds _ Hcap700) as (_ & _ & _ & _ & H1000).
    specialize (H1000 ltac:(by vm_compute)).
    destruct H1000 as (H700 & _). apply H700. by vm_compute.
  - destruct (FlowControlIndicator_thresholds _ Hcap200) as (_ & _ & _ & _ & H1000).
    specialize (H1000 ltac:(by vm_compute)).
    destruct H1000 as (_ & _ & H200 & _). apply H200. by vm_compute.
  - destruct (FlowControlIndicator_thresholds _ Hcap10) as (_ & _ & _ & _ & H1000).
    specialize (H1000 ltac:(by vm_compute)).
    destruct H1000 as (_ & _ & _ & H10). apply H10. by vm_compute.
Defined.

(** C6 does not hold as specified: with 200 frames left on the 1000-slot
    regular queue the indicator is IncreaseFlow, not HoldFlow. *)
Lemma FlowControlIndicator_200_of_1000 :
  chanCap (sendQueueRegl (link (world drainedTo200))) = 1000
  ∧ chanLen (sendQueueRegl (link (world drainedTo200))) = 200
  ∧ FlowControlIndicator (link (world drainedTo200))
    = Returns FlowControlFlagIncreaseFlow
  ∧ FlowControlIndicator (link (world drainedTo200))
    ≠ Returns FlowControlFlagHoldFlow.
Proof.
  assert (Hflag : FlowControlIndicator (link (world drainedTo200))
                  = Returns FlowControlFlagIncreaseFlow) by (by vm_compute).
  split_and!; [by vm_compute | by vm_compute | done |].
  rewrite Hflag. discriminate.
Qed.

(** ** Send entry points *)

Lemma Send_full (f : Frame) (w : World) :
  chanCap (sendQueueRegl (link w)) ≤ chanLen (sendQueueRegl (link w)) →
  Send f w = (None, w).
Proof.
  intros Hfull. unfold Send. rewrite chanOffer_full by done.
  f_equal. apply onLink_same, setSendQueueRegl_same.
Qed.

Lemma SendPriority_full (f : Frame) (w : World) :
  chanCap (sendQueuePrio (link w)) ≤ chanLen (sendQueuePrio (link w)) →
  SendPriority f w = (None, w).
Proof.
  intros Hfull. unfold SendPriority. rewrite chanOffer_full by done.
  f_equal. apply onLink_same, setSendQueuePrio_same.
Qed.

(** C1, as the code has it: [Send] and [SendPriority] always return nil;
    with a free slot the frame is appended once to the destination queue and
    nothing else changes; with a full queue nothing changes at all: the frame
    is not enqueued and the link does not return it to the pool either. *)
Theorem Send_SendPriority_offer (f : Frame) (w : World) :
  let regl := sendQueueRegl (link w) in
  let prio := sendQueuePrio (link w) in
  (Send f w).1 = None
  ∧ (SendPriority f w).1 = None
  ∧ (chanLen regl < chanCap regl →
     (Send f w).2
     = onLink (setSendQueueRegl {| chanBuf := chanBuf regl ++ [f];
                                   chanCap := chanCap regl |}) w)
  ∧ (chanCap regl ≤ chanLen regl → (Send f w).2 = w)
  ∧ (chanLen prio < chanCap prio →
     (SendPriority f w).2
     = onLink (setSendQueuePrio {| chanBuf := chanBuf prio ++ [f];
                                   chanCap := chanCap prio |}) w)
  ∧ (chanCap prio ≤ chanLen prio → (SendPriority f w).2 = w)
  ∧ pool (Send f w).2 = pool w
  ∧ pool (SendPriority f w).2 = pool w.
Proof.
  intros regl prio. subst regl prio. split_and!.
  - unfold Send. by destruct (chanOffer f _).
  - unfold SendPriority. by destruct (chanOffer f _).
  - intros Hfree. unfold Send. by rewrite chanOffer_free.
  - intros Hfull. by rewrite Send_full.
  - intros Hfree. unfold SendPriority. by rewrite chanOffer_free.
  - intros Hfull. by rewrite SendPriority_full.
  - unfold Send. by destruct (chanOffer f _).
  - unfold SendPriority. by destruct (chanOffer f _).
Qed.

(** On a fresh link both offers are taken, once. *)
Lemma Send_SendPriority_offer_witness :
  let f := plainFrame 2000 4 in
  chanBuf (sendQueueRegl (link (Send f freshWorld).2)) = [f]
  ∧ chanBuf (sendQueuePrio (link (Send f freshWorld).2)) = []
  ∧ chanBuf (sendQueuePrio (link (SendPriority f freshWorld).2)) = [f]
  ∧ chanBuf (sendQueueRegl (link (SendPriority f freshWorld).2)) = []
  ∧ pool (Send f freshWorld).2 = [].
Proof.
  intros f.
  destruct (Send_SendPriority_offer f freshWorld)
    as (_ & _ & Hregl & _ & Hprio & _).
  rewrite Hregl, Hprio by (vm_compute; lia). by split_and!.
Defined.

(** A link whose regular queue is full. *)
Definition fullWorld : World := sendAll (framesFrom 0 1000) freshWorld.

(** C1 does not hold as specified: a frame offered to a full queue is
    dropped and is not returned to the pool. *)
Lemma Send_drop_not_returned :
  let f := plainFrame 2000 4 in
  chanLen (sendQueueRegl (link fullWorld)) = 1000
  ∧ chanCap (sendQueueRegl (link fullWorld)) = 1000
  ∧ Send f fullWorld = (None, fullWorld)
  ∧ pool (Send f fullWorld).2 = []
  ∧ timesReturned (poolHandle f) (Send f fullWorld).2 = 0.
Proof.
  assert (Hlen : chanLen (sendQueueRegl (link fullWorld)) = 1000)
    by (vm_compute; reflexivity).
  assert (Hcap : chanCap (sendQueueRegl (link fullWorld)) = 1000)
    by (vm_compute; reflexivity).
  assert (Hdrop : Send (plainFrame 2000 4) fullWorld = (None, fullWorld))
    by (apply Send_full; lia).
  cbv zeta. rewrite Hdrop.
  split; [exact Hlen |]. split; [exact Hcap |]. split; [reflexivity |].
  split; vm_compute; reflexivity.
Qed.

(** C2, as the code has it: [Send] and [SendPriority] never read the
    closing flag.  They act on a closing link exactly as on an open one, so
    a frame is still enqueued whenever the queue has a free slot; the flag
    itself stays as it is, and [Close] sets it. *)
Theorem Send_ignores_closing (f : Frame) (w : World) (b : bool) :
  Send f (onLink (setClosing b) w)
  = ((Send f w).1, onLink (setClosing b) (Send f w).2)
  ∧ SendPriority f (onLink (setClosing b) w)
    = ((SendPriority f w).1, onLink (setClosing b) (SendPriority f w).2)
  ∧ IsClosing (link (Send f w).2) = IsClosing (link w)
  ∧ IsClosing (link (SendPriority f w).2) = IsClosing (link w)
  ∧ (∀ log, IsClosing (link (Close log w)) = true).
Proof.
  unfold Send, SendPriority, IsClosing. cbn.
  split_and!.
  - by destruct (chanOffer f (sendQueueRegl (link w))).
  - by destruct (chanOffer f (sendQueuePrio (link w))).
  - by destruct (chanOffer f (sendQueueRegl (link w))).
  - by destruct (chanOffer f (sendQueuePrio (link w))).
  - intros log. unfold Close.
    destruct (closing (link w)) eqn:Hclosing; [done |]. by destruct log.
Qed.

(** C2 does not hold as specified: after [Close] the link reports closing,
    and both entry points still enqueue the frame. *)
Lemma Send_accepts_while_closing :
  let w := Close None freshWorld in
  let f := plainFrame 2000 4 in
  IsClosing (link w) = true
  ∧ chanBuf (sendQueueRegl (link w)) = []
  ∧ chanBuf (sendQueuePrio (link w)) = []
  ∧ chanBuf (sendQueueRegl (link (Send f w).2)) = [f]
  ∧ chanBuf (sendQueuePrio (link (SendPriority f w).2)) = [f].
Proof. by vm_compute. Qed.

(** ** Address classes and the fallback latency *)

Example IsPrivate_classes :
  net.IsPrivate [xc0; xa8; x01; x01] = true          (* 192.168.1.1 *)
  ∧ net.IsPrivate [x0a; x00; x00; x07] = true        (* 10.0.0.7 *)
  ∧ net.IsPrivate (net.IPv4 xac x10 x00 x01) = true  (* 172.16.0.1 *)
  ∧ net.IsPrivate (xfd :: replicate 14 x00 ++ [x01]) = true   (* fd00::1 *)
  ∧ net.IsPrivate [x08; x08; x08; x08] = false       (* 8.8.8.8 *)
  ∧ net.IsPrivate [x7f; x00; x00; x01] = false.      (* 127.0.0.1 *)
Proof. by vm_compute. Qed.

Example IsGlobalUnicast_classes :
  net.IsGlobalUnicast [x08; x08; x08; x08] = true
  ∧ net.IsGlobalUnicast [xc0; xa8; x01; x01] = true
  ∧ net.IsGlobalUnicast [x7f; x00; x00; x01] = false           (* loopback *)
  ∧ net.IsGlobalUnicast [xe0; x00; x00; x01] = false           (* multicast *)
  ∧ net.IsGlobalUnicast [xa9; xfe; x01; x01] = false           (* link-local *)
  ∧ net.IsGlobalUnicast [xff; xff; xff; xff] = false           (* broadcast *)
  ∧ net.IsGlobalUnicast [x00; x00; x00; x00] = false           (* unspecified *)
  ∧ net.IsGlobalUnicast net.IPv6loopback = false
  ∧ net.IsGlobalUnicast (xfe :: x80 :: replicate 13 x00 ++ [x01]) = false
  ∧ net.IsGlobalUnicast [] = false.
Proof. by vm_compute. Qed.

Lemma To4_Some (ip ip4 : net.IP) :
  net.To4 ip = Some ip4 →
  ∃ a b c d, ip4 = [a; b; c; d] ∧ (ip = [a; b; c; d] ∨ ip = net.IPv4 a b c d).
Proof.
  unfold net.To4. destruct (Nat.eqb_spec (length ip) 4) as [H4 | _].
  - intros [= <-]. do 5 (destruct ip as [| ? ip]; try done). eauto 10.
  - destruct (Nat.eqb_spec (length ip) 16) as [H16 | _]; [| done]. cbn [andb].
    do 17 (destruct ip as [| ? ip]; try done).
    destruct (net.isZeros _) eqn:Hz; [| done]. cbn [andb].
    destruct (net.bytesEqual _ _) eqn:Hff; [| done]. intros [= <-].
    cbn in Hz, Hff.
    repeat match goal with
           | H : _ && _ = true |- _ =>
               apply andb_prop in H as [?%Byte.byte_dec_bl H]
           end.
    subst. eauto 10.
Qed.

(** Every private address is a global unicast address for [net.IP]: it is
    neither the broadcast address nor unspecified, loopback, multicast or
    link-local. *)
Lemma IsPrivate_IsGlobalUnicast (ip : net.IP) :
  net.IsPrivate ip = true → net.IsGlobalUnicast ip = true.
Proof.
  unfold net.IsPrivate, net.IsGlobalUnicast, net.IsUnspecified, net.IsLoopback,
    net.IsMulticast, net.IsLinkLocalUnicast.
  destruct (net.To4 ip) as [ip4 |] eqn:H4.
  - apply To4_Some in H4 as (a & b & c & d & -> & [-> | ->]); intros Hpriv.
    + destruct a; vm_compute in Hpriv; try discriminate Hpriv; reflexivity.
    + destruct a; vm_compute in Hpriv; try discriminate Hpriv; reflexivity.
  - intros [Hlen Hfc]%andb_prop. apply Nat.eqb_eq in Hlen.
    do 17 (destruct ip as [| ? ip]; try done).
    destruct b; vm_compute in Hfc; try discriminate Hfc; reflexivity.
Qed.

(** The IP address [getFallbackLatency] extracts, if the address has one. *)
Definition remoteIPOf (a : NetAddr) : option net.IP :=
  match a with
  | TCPAddr ip _ | UDPAddr ip _ | IPAddr ip => Some ip
  | UnixAddr _ => None
  end.

(** C7, what the code does: the fallback latency is 20 for an address
    without IP, 20 for a global unicast IP and 10 for every other IP.  The
    case for private addresses comes after the one for global unicast
    addresses, which contains it: a private address gets 20, and 5 is never
    returned. *)
Theorem getFallbackLatency_classes (l : LinkBase) :
  (remoteIPOf (remoteAddr (conn l)) = None → getFallbackLatency l = 20)
  ∧ (∀ ip, remoteIPOf (remoteAddr (conn l)) = Some ip →
       (net.IsGlobalUnicast ip = true → getFallbackLatency l = 20)
       ∧ (net.IsGlobalUnicast ip = false → getFallbackLatency l = 10)
       ∧ (net.IsPrivate ip = true → getFallbackLatency l = 20))
  ∧ getFallbackLatency l ≠ 5.
Proof.
  unfold getFallbackLatency.
  assert (Hip : ∀ ip,
            (net.IsGlobalUnicast ip = true →
             (if net.IsGlobalUnicast ip then 20
              else if net.IsPrivate ip then 5 else 10) = 20)
            ∧ (net.IsGlobalUnicast ip = false →
               (if net.IsGlobalUnicast ip then 20
                else if net.IsPrivate ip then 5 else 10) = 10)
            ∧ (net.IsPrivate ip = true →
               (if net.IsGlobalUnicast ip then 20
                else if net.IsPrivate ip then 5 else 10) = 20)
            ∧ (if net.IsGlobalUnicast ip then 20
               else if net.IsPrivate ip then 5 else 10) ≠ 5).
  { intros ip. pose proof (IsPrivate_IsGlobalUnicast ip) as Hsub.
    destruct (net.IsGlobalUnicast ip), (net.IsPrivate ip);
      split_and!; intros; try done; by specialize (Hsub eq_refl). }
  destruct (remoteAddr (conn l)) as [ip port | ip port | ip | name]; cbn.
  4: by split_and!.
  all: destruct (Hip ip) as (Hglobal & Hother & Hprivate & Hnever).
  all: split_and!; [done | by intros ip' [= <-] | done].
Qed.

(** [newLinkBase] seeds the latency with [getFallbackLatency]. *)
Lemma newLinkBase_latency `{Collaborators} (id : nat) (c : Conn) (url : string)
    (out : bool) :
  latency (newLinkBase id c url out) = getFallbackLatency (newLinkBase id c url out).
Proof. done. Qed.

(** The fallback latency at a private remote address: the link to
    192.168.1.1 is seeded with 20 ms, not 5. *)
Lemma getFallbackLatency_private_address :
  remoteAddr (conn freshLink) = TCPAddr [xc0; xa8; x01; x01] 4242
  ∧ net.IsPrivate [xc0; xa8; x01; x01] = true
  ∧ getFallbackLatency freshLink = 20
  ∧ latency freshLink = 20.
Proof. by vm_compute. Qed.

Lemma getFallbackLatency_classes_witness :
  getFallbackLatency freshLink = 20
  ∧ getFallbackLatency (setConn (idleConn (TCPAddr [x7f; x00; x00; x01] 4242))
                                freshLink) = 10
  ∧ getFallbackLatency (setConn (idleConn (UnixAddr "/run/mycoria.sock"))
                                freshLink) = 20.
Proof.
  split_and!.
  - destruct (getFallbackLatency_classes freshLink) as (_ & Hip & _).
    destruct (Hip [xc0; xa8; x01; x01] eq_refl) as (_ & _ & Hprivate).
    apply Hprivate. by vm_compute.
  - destruct (getFallbackLatency_classes
                (setConn (idleConn (TCPAddr [x7f; x00; x00; x01] 4242)) freshLink))
      as (_ & Hip & _).
    destruct (Hip [x7f; x00; x00; x01] eq_refl) as (_ & Hother & _).
    apply Hother. by vm_compute.
  - destruct (getFallbackLatency_classes
                (setConn (idleConn (UnixAddr "/run/mycoria.sock")) freshLink))
      as (Hnone & _).
    by apply Hnone.
Defined.

(** ** Switch labels *)

(** The world after [k] more draws from the label generator. *)
Definition afterDraws (k : nat) (w : World) : World := onRngDraws (λ d, k + d) w.

Lemma afterDraws_0 (w : World) : afterDraws 0 w = w.
Proof. by destruct w. Qed.

Lemma afterDraws_eq (j k : nat) (w w' : World) :
  link w = link w' → peering w = peering w' → pool w = pool w' →
  nextHandle w = nextHandle w' → logged w = logged w' →
  j + rngDraws w = k + rngDraws w' →
  afterDraws j w = afterDraws k w'.
Proof.
  destruct w, w'. unfold afterDraws, onRngDraws. cbn. by intros -> -> -> -> -> ->.
Qed.

Section SwitchLabels.
Context `{Collaborators}.

(** Whether the [k]-th draw of the generator is a label the link takes. *)
Definition drawAccepted (short : bool) (k : nat) (w : World) : bool :=
  labelAcceptable (GetRandomSwitchLabel short k) w.

(** All [n] draws refused: the loop runs to its end. *)
Lemma tryRandomLabels_none (n : nat) (short : bool) (w : World) :
  (∀ j, j < n → drawAccepted short (rngDraws w + j) w = false) →
  tryRandomLabels n short w = (None, afterDraws n w).
Proof.
  revert w. induction n as [| n IH]; intros w Hnone; cbn.
  - by rewrite afterDraws_0.
  - assert (H0 := Hnone 0 ltac:(lia)).
    rewrite Nat.add_0_r in H0. unfold drawAccepted, labelAcceptable in H0.
    unfold labelAcceptable at 1. cbn. rewrite H0.
    rewrite IH.
    + f_equal. apply afterDraws_eq; cbn; first [done | lia].
    + intros j Hj. specialize (Hnone (S j) ltac:(lia)).
      cbn. by replace (S (rngDraws w + j)) with (rngDraws w + S j) by lia.
Qed.

(** The [i]-th draw is the first one accepted: the loop stops there. *)
Lemma tryRandomLabels_some (n i : nat) (short : bool) (w : World) :
  i < n →
  (∀ j, j < i → drawAccepted short (rngDraws w + j) w = false) →
  drawAccepted short (rngDraws w + i) w = true →
  tryRandomLabels n short w
  = (Some (GetRandomSwitchLabel short (rngDraws w + i)).1, afterDraws (S i) w).
Proof.
  revert n w. induction i as [| i IH]; intros n w Hi Hnone Hsome;
    (destruct n as [| n]; [lia |]); cbn.
  - rewrite Nat.add_0_r in Hsome. unfold drawAccepted, labelAcceptable in Hsome.
    unfold labelAcceptable at 1. cbn. rewrite Hsome.
    by rewrite Nat.add_0_r.
  - assert (H0 := Hnone 0 ltac:(lia)).
    rewrite Nat.add_0_r in H0. unfold drawAccepted, labelAcceptable in H0.
    unfold labelAcceptable at 1. cbn. rewrite H0.
    rewrite (IH n); cbn.
    + replace (S (rngDraws w + i)) with (rngDraws w + S i) by lia.
      f_equal. apply afterDraws_eq; cbn; first [done | lia].
    + lia.
    + intros j Hj. specialize (Hnone (S j) ltac:(lia)).
      by replace (S (rngDraws w + j)) with (rngDraws w + S j) by lia.
    + by replace (S (rngDraws w + i)) with (rngDraws w + S i) by lia.
Qed.

(** C8, as the code has it: the derived label is taken if acceptable;
    otherwise a routable peer gets up to 100 short draws; and when no label
    has been taken so far -- for a routable peer as well as for any other
    -- up to 1000 long draws follow, the first acceptable one winning; only
    when these fail too does the call fail. *)
Theorem assignSwitchLabel_chain (w : World) :
  let derived := DeriveSwitchLabelFromIP (peer (link w)) in
  let routable := RoutingAddressPrefix_Contains (peer (link w)) in
  let shortDraws := if routable then 100 else 0 in
  let d := rngDraws w in
  (labelAcceptable derived w = true →
   assignSwitchLabel w = (None, onLink (setSwitchLabel derived.1) w))
  ∧ (labelAcceptable derived w = false → routable = true →
     ∀ i, i < 100 →
       (∀ j, j < i → drawAccepted true (d + j) w = false) →
       drawAccepted true (d + i) w = true →
       assignSwitchLabel w
       = (None, onLink (setSwitchLabel (GetRandomSwitchLabel true (d + i)).1)
                       (afterDraws (S i) w)))
  ∧ (labelAcceptable derived w = false →
     (routable = true → ∀ j, j < 100 → drawAccepted true (d + j) w = false) →
     ∀ i, i < 1000 →
       (∀ j, j < i → drawAccepted false (d + shortDraws + j) w = false) →
       drawAccepted false (d + shortDraws + i) w = true →
       assignSwitchLabel w
       = (None,
          onLink (setSwitchLabel (GetRandomSwitchLabel false (d + shortDraws + i)).1)
                 (afterDraws (shortDraws + S i) w)))
  ∧ (labelAcceptable derived w = false →
     (routable = true → ∀ j, j < 100 → drawAccepted true (d + j) w = false) →
     (∀ j, j < 1000 → drawAccepted false (d + shortDraws + j) w = false) →
     assignSwitchLabel w
     = (Some (ErrorsNew "no suitable switch label found"),
        afterDraws (shortDraws + 1000) w)).
Proof.
  intros derived routable shortDraws d. unfold assignSwitchLabel.
  fold derived routable. subst d.
  assert (Hshift : ∀ j k, afterDraws j (afterDraws k w) = afterDraws (k + j) w).
  { intros j k. apply afterDraws_eq; cbn; first [done | lia]. }
  assert (Hdraws : ∀ k, rngDraws (afterDraws k w) = k + rngDraws w) by done.
  assert (Hsame : ∀ short k j,
            drawAccepted short k (afterDraws j w) = drawAccepted short k w) by done.
  split_and!.
  - by intros ->.
  - intros -> Hroutable i Hi Hnone Hsome. rewrite Hroutable.
    by rewrite (tryRandomLabels_some 100 i true w).
  - intros -> Hshort i Hi Hnone Hsome. subst shortDraws.
    destruct routable.
    + rewrite (tryRandomLabels_none 100 true w) by (by apply Hshort).
      rewrite (tryRandomLabels_some 1000 i false (afterDraws 100 w)).
      * rewrite Hdraws, Hshift.
        by replace (100 + rngDraws w + i) with (rngDraws w + 100 + i) by lia.
      * done.
      * intros j Hj. rewrite Hdraws, Hsame.
        replace (100 + rngDraws w + j) with (rngDraws w + 100 + j) by lia.
        by apply Hnone.
      * rewrite Hdraws, Hsame.
        by replace (100 + rngDraws w + i) with (rngDraws w + 100 + i) by lia.
    + rewrite (tryRandomLabels_some 1000 i false w); try done.
      * by rewrite Nat.add_0_r.
      * intros j Hj. specialize (Hnone j Hj). by rewrite Nat.add_0_r in Hnone.
      * by rewrite Nat.add_0_r in Hsome.
  - intros -> Hshort Hlong. subst shortDraws.
    destruct routable.
    + rewrite (tryRandomLabels_none 100 true w) by (by apply Hshort).
      rewrite (tryRandomLabels_none 1000 false (afterDraws 100 w)).
      * by rewrite Hshift.
      * intros j Hj. rewrite Hdraws, Hsame.
        replace (100 + rngDraws w + j) with (rngDraws w + 100 + j) by lia.
        by apply Hlong.
    + rewrite (tryRandomLabels_none 1000 false w); [done |].
      intros j Hj. specialize (Hlong j Hj). by rewrite Nat.add_0_r in Hlong.
Qed.

End SwitchLabels.

(** A peer outside the routable prefix whose derived label is refused gets
    the first long label. *)
Lemma assignSwitchLabel_chain_witness :
  let C := exampleCollaborators 1 false in
  @assignSwitchLabel C freshWorld
  = (None, onLink (setSwitchLabel 1%N) (afterDraws 1 freshWorld)).
Proof.
  intros C.
  destruct (@assignSwitchLabel_chain C freshWorld) as (_ & _ & Hlong & _).
  apply (Hlong eq_refl ltac:(done) 0 ltac:(lia)); [intros j Hj; lia | done].
Defined.

(** C8 does not hold as specified: the peer of this link is in the routable
    prefix, its derived label and all 100 short draws are refused, and the
    link then takes the first long label instead of failing. *)
Lemma assignSwitchLabel_long_after_short :
  let C := exampleCollaborators 1 true in
  @RoutingAddressPrefix_Contains C (peer (link freshWorld)) = true
  ∧ @labelAcceptable (@DeriveSwitchLabelFromIP C (peer (link freshWorld))) freshWorld
    = false
  ∧ @tryRandomLabels C 100 true freshWorld = (None, afterDraws 100 freshWorld)
  ∧ (@assignSwitchLabel C freshWorld).1 = None
  ∧ switchLabel (link (@assignSwitchLabel C freshWorld).2)
    = (@GetRandomSwitchLabel C false 100).1
  ∧ rngDraws (@assignSwitchLabel C freshWorld).2 = 101.
Proof. by vm_compute. Qed.

(** ** Reading a record *)

(** A connection that is open and whose reads do not fail; how many bytes
    each read delivers stays arbitrary. *)
Definition steady (c : Conn) : Prop :=
  connClosed c = false ∧ ∀ e, ReadFail e ∉ rxPlan c.

Lemma length_writeAt (to bs : list byte) (pos : nat) :
  pos + length bs ≤ length to → length (writeAt to pos bs) = length to.
Proof.
  intros Hfit. unfold writeAt.
  rewrite !length_app, length_take, length_drop. lia.
Qed.

Lemma take_writeAt (to bs : list byte) (pos : nat) :
  pos + length bs ≤ length to →
  take (pos + length bs) (writeAt to pos bs) = take pos to ++ bs.
Proof.
  intros Hfit. unfold writeAt. rewrite app_assoc.
  apply take_app_length'. rewrite length_app, length_take. lia.
Qed.

Lemma drop_writeAt (to bs : list byte) (pos n : nat) :
  pos + length bs ≤ n → pos + length bs ≤ length to →
  drop n (writeAt to pos bs) = drop n to.
Proof.
  intros Hn Hfit. unfold writeAt.
  rewrite app_assoc, drop_app_ge by (rewrite length_app, length_take; lia).
  rewrite drop_drop, length_app, length_take. f_equal. lia.
Qed.

(** A read of [k >= 1] bytes on a steady connection with pending bytes
    delivers between 1 and [k] of them, in order. *)
Lemma connRead_steady (k : nat) (c : Conn) :
  steady c → rx c ≠ [] → 1 ≤ k →
  ∃ m c', connRead k c = (Ok (take m (rx c)), c')
          ∧ 1 ≤ m ≤ k ∧ steady c' ∧ rx c' = drop m (rx c).
Proof.
  intros [Hopen Hplan] Hrx Hk. unfold connRead, deliver. rewrite Hopen.
  destruct (rx c) as [| b pending] eqn:Hpending; [done |].
  destruct (rxPlan c) as [| [n | e] plan] eqn:Hp.
  - exists k. eexists. split_and!; [done | lia | lia | | done].
    split; [done |]. cbn. intros e. apply not_elem_of_nil.
  - exists (min (S n) k). eexists. split_and!; [done | lia | lia | | done].
    split; [done |]. cbn. intros e He. apply (Hplan e). by right.
  - exfalso. apply (Hplan e). by left.
Qed.

(** The filling loop on a steady connection that holds the bytes: it ends
    with [read = upto], the buffer holding the stream's bytes. *)
Lemma readLoop_steady (stream : list byte) (fuel upto read : nat)
    (to : list byte) (c : Conn) :
  steady c → read ≤ upto → upto ≤ length to → upto ≤ length stream →
  rx c = drop read stream → take read to = take read stream →
  upto - read ≤ fuel →
  ∃ to' c', readLoop fuel upto read to c = LoopDone upto to' c'
            ∧ steady c' ∧ rx c' = drop upto stream
            ∧ take upto to' = take upto stream
            ∧ length to' = length to.
Proof.
  revert read to c.
  induction fuel as [| fuel IH]; intros read to c Hc Hread Hto Hstream Hrx Hbuf Hfuel.
  - assert (read = upto) as -> by lia. cbn. rewrite Nat.leb_refl. eauto 10.
  - cbn. destruct (Nat.leb_spec upto read) as [Hdone | Hmore].
    { assert (read = upto) as -> by lia. eauto 10. }
    destruct (connRead_steady (upto - read) c) as (m & c' & -> & Hm & Hc' & Hrx');
      [done | | lia |].
    { rewrite Hrx. intros Hnil. apply (f_equal length) in Hnil.
      rewrite length_drop in Hnil. cbn in Hnil. lia. }
    assert (Hlen : length (take m (rx c)) = m).
    { rewrite length_take, Hrx, length_drop. lia. }
    destruct (IH (read + length (take m (rx c)))
                 (writeAt to read (take m (rx c))) c')
      as (to' & c'' & -> & Hc'' & Hrx'' & Hbuf'' & Hlen'').
    + done.
    + lia.
    + rewrite length_writeAt; lia.
    + done.
    + rewrite Hlen, Hrx', Hrx, drop_drop. done.
    + rewrite take_writeAt by lia. rewrite Hlen, Hbuf, Hrx.
      apply take_take_drop.
    + lia.
    + exists to', c''. split_and!; try done.
      rewrite Hlen''. apply length_writeAt. lia.
Qed.

(** The draining loop on a steady connection that holds the bytes: it ends
    having taken exactly the rest of the announced record off the stream. *)
Lemma drainLoop_steady (fuel dataLen read : nat) (to : list byte) (c : Conn) :
  steady c → read ≤ dataLen → 1 ≤ length to →
  dataLen - read ≤ length (rx c) → dataLen - read ≤ fuel →
  ∃ to' c', drainLoop fuel dataLen read to c = LoopDone dataLen to' c'
            ∧ steady c' ∧ rx c' = drop (dataLen - read) (rx c)
            ∧ length to' = length to.
Proof.
  revert read to c.
  induction fuel as [| fuel IH]; intros read to c Hc Hread Hto Hrx Hfuel.
  - assert (read = dataLen) as -> by lia. cbn. rewrite Nat.leb_refl.
    rewrite Nat.sub_diag, drop_0. eauto 10.
  - cbn. destruct (Nat.leb_spec dataLen read) as [Hdone | Hmore].
    { assert (read = dataLen) as -> by lia.
      rewrite Nat.sub_diag, drop_0. eauto 10. }
    destruct (connRead_steady (min (length to) (dataLen - read)) c)
      as (m & c' & -> & Hm & Hc' & Hrx'); [done | | lia |].
    { intros Hnil. rewrite Hnil in Hrx. cbn in Hrx. lia. }
    assert (Hlen : length (take m (rx c)) = m) by (rewrite length_take; lia).
    destruct (IH (read + length (take m (rx c)))
                 (writeAt to 0 (take m (rx c))) c')
      as (to' & c'' & -> & Hc'' & Hrx'' & Hlen'').
    + done.
    + lia.
    + rewrite length_writeAt; lia.
    + rewrite Hrx', length_drop. lia.
    + lia.
    + exists to', c''. split_and!; try done.
      * rewrite Hrx'', Hlen, Hrx', drop_drop. f_equal. lia.
      * rewrite Hlen''. apply length_writeAt. lia.
Qed.

(** *** The loops end on every connection *)

Lemma connRead_progress (k : nat) (c c' : Conn) (bs : list byte) :
  1 ≤ k → connRead k c = (Ok bs, c') → 1 ≤ length bs ≤ k.
Proof.
  intros Hk. unfold connRead, deliver.
  destruct (connClosed c); [done |].
  destruct (rx c) as [| b pending] eqn:Hrx;
    destruct (rxPlan c) as [| [n | e] plan]; try done;
    intros [= <- _]; rewrite length_take; cbn [length]; destruct k; lia.
Qed.

(** Whether a loop ended regularly or with a network read error, on a
    buffer of unchanged length. *)
Definition loopEnded (len : nat) (r : LoopExit) : Prop :=
  match r with
  | LoopDone _ to' _ => length to' = len
  | LoopError e _ _ => isNetworkReadError e = true
  | LoopFuel => False
  end.

Lemma readLoop_ends (fuel upto read : nat) (to : list byte) (c : Conn) :
  upto - read ≤ fuel → upto ≤ length to →
  loopEnded (length to) (readLoop fuel upto read to c).
Proof.
  revert read to c. induction fuel as [| fuel IH]; intros read to c Hfuel Hto; cbn.
  - destruct (Nat.leb_spec upto read); [done | lia].
  - destruct (Nat.leb_spec upto read) as [| Hmore]; [done |].
    destruct (connRead (upto - read) c) as [[bs | e] c'] eqn:Hread; [| done].
    apply connRead_progress in Hread; [| lia].
    assert (Hlen : length (writeAt to read bs) = length to)
      by (apply length_writeAt; lia).
    rewrite <- Hlen. apply IH; lia.
Qed.

Lemma drainLoop_ends (fuel dataLen read : nat) (to : list byte) (c : Conn) :
  dataLen - read ≤ fuel → 1 ≤ length to →
  loopEnded (length to) (drainLoop fuel dataLen read to c).
Proof.
  revert read to c. induction fuel as [| fuel IH]; intros read to c Hfuel Hto; cbn.
  - destruct (Nat.leb_spec dataLen read); [done | lia].
  - destruct (Nat.leb_spec dataLen read) as [| Hmore]; [done |].
    destruct (connRead (min (length to) (dataLen - read)) c)
      as [[bs | e] c'] eqn:Hread; [| done].
    apply connRead_progress in Hread; [| lia].
    assert (Hlen : length (writeAt to 0 bs) = length to)
      by (apply length_writeAt; lia).
    rewrite <- Hlen. apply IH; lia.
Qed.

(** [readLengthAndData] never runs out of iterations, and the errors it
    returns are network read errors or one of its two own. *)
Lemma readLengthAndData_ends (to : list byte) (w : World) :
  match (readLengthAndData to w).1.1 with
  | Returns (Ok _) => True
  | Returns (Err e) =>
      isNetworkReadError e = true
      ∨ e = ErrorsNew "frame too big for slice"
      ∨ ∃ n, n ≤ 3 ∧ e = Errorf "invalid data length of %d" [n] []
  | Panics _ => length to < 2
  | OutOfFuel => False
  end.
Proof.
  unfold readLengthAndData.
  destruct (Nat.ltb_spec (length to) 2) as [| Hto]; [done |].
  pose proof (readLoop_ends 2 2 0 to (conn (link w))) as Hhead.
  destruct (readLoop 2 2 0 to (conn (link w))) as [read to1 c1 | e to1 c1 |];
    cbn in Hhead; [| left; apply Hhead; lia | apply Hhead; lia].
  specialize (Hhead ltac:(lia) ltac:(lia)).
  destruct (Nat.leb_spec (GetUint16 (take 2 to1)) 3) as [Hsmall | Hvalid].
  { cbn. right. right. eauto. }
  destruct (Nat.ltb_spec (length to1) (GetUint16 (take 2 to1))) as [Hbig | Hfits].
  - pose proof (drainLoop_ends (GetUint16 (take 2 to1) - read)
                  (GetUint16 (take 2 to1)) read to1 c1) as Hdrain.
    destruct (drainLoop _ _ _ _ _) as [n to2 c2 | e to2 c2 |]; cbn in *.
    + right. by left.
    + left. apply Hdrain; lia.
    + apply Hdrain; lia.
  - pose proof (readLoop_ends (GetUint16 (take 2 to1) - read)
                  (GetUint16 (take 2 to1)) read to1 c1) as Hdata.
    destruct (readLoop _ _ _ _ _) as [n to2 c2 | e to2 c2 |]; cbn in *.
    + done.
    + left. apply Hdata; lia.
    + apply Hdata; lia.
Qed.

(** C3: on a connection whose reads do not fail and that holds the record,
    [readLengthAndData] takes the two length bytes and then: rejects an
    announced length of at most 3 having read nothing more; for a length
    beyond the buffer takes exactly the announced number of bytes (the two
    length bytes included) off the stream and reports "frame too big for
    slice", which is not a network read error; otherwise returns the first
    [dataLen] bytes of the buffer, which are the record. *)
Theorem readLengthAndData_spec (to : list byte) (w : World)
    (hi lo : byte) (rest : list byte) :
  2 ≤ length to →
  steady (conn (link w)) →
  rx (conn (link w)) = hi :: lo :: rest →
  let dataLen := GetUint16 [hi; lo] in
  (dataLen ≤ 3 →
   ∃ to' c',
     readLengthAndData to w
     = (Returns (Err (Errorf "invalid data length of %d" [dataLen] [])),
        to', withConn c' w)
     ∧ rx c' = rest)
  ∧ (3 < dataLen → length to < dataLen → dataLen ≤ 2 + length rest →
     ∃ to' c',
       readLengthAndData to w
       = (Returns (Err (ErrorsNew "frame too big for slice")), to', withConn c' w)
       ∧ rx c' = drop dataLen (hi :: lo :: rest)
       ∧ isNetworkReadError (ErrorsNew "frame too big for slice") = false)
  ∧ (3 < dataLen → dataLen ≤ length to → dataLen ≤ 2 + length rest →
     ∃ to' c',
       readLengthAndData to w = (Returns (Ok (take dataLen to')), to', withConn c' w)
       ∧ take dataLen to' = take dataLen (hi :: lo :: rest)
       ∧ rx c' = drop dataLen (hi :: lo :: rest)).
Proof.
  intros Hto Hc Hrx dataLen.
  set (stream := hi :: lo :: rest) in *.
  assert (Hstream : length stream = 2 + length rest) by done.
  destruct (readLoop_steady stream 2 2 0 to (conn (link w)))
    as (to1 & c1 & Hhead & Hc1 & Hrx1 & Hbuf1 & Hlen1);
    [done | lia | lia | lia | by rewrite drop_0 | done | lia |].
  assert (Hlength : GetUint16 (take 2 to1) = dataLen) by (by rewrite Hbuf1).
  unfold readLengthAndData.
  destruct (Nat.ltb_spec (length to) 2) as [| _]; [lia |].
  rewrite Hhead, Hlength.
  split_and!.
  - intros Hsmall.
    destruct (Nat.leb_spec dataLen 3) as [_ |]; [| lia]. eauto.
  - intros Hvalid Hbig Hheld.
    destruct (Nat.leb_spec dataLen 3) as [| _]; [lia |].
    destruct (Nat.ltb_spec (length to1) dataLen) as [_ |]; [| lia].
    destruct (drainLoop_steady (dataLen - 2) dataLen 2 to1 c1)
      as (to2 & c2 & -> & Hc2 & Hrx2 & Hlen2);
      [done | lia | lia | rewrite Hrx1, length_drop; lia | lia |].
    exists to2, c2. split_and!; [done | | done].
    rewrite Hrx2, Hrx1, drop_drop. f_equal. lia.
  - intros Hvalid Hfits Hheld.
    destruct (Nat.leb_spec dataLen 3) as [| _]; [lia |].
    destruct (Nat.ltb_spec (length to1) dataLen) as [| _]; [lia |].
    destruct (readLoop_steady stream (dataLen - 2) dataLen 2 to1 c1)
      as (to2 & c2 & -> & Hc2 & Hrx2 & Hbuf2 & Hlen2);
      [done | lia | lia | lia | done | done | lia |].
    by exists to2, c2.
Qed.

(** A link whose peer has sent [pending]; the reads deliver one, one and
    then at most three bytes, and whatever is there afterwards. *)
Definition wireWorld (pending : list byte) : World :=
  worldOf (setConn {| rx := pending;
                      rxPlan := [Deliver 0; Deliver 0; Deliver 2];
                      tx := []; txPlan := []; connClosed := false;
                      remoteAddr := TCPAddr [xc0; xa8; x01; x01] 4242 |}
                   freshLink).

Lemma wireWorld_steady (pending : list byte) : steady (conn (link (wireWorld pending))).
Proof.
  split; [done |]. cbn. intros e He.
  repeat (apply elem_of_cons in He as [He | He]; [discriminate |]).
  by apply elem_of_nil in He.
Qed.

(** Three records on the wire, each followed by the start of the next one:
    announced length 3; announced length 8 read into a 6-byte buffer;
    announced length 8 read into a 16-byte buffer. *)
Lemma readLengthAndData_spec_witness :
  (∃ to' c',
     readLengthAndData (replicate 6 x00) (wireWorld [x00; x03; x61; x00; x08])
     = (Returns (Err (Errorf "invalid data length of %d" [3] [])), to',
        withConn c' (wireWorld [x00; x03; x61; x00; x08]))
     ∧ rx c' = [x61; x00; x08])
  ∧ (∃ to' c',
       readLengthAndData (replicate 6 x00)
         (wireWorld [x00; x08; x61; x62; x63; x64; x65; x66; x00; x04])
       = (Returns (Err (ErrorsNew "frame too big for slice")), to',
          withConn c' (wireWorld [x00; x08; x61; x62; x63; x64; x65; x66; x00; x04]))
       ∧ rx c' = [x00; x04]
       ∧ isNetworkReadError (ErrorsNew "frame too big for slice") = false)
  ∧ (∃ to' c',
       readLengthAndData (replicate 16 x00)
         (wireWorld [x00; x08; x61; x62; x63; x64; x65; x66; x00; x04])
       = (Returns (Ok (take 8 to')), to',
          withConn c' (wireWorld [x00; x08; x61; x62; x63; x64; x65; x66; x00; x04]))
       ∧ take 8 to' = [x00; x08; x61; x62; x63; x64; x65; x66]
       ∧ rx c' = [x00; x04]).
Proof.
  split_and!.
  - destruct (readLengthAndData_spec (replicate 6 x00)
                (wireWorld [x00; x03; x61; x00; x08]) x00 x03 [x61; x00; x08])
      as (Hreject & _ & _); [cbn; lia | apply wireWorld_steady | done |].
    apply Hreject. vm_compute. lia.
  - destruct (readLengthAndData_spec (replicate 6 x00)
                (wireWorld [x00; x08; x61; x62; x63; x64; x65; x66; x00; x04])
                x00 x08 [x61; x62; x63; x64; x65; x66; x00; x04])
      as (_ & Hdrain & _); [cbn; lia | apply wireWorld_steady | done |].
    apply Hdrain; vm_compute; lia.
  - destruct (readLengthAndData_spec (replicate 16 x00)
                (wireWorld [x00; x08; x61; x62; x63; x64; x65; x66; x00; x04])
                x00 x08 [x61; x62; x63; x64; x65; x66; x00; x04])
      as (_ & _ & Hread); [cbn; lia | apply wireWorld_steady | done |].
    apply Hread; vm_compute; lia.
Defined.

(** ** Writing a frame *)

Lemma connWrite_progress (p : list byte) (c : Conn) (n : nat) (c' : Conn) :
  p ≠ [] → connWrite p c = (n, None, c') → 1 ≤ n ≤ length p.
Proof.
  intros Hp. unfold connWrite.
  assert (1 ≤ length p) by (destruct p; [done | cbn; lia]).
  destruct (connClosed c); [done |].
  destruct (txPlan c) as [| [k | e] plan]; intros [= <- _];
    destruct (length p); lia.
Qed.

(** The loop of [writeData] ends: every call of [Write] that does not fail
    takes at least one byte. *)
Lemma writeLoop_total (fuel written : nat) (data : list byte) (c : Conn) :
  length data - written ≤ fuel →
  ∃ err c', writeLoop fuel written data c = (Returns err, c').
Proof.
  revert written c. induction fuel as [| fuel IH]; intros written c Hfuel; cbn.
  - destruct (Nat.leb_spec (length data) written); [eauto | lia].
  - destruct (Nat.leb_spec (length data) written) as [| Hlt]; [eauto |].
    destruct (connWrite (drop written data) c) as [[n [err |]] c'] eqn:Hwrite;
      cbn; [eauto |].
    apply connWrite_progress in Hwrite as [Hn _].
    + apply IH. lia.
    + intros Hnil. apply (f_equal length) in Hnil.
      rewrite length_drop in Hnil. cbn in Hnil. lia.
Qed.

Lemma writeData_returns (data : list byte) (w : World) :
  ∃ err c', writeData data w = (Returns err, withConn c' w).
Proof.
  unfold writeData.
  destruct (writeLoop_total (length data) 0 data (conn (link w))) as (err & c' & ->);
    [lia | eauto].
Qed.

Section WithCollaborators.
Context `{Collaborators}.

(** The body of [writeFrame] returns (it neither panics nor loops) and
    leaves the pool alone. *)
Lemma writeFrameBody_returns (f : Frame) (w : World) :
  ∃ err w', writeFrameBody f w = (Returns err, w') ∧ pool w' = pool w.
Proof.
  unfold writeFrameBody.
  destruct (encSession (link w)) as [session |].
  - destruct (FrameDataWithMargins f FrameOffset FrameOverhead) as [data [e |]];
      [eauto |].
    destruct (Seal session data) as [sealed [e |]]; [eauto |].
    destruct (writeData_returns sealed w) as ([e |] & c' & ->); eauto.
  - destruct (FrameDataWithMargins f 2 0) as [data [e |]]; [eauto |].
    destruct (0xFFFF <? Z.of_nat (length data))%Z; [eauto |].
    destruct (writeData_returns (PutUint16 data (length data)) w)
      as ([e |] & c' & ->); eauto.
Qed.

(** C10: [writeFrame] always returns, and when it does the frame has been
    handed to the pool exactly once more than before, whatever the path
    (margins missing, seal failed, frame too big, write failed, or written);
    no other buffer is returned. *)
Theorem writeFrame_returns_frame_once (f : Frame) (w : World) :
  (∃ err, (writeFrame f w).1 = Returns err)
  ∧ pool (writeFrame f w).2 = poolHandle f :: pool w
  ∧ timesReturned (poolHandle f) (writeFrame f w).2
    = S (timesReturned (poolHandle f) w)
  ∧ (∀ h, h ≠ poolHandle f →
          timesReturned h (writeFrame f w).2 = timesReturned h w).
Proof.
  unfold writeFrame.
  destruct (writeFrameBody_returns f w) as (err & w' & -> & Hpool).
  unfold timesReturned. cbn. rewrite Hpool.
  split_and!.
  - eauto.
  - done.
  - by destruct (Nat.eq_dec (poolHandle f) (poolHandle f)).
  - intros h Hh. by destruct (Nat.eq_dec (poolHandle f) h).
Qed.

End WithCollaborators.

(** Each path through [writeFrame], on a fresh link: the frame written;
    no head margin; a frame of 65536 bytes; the connection closed; and, with
    a session, sealing refused.  The frame (handle 7) ends up in the pool
    once every time. *)
Example writeFrame_paths :
  let C := exampleCollaborators 1 true in
  let noMargin := {| poolHandle := 7; raw := replicate 4 x2a; payloadOffset := 0;
                     payloadLen := 4; srcIP := 0%N; recvLink := None |} in
  let sealing := onLink (setEncSession (Some 0%N)) freshWorld in
  (@writeFrame C (plainFrame 7 4) freshWorld).1 = Returns None
  ∧ tx (conn (link (@writeFrame C (plainFrame 7 4) freshWorld).2))
    = [x00; x06; x2a; x2a; x2a; x2a]
  ∧ pool (@writeFrame C (plainFrame 7 4) freshWorld).2 = [7]
  ∧ @writeFrame C noMargin freshWorld
    = (Returns (Some (Errorf "frame with margins 2,0: %w" []
                             [ErrorsNew "frame margins not available"])),
       ReturnToPool noMargin freshWorld)
  ∧ match (@writeFrame C (plainFrame 7 (256 * 256 - 2)) freshWorld).1 with
    | Returns (Some (Errorf format _ [])) => format = "frame is too big (%d bytes)"
    | _ => False
    end
  ∧ pool (@writeFrame C (plainFrame 7 (256 * 256 - 2)) freshWorld).2 = [7]
  ∧ @writeFrame C (plainFrame 7 4) (Close None freshWorld)
    = (Returns (Some (Errorf "write: %w" []
                        [Errorf "%w: %w" [] [ErrNetworkWriteError; net_ErrClosed]])),
       ReturnToPool (plainFrame 7 4) (Close None freshWorld))
  ∧ @writeFrame C (plainFrame 7 4) sealing
    = (Returns (Some (Errorf "seal link frame: %w" [] [ErrorsNew "no key"])),
       ReturnToPool (plainFrame 7 4) sealing).
Proof. intros C noMargin sealing. split_and!; vm_compute; reflexivity. Qed.

(** ** Setup *)

(** What the I/O and the label assignment of a setup leave alone: the
    registry, the closing flag and the identity of the link. *)
Definition untouched (w w' : World) : Prop :=
  peering w' = peering w
  ∧ closing (link w') = closing (link w)
  ∧ lid (link w') = lid (link w).

Lemma untouched_refl (w : World) : untouched w w.
Proof. by split_and!. Qed.

Lemma untouched_trans (w1 w2 w3 : World) :
  untouched w1 w2 → untouched w2 w3 → untouched w1 w3.
Proof. intros (? & ? & ?) (? & ? & ?). split_and!; congruence. Qed.

Lemma readLengthAndData_conn (to : list byte) (w : World) :
  ∃ c, (readLengthAndData to w).2 = withConn c w.
Proof.
  assert (Hsame : w = withConn (conn (link w)) w).
  { destruct w as [l ? ? ? ? ?]. by destruct l. }
  unfold readLengthAndData. repeat case_match; cbn; eauto.
Qed.

Section Setup.
Context `{Collaborators}.

Lemma writeFrameBody_conn (f : Frame) (w : World) :
  ∃ c, (writeFrameBody f w).2 = withConn c w.
Proof.
  assert (Hsame : w = withConn (conn (link w)) w).
  { destruct w as [l ? ? ? ? ?]. by destruct l. }
  assert (Hdata : ∀ data, ∃ c, (writeData data w).2 = withConn c w).
  { intros data. unfold writeData. destruct (writeLoop _ _ _ _). cbn. eauto. }
  unfold writeFrameBody.
  destruct (encSession (link w)) as [session |].
  - destruct (FrameDataWithMargins f FrameOffset FrameOverhead) as [data [e |]];
      [eauto |].
    destruct (Seal session data) as [sealed [e |]]; [eauto |].
    destruct (Hdata sealed) as [c Hc].
    destruct (writeData sealed w) as [[[e |] | why |] w']; cbn in *; eauto.
  - destruct (FrameDataWithMargins f 2 0) as [data [e |]]; [eauto |].
    destruct (0xFFFF <? Z.of_nat (length data))%Z; [eauto |].
    destruct (Hdata (PutUint16 data (length data))) as [c Hc].
    destruct (writeData _ w) as [[[e |] | why |] w']; cbn in *; eauto.
Qed.

Lemma writeFrame_untouched (f : Frame) (w : World) :
  untouched w (writeFrame f w).2 ∧ nextHandle (writeFrame f w).2 = nextHandle w.
Proof.
  unfold writeFrame. destruct (writeFrameBody_conn f w) as [c Hc].
  destruct (writeFrameBody f w) as [r w']. cbn in Hc. subst w'.
  destruct r as [res | why |]; cbn; by split; [split_and! |].
Qed.

Lemma readFrame_untouched (w : World) :
  untouched w (readFrame w).2 ∧ nextHandle (readFrame w).2 = S (nextHandle w).
Proof.
  unfold readFrame, GetPooledSlice.
  destruct (readLengthAndData_conn (replicate (frameSize (link w)) x00)
              (onNextHandle S w)) as [c Hc].
  destruct (readLengthAndData _ _) as [[r to'] w1]. cbn in Hc. subst w1.
  repeat case_match; simplify_eq; cbn; by split; [split_and! |].
Qed.

#[local] Arguments readFrame : simpl never.
#[local] Arguments writeFrame : simpl never.

Lemma setupLoop_untouched (remaining i : nat) (state : peeringRequestState)
    (w : World) :
  untouched w (setupLoop remaining i state w).2
  ∧ nextHandle (setupLoop remaining i state w).2 ≤ nextHandle w + remaining.
Proof.
  revert i state w. induction remaining as [| n IH]; intros i state w; cbn.
  { split; [apply untouched_refl | lia]. }
  destruct (readFrame_untouched w) as [Hread Hhandle].
  destruct (readFrame w) as [r w1]. cbn in Hread, Hhandle.
  destruct r as [[f | err] | why |]; cbn; try (split; [done | lia]).
  destruct (state_handle state f) as [[state' response] err].
  destruct err as [err |].
  { destruct response as [r |]; cbn; [| split; [done | lia]].
    destruct (writeFrame_untouched r w1) as [Hwrite Hsame].
    split; [by eapply untouched_trans | lia]. }
  destruct response as [r |]; cbn; [| split; [done | lia]].
  destruct (writeFrame_untouched r w1) as [Hwrite Hsame].
  destruct (writeFrame r w1) as [res w2]. cbn in Hwrite, Hsame.
  assert (Hw2 : untouched w w2) by (by eapply untouched_trans).
  destruct res as [[err |] | why |]; cbn; try (split; [done | lia]).
  destruct (IH (S i) state' w2) as [Hloop Hreads].
  split; [by eapply untouched_trans | lia].
Qed.

Lemma handleSetupMessages_untouched (client : bool) (w : World) :
  untouched w (handleSetupMessages client w).2
  ∧ nextHandle (handleSetupMessages client w).2 ≤ nextHandle w + 3.
Proof.
  unfold handleSetupMessages.
  destruct (createPeeringRequest client) as [[state f] | err]; cbn -[setupLoop];
    [| split; [apply untouched_refl | cbn; lia]].
  destruct (writeFrame_untouched f w) as [Hwrite Hsame].
  destruct (writeFrame f w) as [res w1]. cbn in Hwrite, Hsame.
  destruct res as [[err |] | why |]; cbn -[setupLoop]; try (split; [done | lia]).
  destruct (setupLoop_untouched 3 1 state w1) as [Hloop Hreads].
  split; [by eapply untouched_trans | lia].
Qed.

Lemma tryRandomLabels_untouched (n : nat) (short : bool) (w : World) :
  untouched w (tryRandomLabels n short w).2.
Proof.
  revert w. induction n as [| n IH]; intros w; cbn; [apply untouched_refl |].
  destruct (labelAcceptable _ _); cbn; [by split_and! |].
  eapply untouched_trans; [| apply IH]. by split_and!.
Qed.

#[local] Arguments tryRandomLabels : simpl never.

Lemma assignSwitchLabel_untouched (w : World) :
  untouched w (assignSwitchLabel w).2.
Proof.
  unfold assignSwitchLabel.
  destruct (labelAcceptable _ w); [by split_and! |].
  assert (Hshort : untouched w
            (if RoutingAddressPrefix_Contains (peer (link w))
             then tryRandomLabels 100 true w else (None, w)).2).
  { destruct (RoutingAddressPrefix_Contains _);
      [apply tryRandomLabels_untouched | apply untouched_refl]. }
  destruct (if RoutingAddressPrefix_Contains (peer (link w))
            then tryRandomLabels 100 true w else (None, w)) as [short w1].
  cbn in Hshort. destruct Hshort as (Hreg & Hclosing & Hlid).
  destruct short as [label |]; [by split_and! |].
  destruct (tryRandomLabels_untouched 1000 false w1) as (Hreg' & Hclosing' & Hlid').
  destruct (tryRandomLabels 1000 false w1) as [[label |] w2]; cbn in *;
    split_and!; cbn; congruence.
Qed.


Lemma RemoveLink_absent (l : LinkBase) (r : Registry) :
  (∀ k, links (RemoveLink l r) !! k ≠ Some (lid l))
  ∧ (∀ k, linksByLabel (RemoveLink l r) !! k ≠ Some (lid l))
  ∧ started (RemoveLink l r) = started r.
Proof.
  split_and!; [| | done]; intros k Hk; cbn in Hk;
    by apply map_lookup_filter_Some in Hk as [_ Hne].
Qed.







End Setup.

(** ** The writer and the two queues *)

Definition prioBuf (s : System) : list Frame :=
  chanBuf (sendQueuePrio (link (world s))).
Definition reglBuf (s : System) : list Frame :=
  chanBuf (sendQueueRegl (link (world s))).

(** Every frame the writer takes from the regular queue comes after it
    took [p] from the priority queue. *)
Definition priorityFirst (p : Frame) (log : list (Queue * Frame)) : Prop :=
  ∀ before f after, log = before ++ (ReglQ, f) :: after → (PrioQ, p) ∈ before.

Lemma priorityFirst_no_regular (p : Frame) (log : list (Queue * Frame)) :
  Forall (λ e, e.1 = PrioQ) log → priorityFirst p log.
Proof.
  intros Hall before f after ->.
  apply Forall_app in Hall as [_ Hall]. by apply Forall_cons in Hall as [? _].
Qed.

Lemma priorityFirst_snoc (p : Frame) (log : list (Queue * Frame)) (e : Queue * Frame) :
  priorityFirst p log → (PrioQ, p) ∈ log → priorityFirst p (log ++ [e]).
Proof.
  intros Hlog Hp before f after Heq.
  destruct after as [| e' after] using rev_ind.
  - apply app_inj_tail in Heq as [<- _]. done.
  - clear IHafter. rewrite app_comm_cons, app_assoc in Heq.
    apply app_inj_tail in Heq as [-> _]. by eapply Hlog.
Qed.

Lemma Close_queues (log : option string) (w : World) :
  sendQueuePrio (link (Close log w)) = sendQueuePrio (link w)
  ∧ sendQueueRegl (link (Close log w)) = sendQueueRegl (link w).
Proof. unfold Close. destruct (closing (link w)), log; by cbn. Qed.

Lemma Send_keeps_prio (f : Frame) (w : World) :
  sendQueuePrio (link (Send f w).2) = sendQueuePrio (link w).
Proof. unfold Send. by destruct (chanOffer f _). Qed.

Lemma SendPriority_keeps_waiting (f p : Frame) (w : World) :
  p ∈ chanBuf (sendQueuePrio (link w)) →
  p ∈ chanBuf (sendQueuePrio (link (SendPriority f w).2)).
Proof.
  unfold SendPriority, chanOffer. destruct (_ <? _); cbn; [set_solver | done].
Qed.

Lemma SendPriority_enqueues (p : Frame) (w : World) :
  chanLen (sendQueuePrio (link w)) < chanCap (sendQueuePrio (link w)) →
  p ∈ chanBuf (sendQueuePrio (link (SendPriority p w).2)).
Proof.
  intros Hfree. unfold SendPriority. rewrite chanOffer_free by done.
  cbn. set_solver.
Qed.

Section Writer.
Context `{Collaborators}.

Lemma writeFrame_queues (f : Frame) (w : World) :
  sendQueuePrio (link (writeFrame f w).2) = sendQueuePrio (link w)
  ∧ sendQueueRegl (link (writeFrame f w).2) = sendQueueRegl (link w).
Proof.
  unfold writeFrame. destruct (writeFrameBody_conn f w) as [c Hc].
  destruct (writeFrameBody f w) as [r w']. cbn in Hc. subst w'.
  by destruct r as [res | why |].
Qed.

(** After a select the writer writes the frame; it comes back to the outer
    select or returns, and the queues are as they were. *)
Lemma writerAfterSelect_facts (q : Queue) (f : Frame) (s : System) :
  selected (writerAfterSelect q f s) = selected s ++ [(q, f)]
  ∧ writerPC (writerAfterSelect q f s) ≠ AtSelectAny
  ∧ prioBuf (writerAfterSelect q f s) = prioBuf s
  ∧ reglBuf (writerAfterSelect q f s) = reglBuf s.
Proof.
  unfold writerAfterSelect, prioBuf, reglBuf.
  destruct (writeFrame_queues f (world s)) as [Hprio Hregl].
  destruct (writeFrame f (world s)) as [r w']. cbn in Hprio, Hregl.
  assert (Hclose : ∀ log1 log2,
            sendQueuePrio (link (Close log1 (Close log2 w')))
            = sendQueuePrio (link (world s))
            ∧ sendQueueRegl (link (Close log1 (Close log2 w')))
              = sendQueueRegl (link (world s))).
  { intros log1 log2.
    destruct (Close_queues log1 (Close log2 w')) as [-> ->].
    destruct (Close_queues log2 w') as [-> ->]. done. }
  assert (Hclose1 : ∀ log,
            sendQueuePrio (link (Close log w')) = sendQueuePrio (link (world s))
            ∧ sendQueueRegl (link (Close log w')) = sendQueueRegl (link (world s))).
  { intros log. destruct (Close_queues log w') as [-> ->]. done. }
  destruct r as [[err |] | why |];
    [destruct (isNetworkWriteError err);
     [| destruct (100 <=? S (consecutiveErrors s))] | | |];
    cbn [selected writerPC world];
    repeat match goal with
           | |- context [Close ?log1 (Close ?log2 w')] =>
               destruct (Hclose log1 log2) as [-> ->]
           | |- context [Close ?log w'] => destruct (Hclose1 log) as [-> ->]
           end;
    rewrite ?Hprio, ?Hregl; by split_and!.
Qed.

(** At the outer select a waiting priority frame is the one taken, and the
    regular queue is left as it is. *)
Lemma writerStep_prefers_priority (pick : nat) (done : bool) (s : System)
    (p : Frame) (rest : list Frame) :
  writerPC s = AtSelectPrio → prioBuf s = p :: rest →
  selected (writerStep pick done s) = selected s ++ [(PrioQ, p)]
  ∧ prioBuf (writerStep pick done s) = rest
  ∧ reglBuf (writerStep pick done s) = reglBuf s
  ∧ writerPC (writerStep pick done s) ≠ AtSelectAny.
Proof.
  intros Hpc Hprio. unfold writerStep. rewrite Hpc.
  unfold takePrio, chanPoll. unfold prioBuf in Hprio. rewrite Hprio.
  match goal with
  | |- context [writerAfterSelect PrioQ p ?s'] =>
      destruct (writerAfterSelect_facts PrioQ p s') as (-> & Hpc' & -> & ->)
  end.
  by split_and!.
Qed.

(** Every action appends at most one selection to the log. *)
Lemma act_selected (a : Action) (s : System) :
  selected (act a s) = selected s ∨ ∃ e, selected (act a s) = selected s ++ [e].
Proof.
  destruct a as [pick done | f | f |]; cbn; try by left.
  unfold writerStep.
  destruct (writerPC s); [| | by left].
  - unfold takePrio. destruct (chanPoll _) as [[f q] |]; [| by left].
    match goal with
    | |- context [writerAfterSelect ?q ?f ?s'] =>
        destruct (writerAfterSelect_facts q f s') as (-> & _)
    end.
    right. by eexists.
  - destruct (chooseCase _ _) as [[| |] |]; try by left.
    + unfold takePrio. destruct (chanPoll _) as [[f q] |]; [| by left].
      match goal with
      | |- context [writerAfterSelect ?q ?f ?s'] =>
          destruct (writerAfterSelect_facts q f s') as (-> & _)
      end.
      right. by eexists.
    + unfold takeRegl. destruct (chanPoll _) as [[f q] |]; [| by left].
      match goal with
      | |- context [writerAfterSelect ?q ?f ?s'] =>
          destruct (writerAfterSelect_facts q f s') as (-> & _)
      end.
      right. by eexists.
Qed.

(** The state of a link on which [p] has entered the priority queue, seen
    from the log [base] onwards: either [p] still waits, the writer is not
    in its inner select and has taken priority frames only; or [p] has been
    taken, before any regular frame. *)
Definition served (p : Frame) (base : list (Queue * Frame)) (s : System) : Prop :=
  ∃ new, selected s = base ++ new
         ∧ ((writerPC s ≠ AtSelectAny ∧ p ∈ prioBuf s
             ∧ Forall (λ e, e.1 = PrioQ) new)
            ∨ ((PrioQ, p) ∈ new ∧ priorityFirst p new)).

Lemma act_served (p : Frame) (base : list (Queue * Frame)) (a : Action) (s : System) :
  served p base s → served p base (act a s).
Proof.
  intros (new & Hlog & [(Hpc & Hwaits & Hprio) | (Htaken & Hfirst)]).
  2: { unfold served. destruct (act_selected a s) as [-> | (e & ->)].
       - exists new. eauto.
       - exists (new ++ [e]). rewrite Hlog, app_assoc. split; [done |]. right.
         split; [set_solver | by apply priorityFirst_snoc]. }
  destruct a as [pick done | f | f |].
  - cbn. destruct (writerPC s) eqn:Hat; [| done |].
    + destruct (prioBuf s) as [| h rest] eqn:Hbuf; [by apply elem_of_nil in Hwaits |].
      destruct (writerStep_prefers_priority pick done s h rest Hat Hbuf)
        as (Hsel & Hrest & _ & Hpc').
      exists (new ++ [(PrioQ, h)]). rewrite Hsel, Hlog, app_assoc. split; [done |].
      apply elem_of_cons in Hwaits as [-> | Hwaits].
      * right. split; [set_solver |].
        apply priorityFirst_no_regular, Forall_app. split; [done |].
        by apply Forall_singleton.
      * left. rewrite Hrest. split_and!; [done | done |].
        apply Forall_app. split; [done |]. by apply Forall_singleton.
    + exists new. split; [by unfold writerStep; rewrite Hat |]. left.
      unfold writerStep. rewrite Hat. by rewrite Hat.
  - exists new. split; [done |]. left. split_and!; [done | | done].
    unfold prioBuf in *. cbn. by rewrite Send_keeps_prio.
  - exists new. split; [done |]. left. split_and!; [done | | done].
    unfold prioBuf in *. cbn. by apply SendPriority_keeps_waiting.
  - exists new. split; [done |]. left. split_and!; [done | | done].
    unfold prioBuf in *. cbn. by destruct (Close_queues None (world s)) as [-> _].
Qed.

Lemma run_served (p : Frame) (base : list (Queue * Frame)) (schedule : list Action)
    (s : System) :
  served p base s → served p base (run schedule s).
Proof.
  revert s. induction schedule as [| a schedule IH]; intros s Hs; [done |].
  cbn. apply IH. by apply act_served.
Qed.

(** C5, as the code has it.  At its outer select the writer takes the head
    of a non-empty priority queue and leaves the regular queue alone.  So a
    frame that [SendPriority] can enqueue (the priority queue has a free
    slot) while the writer is not inside its inner select is taken before
    the writer takes anything more from the regular queue, whatever the
    senders, [Close] and the writer do afterwards. *)
Theorem writer_priority_order :
  (∀ pick done s p rest,
     writerPC s = AtSelectPrio → prioBuf s = p :: rest →
     selected (writerStep pick done s) = selected s ++ [(PrioQ, p)]
     ∧ prioBuf (writerStep pick done s) = rest
     ∧ reglBuf (writerStep pick done s) = reglBuf s)
  ∧ (∀ s p schedule,
       writerPC s ≠ AtSelectAny →
       chanLen (sendQueuePrio (link (world s)))
       < chanCap (sendQueuePrio (link (world s))) →
       ∃ new, selected (run schedule (act (ActSendPriority p) s))
              = selected s ++ new
              ∧ priorityFirst p new).
Proof.
  split.
  - intros pick done s p rest Hpc Hbuf.
    by destruct (writerStep_prefers_priority pick done s p rest Hpc Hbuf)
      as (? & ? & ? & _).
  - intros s p schedule Hpc Hfree.
    destruct (run_served p (selected s) schedule (act (ActSendPriority p) s))
      as (new & Hlog & Hcases).
    + exists []. rewrite app_nil_r. split; [done |]. left.
      split_and!; [done | | done].
      unfold prioBuf. cbn. by apply SendPriority_enqueues.
    + exists new. split; [done |].
      destruct Hcases as [(_ & _ & Hprio) | (_ & Hfirst)]; [| done].
      by apply priorityFirst_no_regular.
Qed.

End Writer.

(** The scenario of the specification: the regular queue holds 1000
    frames, the writer is about to select, and [p] is sent with priority:
    [p] is the next frame taken, then the oldest regular frame. *)
Lemma writer_priority_order_witness :
  let C := exampleCollaborators 1 true in
  let p := plainFrame 2000 4 in
  let s := startWriter fullWorld in
  let steps := [ActWriter 0 false; ActWriter 0 false; ActWriter 0 false] in
  length (reglBuf s) = 1000
  ∧ selected (@run C steps (@act C (ActSendPriority p) s))
    = [(PrioQ, p); (ReglQ, plainFrame 0 4)]
  ∧ ∃ new, selected (@run C steps (@act C (ActSendPriority p) s))
           = selected s ++ new
           ∧ priorityFirst p new.
Proof.
  intros C p s steps.
  split; [vm_compute; reflexivity |]. split; [vm_compute; reflexivity |].
  destruct (@writer_priority_order C) as [_ Horder].
  apply (Horder s p steps); [discriminate | vm_compute; lia].
Defined.

(** C5 does not hold as specified, in two ways.  First the race: the
    writer has found the priority queue empty and moved on to its inner
    select when [p] arrives; both queues are then ready and the runtime may
    pick the regular one, although the priority queue is not empty at that
    moment.  Second the full queue: [p] is offered to a priority queue
    holding 100 frames and is dropped, so the regular frame is written and
    [p] never is. *)
Lemma priority_frame_overtaken :
  let C := exampleCollaborators 1 true in
  let r := plainFrame 1 4 in
  let p := plainFrame 2000 4 in
  let s1 := @writerStep C 0 false (startWriter (Send r freshWorld).2) in
  let s2 := @act C (ActSendPriority p) s1 in
  let full := startWriter
                (Send r (sendPriorityAll (framesFrom 100 100) freshWorld)).2 in
  let s3 := @act C (ActSendPriority p) full in
  let s4 := @run C (replicate 110 (ActWriter 0 false)) s3 in
  (writerPC s1 = AtSelectAny
   ∧ prioBuf s2 = [p] ∧ reglBuf s2 = [r]
   ∧ selected (@writerStep C 1 false s2) = [(ReglQ, r)]
   ∧ prioBuf (@writerStep C 1 false s2) = [p])
  ∧ (length (prioBuf full) = 100 ∧ reglBuf full = [r]
     ∧ prioBuf s3 = prioBuf full
     ∧ selected s4 = map (pair PrioQ) (framesFrom 100 100) ++ [(ReglQ, r)]
     ∧ forallb (λ e, negb (poolHandle e.2 =? poolHandle p)) (selected s4) = true
     ∧ prioBuf s4 = [] ∧ reglBuf s4 = []).
Proof. vm_compute. by split_and!. Qed.

(** The handshake scenario of the specification: the peer keeps sending
    setup messages (four are on the wire) and the state machine answers
    every one of them. *)
Definition setupMessage : list byte := [x00; x06; x73; x65; x74; x75].

Definition setupWorld : World :=
  worldOf (setConn {| rx := setupMessage ++ setupMessage ++ setupMessage
                            ++ setupMessage;
                      rxPlan := [Deliver 0; Deliver 2]; tx := [];
                      txPlan := [Accept 3]; connClosed := false;
                      remoteAddr := TCPAddr [xc0; xa8; x01; x01] 4242 |}
                   freshLink).



End LinkProps.

(** * Properties of the ping/pong handler (router/ping_pong.go) *)
Module PingPongProps.
Import Router.

(** One pass of the loop of [Clean] over [m], deleting from [acc]. *)
Definition cleanFold (now : Z) (m acc : gmap N pingPongState) : gmap N pingPongState :=
  map_fold (λ pingID pongState r,
              if After now (expires pongState) then delete pingID r else r)
           acc m.

Lemma cleanFold_lookup (now : Z) (m acc : gmap N pingPongState) (i : N) :
  cleanFold now m acc !! i
  = match m !! i with
    | Some st => if After now (expires st) then None else acc !! i
    | None => acc !! i
    end.
Proof.
  unfold cleanFold. revert i.
  apply (map_fold_weak_ind
           (λ r m, ∀ i, r !! i = match m !! i with
                                 | Some st => if After now (expires st)
                                              then None else acc !! i
                                 | None => acc !! i
                                 end)).
  - intros i. by rewrite lookup_empty.
  - intros k x m' r Hfresh IH i.
    destruct (decide (k = i)) as [-> | Hne].
    + rewrite lookup_insert_eq.
      destruct (After now (expires x)).
      * by rewrite lookup_delete_eq.
      * by rewrite IH, Hfresh.
    + rewrite lookup_insert_ne by done.
      destruct (After now (expires x)).
      * by rewrite lookup_delete_ne.
      * done.
Qed.

(** [Clean] keeps exactly the states that are not past their expiry. *)
Lemma Clean_lookup (now : Z) (h : PingPongHandler) (i : N) (st : pingPongState) :
  active (Clean now h).2 !! i = Some st
  ↔ active h !! i = Some st ∧ After now (expires st) = false.
Proof.
  cbn. fold (cleanFold now (active h) (active h)). rewrite cleanFold_lookup.
  destruct (active h !! i) as [st' |] eqn:Hi.
  - destruct (After now (expires st')) eqn:Hexp.
    + split; [done |]. intros [[= ->] Hkeep]. congruence.
    + split; [intros [= ->]; done | by intros [? _]].
  - split; [done | by intros [? _]].
Qed.

(** What holds of a handler however it has been used: no channel is closed
    twice, and the channels of the states still registered are distinct and
    not closed yet. *)
Record consistent (h : PingPongHandler) : Prop := {
  closed_once : NoDup (closedChans h);
  closed_made : ∀ ch, ch ∈ closedChans h → ch < nextChan h;
  active_made : ∀ i st, active h !! i = Some st → notify st < nextChan h;
  active_open : ∀ i st, active h !! i = Some st → notify st ∉ closedChans h;
  active_distinct : ∀ i j st st', active h !! i = Some st →
                                  active h !! j = Some st' →
                                  notify st = notify st' → i = j
}.

Lemma consistent_new : consistent NewPingPongHandler.
Proof.
  split; cbn.
  - constructor.
  - intros ch Hch. by apply elem_of_nil in Hch.
  - intros i st Hi. by rewrite lookup_empty in Hi.
  - intros i st Hi. by rewrite lookup_empty in Hi.
  - intros i j st st' Hi. by rewrite lookup_empty in Hi.
Qed.

(** Dropping registered states keeps a handler consistent. *)
Lemma consistent_shrink (h : PingPongHandler) (m : gmap N pingPongState) :
  consistent h → (∀ i st, m !! i = Some st → active h !! i = Some st) →
  consistent (setActiveMap m h).
Proof.
  intros [Hnodup Hclosed Hmade Hopen Hdistinct] Hsub. split; cbn; eauto.
Qed.

(** The handler after [close(ch)]. *)
Definition withClosed (ch : nat) (h : PingPongHandler) : PingPongHandler :=
  {| active := active h; nextChan := nextChan h;
     closedChans := ch :: closedChans h; pingIDs := pingIDs h; sent := sent h |}.

Section WithCollaborators.
Context `{Collaborators}.

Lemma Send_consistent (now1 now2 : Z) (dstIP : N) (h : PingPongHandler) :
  consistent h → consistent (Send now1 now2 dstIP h).2.
Proof.
  intros [Hnodup Hclosed Hmade Hopen Hdistinct]. unfold Send.
  destruct (cbor_Marshal "ping") as [data | err]; [| by split].
  cbn. destruct (sendPingMsg _) as [err |]; cbn.
  - split; cbn; eauto.
    + intros ch Hch. specialize (Hclosed ch Hch). lia.
    + intros i st Hi. specialize (Hmade i st Hi). lia.
  - split; cbn.
    + done.
    + intros ch Hch. specialize (Hclosed ch Hch). lia.
    + intros i st. destruct (decide (newPingID (pingIDs h) = i)) as [-> | Hne].
      * rewrite lookup_insert_eq. intros [= <-]. cbn. lia.
      * rewrite lookup_insert_ne by done. intros Hi. specialize (Hmade i st Hi). lia.
    + intros i st. destruct (decide (newPingID (pingIDs h) = i)) as [-> | Hne].
      * rewrite lookup_insert_eq. intros [= <-]. cbn.
        intros Hch. specialize (Hclosed _ Hch). lia.
      * rewrite lookup_insert_ne by done. eauto.
    + intros i j st st'.
      destruct (decide (newPingID (pingIDs h) = i)) as [<- | Hi];
        destruct (decide (newPingID (pingIDs h) = j)) as [<- | Hj]; [done | | |].
      * rewrite lookup_insert_eq, lookup_insert_ne by done.
        intros [= <-] Hj'. cbn. intros Heq. specialize (Hmade j st' Hj'). lia.
      * rewrite lookup_insert_ne, lookup_insert_eq by done.
        intros Hi' [= <-]. cbn. intros Heq. specialize (Hmade i st Hi'). lia.
      * rewrite !lookup_insert_ne by done. eauto.
Qed.

Lemma handleRequest_consistent (f : Peering.Frame) (hdr : PingHeader)
    (data : list byte) (h : PingPongHandler) :
  consistent h → consistent (handleRequest f hdr data h).2.
Proof.
  intros Hh. unfold handleRequest.
  destruct (cbor_Unmarshal data) as [msg | err]; [| done].
  destruct (negb _); [done |].
  destruct (cbor_Marshal "pong") as [data' | err]; [| done].
  cbn. destruct (sendPingMsg _); cbn; by destruct Hh.
Qed.

(** [handleResponse], case by case. *)
Lemma handleResponse_cases (f : Peering.Frame) (hdr : PingHeader)
    (data : list byte) (h : PingPongHandler) :
  match active h !! PingID hdr with
  | None => handleResponse f hdr data h = (Returns (Some (Errorf "no state" [] [])), h)
  | Some pingState =>
      let plucked := setActiveMap (delete (PingID hdr) (active h)) h in
      match cbor_Unmarshal data with
      | Err err =>
          handleResponse f hdr data h
          = (Returns (Some (Errorf "unmarshal response: %w" [] [err])), plucked)
      | Ok msg =>
          if String.eqb msg "pong"
          then notify pingState ∉ closedChans h →
               handleResponse f hdr data h
               = (Returns None, withClosed (notify pingState) plucked)
          else handleResponse f hdr data h
               = (Returns (Some (Errorf "invalid ping pong response" [] [])), plucked)
      end
  end.
Proof.
  unfold handleResponse, pluckActive.
  destruct (active h !! PingID hdr) as [pingState |]; [| done].
  cbn. destruct (cbor_Unmarshal data) as [msg | err]; [| done].
  destruct (String.eqb msg "pong"); cbn; [| done].
  intros Hopen. unfold closeChan. cbn.
  by rewrite bool_decide_eq_false_2.
Qed.

Lemma handleResponse_consistent (f : Peering.Frame) (hdr : PingHeader)
    (data : list byte) (h : PingPongHandler) :
  consistent h →
  ∃ err h', handleResponse f hdr data h = (Returns err, h') ∧ consistent h'.
Proof.
  intros Hh. pose proof (handleResponse_cases f hdr data h) as Hcases.
  destruct (active h !! PingID hdr) as [pingState |] eqn:Hstate; [| eauto].
  assert (Hplucked : consistent (setActiveMap (delete (PingID hdr) (active h)) h)).
  { apply consistent_shrink; [done |]. intros i st Hi.
    by apply lookup_delete_Some in Hi as [_ Hi]. }
  cbn in Hcases. destruct (cbor_Unmarshal data) as [msg | err]; [| eauto].
  destruct (String.eqb msg "pong"); [| eauto].
  rewrite Hcases by (by eapply active_open).
  eexists _, _. split; [done |].
  destruct Hh as [Hnodup Hclosed_made Hmade Hopen Hdistinct].
  split; cbn.
  - constructor; [by eapply Hopen | done].
  - intros ch [-> | Hch]%elem_of_cons; eauto.
  - intros i st [_ Hi]%lookup_delete_Some. eauto.
  - intros i st [Hne Hi]%lookup_delete_Some.
    intros [Heq | Hch]%elem_of_cons; [| by eapply Hopen].
    apply Hne. symmetry. by eapply Hdistinct.
  - intros i j st st' [_ Hi]%lookup_delete_Some [_ Hj]%lookup_delete_Some. eauto.
Qed.

Lemma Clean_consistent (now : Z) (h : PingPongHandler) :
  consistent h → consistent (Clean now h).2.
Proof.
  intros Hh. apply consistent_shrink; [done |].
  intros i st Hi. by apply (Clean_lookup now h i st) in Hi as [Hi _].
Qed.

Lemma call_consistent (c : Call) (h : PingPongHandler) :
  consistent h → ∃ h', call c h = Returns h' ∧ consistent h'.
Proof.
  intros Hh. destruct c as [now1 now2 dstIP | f hdr data | now]; cbn.
  - eauto using Send_consistent.
  - unfold Handle. destruct (FollowUp hdr).
    + destruct (handleResponse_consistent f hdr data h Hh) as (err & h' & -> & Hh').
      eauto.
    + pose proof (handleRequest_consistent f hdr data h Hh) as Hh'.
      destruct (handleRequest f hdr data h) as [err h']. eauto.
  - eexists. split; [done |]. by apply (Clean_consistent now).
Qed.

Lemma calls_consistent (cs : list Call) (h : PingPongHandler) :
  consistent h → ∃ h', calls cs h = Returns h' ∧ consistent h'.
Proof.
  revert h. induction cs as [| c cs IH]; intros h Hh; cbn; [eauto |].
  destruct (call_consistent c h Hh) as (h' & -> & Hh'). eauto.
Qed.

(** C9: on a handler used in any way since [NewPingPongHandler], a response
    (a frame with FollowUp set, which [Handle] passes to [handleResponse])
    whose ping id has no registered state fails with "no state"; otherwise
    the state is removed, and the call fails if the payload does not decode
    or its msg is not "pong", and else closes the notify channel of the
    state.  No sequence of calls closes a channel twice (nor panics), and a
    new request gets a channel no earlier request has.  [Clean] keeps
    exactly the states whose expiry is not in the past. *)
Theorem handleResponse_and_Clean :
  (∀ cs, ∃ h, calls cs NewPingPongHandler = Returns h
              ∧ consistent h ∧ NoDup (closedChans h))
  ∧ (∀ f hdr data h, consistent h →
       match active h !! PingID hdr with
       | None =>
           handleResponse f hdr data h
           = (Returns (Some (Errorf "no state" [] [])), h)
       | Some pingState =>
           let plucked := setActiveMap (delete (PingID hdr) (active h)) h in
           match cbor_Unmarshal data with
           | Err err =>
               handleResponse f hdr data h
               = (Returns (Some (Errorf "unmarshal response: %w" [] [err])), plucked)
           | Ok msg =>
               if String.eqb msg "pong"
               then handleResponse f hdr data h
                    = (Returns None, withClosed (notify pingState) plucked)
               else handleResponse f hdr data h
                    = (Returns (Some (Errorf "invalid ping pong response" [] [])),
                       plucked)
           end
       end)
  ∧ (∀ now1 now2 dstIP h ch h', consistent h →
       Send now1 now2 dstIP h = (Ok ch, h') →
       (ch ∉ closedChans h) ∧ (∀ i st, active h !! i = Some st → notify st ≠ ch))
  ∧ (∀ now h i st,
       active (Clean now h).2 !! i = Some st
       ↔ active h !! i = Some st ∧ (expires st <? now)%Z = false)
  ∧ (∀ f hdr data h, FollowUp hdr = true →
       Handle f hdr data h = handleResponse f hdr data h).
Proof.
  split_and!; [| | | | by intros f hdr data h; unfold Handle; intros ->].
  - intros cs.
    destruct (calls_consistent cs NewPingPongHandler consistent_new) as (h & -> & Hh).
    exists h. split_and!; [done | done | by destruct Hh].
  - intros f hdr data h Hh.
    pose proof (handleResponse_cases f hdr data h) as Hcases.
    destruct (active h !! PingID hdr) as [pingState |] eqn:Hstate; [| done].
    cbn in *. destruct (cbor_Unmarshal data) as [msg | err]; [| done].
    destruct (String.eqb msg "pong"); [| done].
    apply Hcases. by eapply active_open.
  - intros now1 now2 dstIP h ch h' Hh. unfold Send.
    destruct (cbor_Marshal "ping") as [data | err]; [| done].
    cbn. destruct (sendPingMsg _); [done |]. intros [= <- _].
    split.
    + intros Hch. pose proof (closed_made h Hh _ Hch). lia.
    + intros i st Hi. pose proof (active_made h Hh i st Hi). lia.
  - intros now h i st. apply Clean_lookup.
Qed.

End WithCollaborators.

(** A codec of two messages, ping ids counting up from 1000, and a router
    that sends without error. *)
Definition exampleCodec : Collaborators :=
  {| cbor_Marshal := λ msg, if String.eqb msg "ping" then Ok [x01] else Ok [x02];
     cbor_Unmarshal := λ data,
       match data with
       | [b] => if Byte.eqb b x01 then Ok "ping"
                else if Byte.eqb b x02 then Ok "pong"
                else Err (ErrorsNew "cbor: unexpected data")
       | _ => Err (ErrorsNew "cbor: unexpected data")
       end;
     newPingID := λ n, (1000 + N.of_nat n)%N;
     sendPingMsg := λ _, None |}.

(** One request, sent at time 5, and what can come back. *)
Example ping_pong_exchange :
  let C := exampleCodec in
  let f := {| Peering.poolHandle := 0; Peering.raw := []; Peering.payloadOffset := 0;
              Peering.payloadLen := 0; Peering.srcIP := 9%N;
              Peering.recvLink := None |} in
  let pong := {| PingID := 1000%N; FollowUp := true |} in
  let other := {| PingID := 1001%N; FollowUp := true |} in
  let h := (@Send C 0 5 9%N NewPingPongHandler).2 in
  let answered := (@Handle C f pong [x02] h).2 in
  (@Send C 0 5 9%N NewPingPongHandler).1 = Ok 0
  ∧ active h !! 1000%N
    = Some {| started := 0; notify := 0; expires := (5 + thirtySeconds)%Z |}
  ∧ @Handle C f other [x02] h = (Returns (Some (Errorf "no state" [] [])), h)
  ∧ (@Handle C f pong [x01] h).1
    = Returns (Some (Errorf "invalid ping pong response" [] []))
  ∧ closedChans (@Handle C f pong [x01] h).2 = []
  ∧ active (@Handle C f pong [x01] h).2 !! 1000%N = None
  ∧ (@Handle C f pong [x02] h).1 = Returns None
  ∧ closedChans answered = [0]
  ∧ active answered !! 1000%N = None
  ∧ @Handle C f pong [x02] answered
    = (Returns (Some (Errorf "no state" [] [])), answered)
  ∧ active (Clean (5 + thirtySeconds) h).2 !! 1000%N = active h !! 1000%N
  ∧ active (Clean (5 + thirtySeconds + 1) h).2 !! 1000%N = None.
Proof. vm_compute. by split_and!. Qed.

(** The request of [ping_pong_exchange] and its answer. *)
Lemma handleResponse_and_Clean_witness :
  let C := exampleCodec in
  let f := {| Peering.poolHandle := 0; Peering.raw := []; Peering.payloadOffset := 0;
              Peering.payloadLen := 0; Peering.srcIP := 9%N;
              Peering.recvLink := None |} in
  let pong := {| PingID := 1000%N; FollowUp := true |} in
  let h := (@Send C 0 5 9%N NewPingPongHandler).2 in
  @handleResponse C f pong [x02] h
  = (Returns None, withClosed 0 (setActiveMap (delete 1000%N (active h)) h))
  ∧ @handleResponse C f pong [x01] h
    = (Returns (Some (Errorf "invalid ping pong response" [] [])),
       setActiveMap (delete 1000%N (active h)) h).
Proof.
  intros C f pong h.
  destruct (@handleResponse_and_Clean C) as (Hreach & Hresponse & _).
  destruct (Hreach [CallSend 0 5 9%N]) as (h' & Hcalls & Hconsistent & _).
  change (@calls C [CallSend 0 5 9%N] NewPingPongHandler) with (Returns h) in Hcalls.
  injection Hcalls as <-.
  split.
  - exact (Hresponse f pong [x02] h Hconsistent).
  - exact (Hresponse f pong [x01] h Hconsistent).
Defined.

End PingPongProps.

(** * Further behaviour of the link: the wire, the workers, the setup *)
Module LinkBehaviour.
Import Peering LinkProps.

(** ** Writing bytes *)

(** A connection that is open and whose writes do not fail; how many bytes
    each write takes stays arbitrary. *)
Definition writeSteady (c : Conn) : Prop :=
  connClosed c = false ∧ ∀ e, WriteFail e ∉ txPlan c.

(** What a write leaves alone. *)
Definition sameReadSide (c c' : Conn) : Prop :=
  rx c' = rx c ∧ rxPlan c' = rxPlan c ∧ connClosed c' = connClosed c
  ∧ remoteAddr c' = remoteAddr c.

Lemma connWrite_sameReadSide (p : list byte) (c : Conn) :
  sameReadSide c (connWrite p c).2.
Proof.
  unfold connWrite, sameReadSide.
  destruct (connClosed c) eqn:Hclosed; [done |].
  by destruct (txPlan c) as [| [n | e] plan].
Qed.

Lemma connWrite_tx (p : list byte) (c c' : Conn) (k : nat) :
  connWrite p c = (k, None, c') → tx c' = tx c ++ take k p.
Proof.
  unfold connWrite. destruct (connClosed c); [done |].
  destruct (txPlan c) as [| [m | e] plan]; intros [= <- <-]; cbn.
  - by rewrite take_ge.
  - done.
Qed.


Lemma sameReadSide_trans (c1 c2 c3 : Conn) :
  sameReadSide c1 c2 → sameReadSide c2 c3 → sameReadSide c1 c3.
Proof.
  intros (? & ? & ? & ?) (? & ? & ? & ?). unfold sameReadSide.
  split_and!; congruence.
Qed.



Lemma connWrite_steady (p : list byte) (c : Conn) :
  writeSteady c → ∃ k c', connWrite p c = (k, None, c') ∧ writeSteady c'.
Proof.
  intros [Hopen Hplan]. unfold connWrite. rewrite Hopen.
  destruct (txPlan c) as [| [n | e] plan] eqn:Hp.
  - eexists _, _. split; [done |]. split; [done |]. cbn. intros e.
    apply not_elem_of_nil.
  - eexists _, _. split; [done |]. split; [done |]. cbn. intros e He.
    apply (Hplan e). by right.
  - exfalso. apply (Hplan e). by left.
Qed.

Lemma writeLoop_steady (fuel written : nat) (data : list byte) (c : Conn) :
  writeSteady c → length data - written ≤ fuel →
  ∃ c', writeLoop fuel written data c = (Returns None, c')
        ∧ tx c' = tx c ++ drop written data
        ∧ writeSteady c' ∧ sameReadSide c c'.
Proof.
  revert written c. induction fuel as [| fuel IH]; intros written c Hc Hfuel; cbn.
  - destruct (Nat.leb_spec (length data) written); [| lia].
    exists c. rewrite drop_ge, app_nil_r by done. by split_and!.
  - destruct (Nat.leb_spec (length data) written) as [| Hmore].
    { exists c. rewrite drop_ge, app_nil_r by done. by split_and!. }
    pose proof (connWrite_sameReadSide (drop written data) c) as Hside.
    destruct (connWrite_steady (drop written data) c Hc) as (k & c1 & Hwrite & Hc1).
    rewrite Hwrite in *. cbn in Hside. cbn.
    assert (Hk : 1 ≤ k ≤ length (drop written data)).
    { eapply connWrite_progress; [| done]. intros Hnil.
      apply (f_equal length) in Hnil. rewrite length_drop in Hnil. cbn in Hnil. lia. }
    apply connWrite_tx in Hwrite as Htx.
    destruct (IH (written + k) c1 Hc1) as (c' & -> & Htx' & Hc' & Hside'); [lia |].
    exists c'. split_and!; [done | | done | by eapply sameReadSide_trans].
    rewrite Htx', Htx, <- app_assoc, <- drop_drop. by rewrite take_drop.
Qed.

(** [writeData] on a connection whose writes do not fail: all of [data]
    reaches the wire, in order, whatever the sizes of the partial writes. *)
Theorem writeData_steady (data : list byte) (w : World) :
  writeSteady (conn (link w)) →
  ∃ c', writeData data w = (Returns None, withConn c' w)
        ∧ tx c' = tx (conn (link w)) ++ data
        ∧ writeSteady c'
        ∧ sameReadSide (conn (link w)) c'.
Proof.
  intros Hc. unfold writeData.
  destruct (writeLoop_steady (length data) 0 data (conn (link w)) Hc)
    as (c' & -> & Htx & Hc' & Hside); [lia |].
  rewrite drop_0 in Htx. by exists c'.
Qed.

(** ** The record of a frame on an unencrypted link *)

(** The payload of a frame, and the record [writeFrame] makes of it when the
    link has no encryption session: the length of the whole record in two
    bytes, big-endian, then the payload. *)
Definition payload (f : Frame) : list byte :=
  take (payloadLen f) (drop (payloadOffset f) (raw f)).

Definition plainRecord (f : Frame) : list byte :=
  byteOfNat ((2 + payloadLen f) / 256) :: byteOfNat (2 + payloadLen f) :: payload f.

(** The raw buffer holds the payload and two bytes of margin before it. *)
Definition framed (f : Frame) : Prop :=
  2 ≤ payloadOffset f ∧ payloadOffset f + payloadLen f ≤ length (raw f).

Lemma length_payload (f : Frame) : framed f → length (payload f) = payloadLen f.
Proof.
  intros [_ Hlen]. unfold payload. rewrite length_take, length_drop. lia.
Qed.

Lemma byteOfNat_to_N (n : nat) : N.to_nat (Byte.to_N (byteOfNat n)) = n mod 256.
Proof.
  unfold byteOfNat. destruct (Byte.of_N (N.of_nat (n mod 256))) as [b |] eqn:Hb.
  - apply Byte.to_of_N in Hb. rewrite Hb. apply Nat2N.id.
  - apply Byte.of_N_None_iff in Hb.
    pose proof (Nat.mod_upper_bound n 256). lia.
Qed.

(** [GetUint16] reads back what [PutUint16] wrote. *)
Lemma GetUint16_bytes (n : nat) (rest : list byte) :
  n < 256 * 256 →
  GetUint16 (byteOfNat (n / 256) :: byteOfNat n :: rest) = n.
Proof.
  intros Hn. unfold GetUint16. cbn [nth]. rewrite !byteOfNat_to_N.
  rewrite (Nat.mod_small (n / 256)) by (apply Nat.Div0.div_lt_upper_bound; lia).
  pose proof (Nat.div_mod_eq n 256). lia.
Qed.

Lemma FrameDataWithMargins_plain (f : Frame) :
  framed f →
  FrameDataWithMargins f 2 0
  = (take (2 + payloadLen f + 0) (drop (payloadOffset f - 2) (raw f)), None).
Proof.
  intros [Hoff Hlen]. unfold FrameDataWithMargins.
  destruct (Nat.leb_spec 2 (payloadOffset f)); [| lia].
  destruct (Nat.leb_spec (payloadOffset f + payloadLen f + 0) (length (raw f)));
    [done | lia].
Qed.

Lemma PutUint16_plainRecord (f : Frame) :
  framed f →
  let data := take (2 + payloadLen f + 0) (drop (payloadOffset f - 2) (raw f)) in
  length data = 2 + payloadLen f
  ∧ PutUint16 data (length data) = plainRecord f.
Proof.
  intros [Hoff Hlen] data.
  assert (Hdata : length data = 2 + payloadLen f).
  { unfold data. rewrite length_take, length_drop. lia. }
  split; [done |]. rewrite Hdata. unfold PutUint16, writeAt, plainRecord, payload.
  rewrite take_0. cbn [app length Nat.add]. do 2 f_equal.
  unfold data. rewrite skipn_firstn_comm, drop_drop. f_equal; [lia |].
  f_equal. lia.
Qed.

(** On a link without encryption session whose writes do not fail, the body
    of [writeFrame] appends the record of the frame to the wire. *)
Lemma writeFrameBody_plain `{Collaborators} (f : Frame) (w : World) :
  encSession (link w) = None → framed f →
  (Z.of_nat (2 + payloadLen f) ≤ 0xFFFF)%Z →
  writeSteady (conn (link w)) →
  ∃ c', writeFrameBody f w = (Returns None, withConn c' w)
        ∧ tx c' = tx (conn (link w)) ++ plainRecord f
        ∧ writeSteady c'
        ∧ sameReadSide (conn (link w)) c'.
Proof.
  intros Henc Hf Hsize Hc. unfold writeFrameBody. rewrite Henc.
  rewrite (FrameDataWithMargins_plain f Hf).
  destruct (PutUint16_plainRecord f Hf) as [Hlen Hput]. cbn zeta in Hlen, Hput.
  rewrite Hput, Hlen.
  destruct (Z.ltb_spec 0xFFFF (Z.of_nat (2 + payloadLen f))); [lia |].
  unfold writeData.
  destruct (writeLoop_steady (length (plainRecord f)) 0 (plainRecord f)
              (conn (link w)) Hc) as (c' & -> & Htx & Hc' & Hside); [lia |].
  rewrite drop_0 in Htx. by exists c'.
Qed.

(** [writeFrame] on an unencrypted link whose writes do not fail: the wire
    gets the two length bytes, big-endian and counting themselves, followed
    by the payload; the frame goes back to the pool; nothing else changes. *)
Theorem writeFrame_plain_record `{Collaborators} (f : Frame) (w : World) :
  encSession (link w) = None → framed f →
  (Z.of_nat (2 + payloadLen f) ≤ 0xFFFF)%Z →
  writeSteady (conn (link w)) →
  ∃ c', writeFrame f w = (Returns None, ReturnToPool f (withConn c' w))
        ∧ tx c' = tx (conn (link w)) ++ plainRecord f
        ∧ GetUint16 (plainRecord f) = length (plainRecord f)
        ∧ writeSteady c'
        ∧ sameReadSide (conn (link w)) c'.
Proof.
  intros Henc Hf Hsize Hc.
  destruct (writeFrameBody_plain f w Henc Hf Hsize Hc)
    as (c' & Hbody & Htx & Hc' & Hside).
  exists c'. unfold writeFrame. rewrite Hbody. split_and!; [done | done | | done | done].
  unfold plainRecord. rewrite GetUint16_bytes by lia.
  cbn [length]. rewrite length_payload by done. lia.
Qed.

Lemma writeFrame_plain_record_witness :
  let C := exampleCollaborators 1 true in
  let f := plainFrame 7 4 in
  ∃ c', @writeFrame C f freshWorld
        = (Returns None, ReturnToPool f (withConn c' freshWorld))
        ∧ tx c' = tx (conn (link freshWorld)) ++ plainRecord f
        ∧ GetUint16 (plainRecord f) = length (plainRecord f)
        ∧ writeSteady c'
        ∧ sameReadSide (conn (link freshWorld)) c'.
Proof.
  intros C f. apply (@writeFrame_plain_record C f freshWorld).
  - reflexivity.
  - unfold framed. cbn. lia.
  - cbn. lia.
  - split; [reflexivity |]. intros e He. cbn in He. by apply elem_of_nil in He.
Defined.

(** ** Reading a record back *)

(** On a connection whose reads do not fail, [readLengthAndData] returns the
    record at the head of the stream when the record's own length bytes say
    how long it is, it is longer than three bytes and fits the buffer. *)
Lemma readLengthAndData_record (to : list byte) (w : World)
    (record rest : list byte) :
  steady (conn (link w)) →
  rx (conn (link w)) = record ++ rest →
  GetUint16 (take 2 record) = length record →
  4 ≤ length record → length record ≤ length to →
  ∃ to' c', readLengthAndData to w = (Returns (Ok record), to', withConn c' w)
            ∧ rx c' = rest ∧ steady c'.
Proof.
  intros Hc Hrx Hlen Hmin Hfit. unfold readLengthAndData.
  destruct (Nat.ltb_spec (length to) 2); [lia |].
  assert (Hstream : length (rx (conn (link w))) = length record + length rest).
  { by rewrite Hrx, length_app. }
  destruct (readLoop_steady (rx (conn (link w))) 2 2 0 to (conn (link w)))
    as (to1 & c1 & -> & Hc1 & Hrx1 & Hto1 & Hlen1); [done | lia | lia | lia | done | done | lia |].
  assert (Hhead : take 2 to1 = take 2 record).
  { rewrite Hto1, Hrx. apply take_app_le. lia. }
  rewrite Hhead, Hlen.
  destruct (Nat.leb_spec (length record) 3); [lia |].
  destruct (Nat.ltb_spec (length to1) (length record)); [lia |].
  destruct (readLoop_steady (rx (conn (link w))) (length record - 2) (length record)
              2 to1 c1)
    as (to2 & c2 & -> & Hc2 & Hrx2 & Hto2 & Hlen2);
    [done | lia | lia | lia | done | done | lia |].
  exists to2, c2. rewrite Hto2, Hrx, take_app_length. split_and!; [done | | done].
  by rewrite Hrx2, Hrx, drop_app_length.
Qed.

(** The same for [readFrame] on a link without encryption session: the
    buffer comes from the pool, the parser gets the record without its
    length bytes, and the frame is marked with the receiving link. *)
Lemma readFrame_record `{Collaborators} (w : World) (record rest : list byte) :
  encSession (link w) = None →
  steady (conn (link w)) →
  rx (conn (link w)) = record ++ rest →
  GetUint16 (take 2 record) = length record →
  4 ≤ length record → length record ≤ frameSize (link w) →
  ∃ c', readFrame w
        = (match ParseFrame (drop 2 record) (nextHandle w) 2 with
           | Ok g => Returns (Ok (SetRecvLink g (lid (link w))))
           | Err e => Returns (Err (Errorf "parse frame: %w" [] [e]))
           end, withConn c' (onNextHandle S w))
        ∧ rx c' = rest ∧ steady c'.
Proof.
  intros Henc Hc Hrx Hlen Hmin Hfit. unfold readFrame, GetPooledSlice.
  destruct (readLengthAndData_record (replicate (frameSize (link w)) x00)
              (onNextHandle S w) record rest)
    as (to' & c' & -> & Hrx' & Hc'); [done | done | done | done | |].
  { by rewrite length_replicate. }
  exists c'. cbn. rewrite Henc. split; [| done].
  by destruct (ParseFrame (drop 2 record) (nextHandle w) 2).
Qed.

Lemma plainRecord_facts (f : Frame) :
  framed f → (Z.of_nat (2 + payloadLen f) ≤ 0xFFFF)%Z →
  length (plainRecord f) = 2 + payloadLen f
  ∧ GetUint16 (take 2 (plainRecord f)) = 2 + payloadLen f
  ∧ drop 2 (plainRecord f) = payload f.
Proof.
  intros Hf Hsize. unfold plainRecord. cbn [length take drop].
  rewrite length_payload by done. split_and!; [done | | done].
  apply GetUint16_bytes. lia.
Qed.

(** What [writeFrame] puts on the wire of an unencrypted link, [readFrame]
    on the other end takes off again: the parser is handed the payload of
    the frame that was written, whatever the sizes of the partial writes and
    reads, and the stream is left at the start of the next record. *)
Theorem writeFrame_readFrame_round_trip `{Collaborators} (f : Frame)
    (sender receiver : World) (rest : list byte) :
  encSession (link sender) = None → framed f →
  (Z.of_nat (2 + payloadLen f) ≤ 0xFFFF)%Z →
  writeSteady (conn (link sender)) →
  encSession (link receiver) = None →
  steady (conn (link receiver)) →
  rx (conn (link receiver))
  = drop (length (tx (conn (link sender))))
         (tx (conn (link (writeFrame f sender).2))) ++ rest →
  2 ≤ payloadLen f → 2 + payloadLen f ≤ frameSize (link receiver) →
  ∃ c', readFrame receiver
        = (match ParseFrame (payload f) (nextHandle receiver) 2 with
           | Ok g => Returns (Ok (SetRecvLink g (lid (link receiver))))
           | Err e => Returns (Err (Errorf "parse frame: %w" [] [e]))
           end, withConn c' (onNextHandle S receiver))
        ∧ rx c' = rest.
Proof.
  intros Henc Hf Hsize Hc Henc' Hc' Hrx Hmin Hfit.
  destruct (writeFrameBody_plain f sender Henc Hf Hsize Hc)
    as (c1 & Hbody & Htx & _ & _).
  unfold writeFrame in Hrx. rewrite Hbody in Hrx. cbn in Hrx.
  rewrite Htx, drop_app_length in Hrx.
  destruct (plainRecord_facts f Hf Hsize) as (Hlen & Hhead & Hpayload).
  destruct (readFrame_record receiver (plainRecord f) rest)
    as (c' & Hread & Hrx' & _); [done | done | done | lia | lia | lia |].
  exists c'. by rewrite Hread, Hpayload.
Qed.

Lemma writeFrame_readFrame_round_trip_witness :
  let C := exampleCollaborators 1 true in
  let f := plainFrame 7 4 in
  let receiver := wireWorld [x00; x06; x2a; x2a; x2a; x2a; x00; x09] in
  ∃ c', @readFrame C receiver
        = (match ParseFrame (payload f) (nextHandle receiver) 2 with
           | Ok g => Returns (Ok (SetRecvLink g (lid (link receiver))))
           | Err e => Returns (Err (Errorf "parse frame: %w" [] [e]))
           end, withConn c' (onNextHandle S receiver))
        ∧ rx c' = [x00; x09].
Proof.
  intros C f receiver.
  apply (@writeFrame_readFrame_round_trip C f freshWorld receiver [x00; x09]).
  - reflexivity.
  - unfold framed. cbn. lia.
  - cbn. lia.
  - split; [reflexivity |]. intros e He. cbn in He. by apply elem_of_nil in He.
  - reflexivity.
  - apply wireWorld_steady.
  - vm_compute. reflexivity.
  - cbn. lia.
  - vm_compute. lia.
Defined.

(** A frame with fewer than two bytes of payload is written without error,
    but the other end cannot read it: its record is at most three bytes
    long, which [readLengthAndData] refuses after the two length bytes, with
    an error that is not a network error and with the payload of the frame
    still on the stream, where the next read takes it for a length. *)
Theorem writeFrame_short_frame_unreadable `{Collaborators} (f : Frame)
    (sender receiver : World) (to rest : list byte) :
  encSession (link sender) = None → framed f →
  writeSteady (conn (link sender)) →
  steady (conn (link receiver)) →
  rx (conn (link receiver))
  = drop (length (tx (conn (link sender))))
         (tx (conn (link (writeFrame f sender).2))) ++ rest →
  payloadLen f ≤ 1 → 2 ≤ length to →
  (writeFrame f sender).1 = Returns None
  ∧ ∃ to' c',
      readLengthAndData to receiver
      = (Returns (Err (Errorf "invalid data length of %d" [2 + payloadLen f] [])),
         to', withConn c' receiver)
      ∧ rx c' = payload f ++ rest
      ∧ isNetworkReadError
          (Errorf "invalid data length of %d" [2 + payloadLen f] []) = false.
Proof.
  intros Henc Hf Hc Hc' Hrx Hshort Hto.
  assert (Hsize : (Z.of_nat (2 + payloadLen f) ≤ 0xFFFF)%Z) by lia.
  destruct (writeFrameBody_plain f sender Henc Hf Hsize Hc)
    as (c1 & Hbody & Htx & _ & _).
  unfold writeFrame in *. rewrite Hbody in *. cbn in Hrx. split; [done |].
  rewrite Htx, drop_app_length in Hrx.
  destruct (plainRecord_facts f Hf Hsize) as (Hlen & Hhead & Hpayload).
  unfold readLengthAndData.
  destruct (Nat.ltb_spec (length to) 2); [lia |].
  destruct (readLoop_steady (rx (conn (link receiver))) 2 2 0 to
              (conn (link receiver)))
    as (to1 & c1' & -> & Hc1 & Hrx1 & Hto1 & Hlen1);
    [done | lia | lia | | done | done | lia |].
  { rewrite Hrx, length_app. lia. }
  assert (Hhead' : take 2 to1 = take 2 (plainRecord f)).
  { rewrite Hto1, Hrx. apply take_app_le. lia. }
  rewrite Hhead', Hhead.
  destruct (Nat.leb_spec (2 + payloadLen f) 3); [| lia].
  exists to1, c1'. split_and!; [done | | done].
  rewrite Hrx1, Hrx. rewrite <- Hpayload.
  rewrite drop_app_le by lia. done.
Qed.

Lemma writeFrame_short_frame_unreadable_witness :
  let C := exampleCollaborators 1 true in
  let f := plainFrame 7 1 in
  let receiver := wireWorld [x00; x03; x2a; x00; x09] in
  (@writeFrame C f freshWorld).1 = Returns None
  ∧ ∃ to' c',
      readLengthAndData (replicate 8 x00) receiver
      = (Returns (Err (Errorf "invalid data length of %d" [2 + payloadLen f] [])),
         to', withConn c' receiver)
      ∧ rx c' = payload f ++ [x00; x09]
      ∧ isNetworkReadError
          (Errorf "invalid data length of %d" [2 + payloadLen f] []) = false.
Proof.
  intros C f receiver.
  apply (@writeFrame_short_frame_unreadable C f freshWorld receiver
           (replicate 8 x00) [x00; x09]).
  - reflexivity.
  - unfold framed. cbn. lia.
  - split; [reflexivity |]. intros e He. cbn in He. by apply elem_of_nil in He.
  - apply wireWorld_steady.
  - vm_compute. reflexivity.
  - cbn. lia.
  - cbn. lia.
Defined.

Lemma writeData_steady_witness :
  let w := worldOf (setConn {| rx := []; rxPlan := []; tx := [x01];
                               txPlan := [Accept 0; Accept 2];
                               connClosed := false;
                               remoteAddr := UnixAddr "peer" |} freshLink) in
  ∃ c', writeData [x61; x62; x63; x64; x65; x66] w = (Returns None, withConn c' w)
        ∧ tx c' = tx (conn (link w)) ++ [x61; x62; x63; x64; x65; x66]
        ∧ writeSteady c'
        ∧ sameReadSide (conn (link w)) c'.
Proof.
  intros w. apply (writeData_steady [x61; x62; x63; x64; x65; x66] w).
  split; [reflexivity |]. intros e He. cbn in He.
  repeat (apply elem_of_cons in He as [He | He]; [discriminate He |]).
  by apply elem_of_nil in He.
Defined.

(** ** Close *)

Lemma Close_closing (log : option string) (w : World) :
  closing (link (Close log w)) = true.
Proof.
  unfold Close. destruct (closing (link w)) eqn:Hclosing; [done |]. by destruct log.
Qed.

(** [Close] takes effect once: the first call marks the link as closing,
    runs its callback, leaves the registry and closes the connection; every
    later call, whatever its callback, changes nothing. *)
Theorem Close_first_call_wins (first later : option string) (w : World) :
  Close later (Close first w) = Close first w
  ∧ closing (link (Close first w)) = true
  ∧ (if closing (link w)
     then Close first w = w
     else connClosed (conn (link (Close first w))) = true
          ∧ logged (Close first w)
            = match first with
              | Some line => line :: logged w
              | None => logged w
              end
          ∧ (∀ k, links (peering (Close first w)) !! k ≠ Some (lid (link w)))
          ∧ (∀ k, linksByLabel (peering (Close first w)) !! k ≠ Some (lid (link w)))
          ∧ pool (Close first w) = pool w
          ∧ tx (conn (link (Close first w))) = tx (conn (link w))
          ∧ rx (conn (link (Close first w))) = rx (conn (link w))).
Proof.
  split_and!.
  - unfold Close at 1. by rewrite Close_closing.
  - apply Close_closing.
  - unfold Close. destruct (closing (link w)) eqn:Hclosing; [done |].
    destruct (RemoveLink_absent (link (match first with
                                       | Some line =>
                                           onLogged (cons line)
                                             (onLink (setClosing true) w)
                                       | None => onLink (setClosing true) w
                                       end)) (peering w))
      as (Hlinks & Hlabels & _).
    destruct first as [line |]; cbn in *; by split_and!.
Qed.

(** ** Switch labels and the registry *)

Lemma labelAcceptable_true (draw : SwitchLabel * bool) (w : World) :
  labelAcceptable draw w = true →
  draw.2 = true ∧ draw.1 ≠ 0%N ∧ GetLinkByLabel draw.1 (peering w) = None.
Proof.
  unfold labelAcceptable. intros Hok.
  apply andb_prop in Hok as [Hok Hfree]. apply andb_prop in Hok as [Hok Hnonzero].
  split_and!; [done | | by destruct (GetLinkByLabel draw.1 (peering w))].
  apply negb_true_iff, N.eqb_neq in Hnonzero. done.
Qed.

Lemma tryRandomLabels_result `{Collaborators} (n : nat) (short : bool) (w : World) :
  match tryRandomLabels n short w with
  | (Some label, w') =>
      label ≠ 0%N ∧ GetLinkByLabel label (peering w) = None
      ∧ ∃ k, 1 ≤ k ≤ n ∧ w' = afterDraws k w
  | (None, w') => w' = afterDraws n w
  end.
Proof.
  revert w. induction n as [| n IH]; intros w; cbn [tryRandomLabels].
  - by rewrite afterDraws_0.
  - destruct (labelAcceptable _ (onRngDraws S w)) eqn:Hok.
    + apply labelAcceptable_true in Hok as (_ & Hnonzero & Hfree).
      split_and!; [done | done |]. exists 1. split; [lia | done].
    + specialize (IH (onRngDraws S w)).
      destruct (tryRandomLabels n short (onRngDraws S w)) as [[label |] w'].
      * destruct IH as (Hnonzero & Hfree & k & Hk & ->).
        split_and!; [done | done |]. exists (S k). split; [lia |].
        apply afterDraws_eq; cbn; first [done | lia].
      * rewrite IH. apply afterDraws_eq; cbn; first [done | lia].
Qed.

(** A label that [assignSwitchLabel] assigns is not zero and not in use. *)
Lemma assignSwitchLabel_label `{Collaborators} (w w' : World) :
  assignSwitchLabel w = (None, w') →
  switchLabel (link w') ≠ 0%N
  ∧ GetLinkByLabel (switchLabel (link w')) (peering w) = None.
Proof.
  unfold assignSwitchLabel.
  destruct (labelAcceptable _ w) eqn:Hderived.
  { apply labelAcceptable_true in Hderived as (_ & Hnonzero & Hfree).
    intros [= <-]. by split. }
  destruct (RoutingAddressPrefix_Contains _).
  - pose proof (tryRandomLabels_result 100 true w) as Hshort.
    destruct (tryRandomLabels 100 true w) as [[label |] w1].
    + destruct Hshort as (Hnonzero & Hfree & _). intros [= <-]. by split.
    + subst w1.
      pose proof (tryRandomLabels_result 1000 false (afterDraws 100 w)) as Hlong.
      destruct (tryRandomLabels 1000 false (afterDraws 100 w)) as [[label |] w2];
        [| done].
      destruct Hlong as (Hnonzero & Hfree & _). intros [= <-]. by split.
  - pose proof (tryRandomLabels_result 1000 false w) as Hlong.
    destruct (tryRandomLabels 1000 false w) as [[label |] w2]; [| done].
    destruct Hlong as (Hnonzero & Hfree & _). intros [= <-]. by split.
Qed.

(** Whatever the generator draws, a label that [assignSwitchLabel] assigns
    is not zero and was not in use by a link of the registry; the call takes
    at most 1100 draws, and it fails only after all 1000 long draws (and the
    100 short ones, where they apply), leaving the link as it was. *)
Theorem assignSwitchLabel_fresh `{Collaborators} (w : World) :
  match assignSwitchLabel w with
  | (None, w') =>
      switchLabel (link w') ≠ 0%N
      ∧ GetLinkByLabel (switchLabel (link w')) (peering w) = None
      ∧ ∃ k, k ≤ 1100
             ∧ w' = onLink (setSwitchLabel (switchLabel (link w'))) (afterDraws k w)
  | (Some e, w') =>
      e = ErrorsNew "no suitable switch label found"
      ∧ ∃ k, (k = 1000 ∨ k = 1100) ∧ w' = afterDraws k w
  end.
Proof.
  unfold assignSwitchLabel.
  destruct (labelAcceptable _ w) eqn:Hderived.
  { apply labelAcceptable_true in Hderived as (_ & Hnonzero & Hfree).
    split_and!; [done | done |]. exists 0. split; [lia |]. by rewrite afterDraws_0. }
  assert (Hshort :
    match (if RoutingAddressPrefix_Contains (peer (link w))
           then tryRandomLabels 100 true w else (None, w)) with
    | (Some label, w') =>
        label ≠ 0%N ∧ GetLinkByLabel label (peering w) = None
        ∧ ∃ k, 1 ≤ k ≤ 100 ∧ w' = afterDraws k w
    | (None, w') => w' = afterDraws 0 w ∨ w' = afterDraws 100 w
    end).
  { destruct (RoutingAddressPrefix_Contains _).
    - pose proof (tryRandomLabels_result 100 true w) as Hdraws.
      destruct (tryRandomLabels 100 true w) as [[label |] w']; [done | by right].
    - left. by rewrite afterDraws_0. }
  destruct (if RoutingAddressPrefix_Contains (peer (link w))
            then tryRandomLabels 100 true w else (None, w)) as [[label |] w1].
  { destruct Hshort as (Hnonzero & Hfree & k & Hk & ->).
    split_and!; [done | done |]. exists k. split; [lia | done]. }
  pose proof (tryRandomLabels_result 1000 false w1) as Hlong.
  destruct (tryRandomLabels 1000 false w1) as [[label |] w2].
  - destruct Hlong as (Hnonzero & Hfree & k & Hk & ->).
    destruct Hshort as [-> | ->]; (split_and!; [done | done |]).
    + exists k. split; [lia |]. by rewrite afterDraws_0.
    + exists (100 + k). split; [lia |]. cbn [link onLink]. f_equal.
      apply afterDraws_eq; cbn; first [done | lia].
  - subst w2. split; [done |].
    destruct Hshort as [-> | ->].
    + exists 1000. split; [by left |]. by rewrite afterDraws_0.
    + exists 1100. split; [by right |]. apply afterDraws_eq; cbn; first [done | lia].
Qed.

(** When [handleSetup] returns the link, the link is in both mappings of
    the registry, under its peer and under a label that is not zero; peer
    and label were free before; the two workers have been handed to the
    manager; and the link is not closed by the setup. *)
Theorem handleSetup_success `{Collaborators} (w w' : World) :
  handleSetup w = (Returns None, w') →
  links (peering w') !! peer (link w') = Some (lid (link w))
  ∧ linksByLabel (peering w') !! switchLabel (link w') = Some (lid (link w))
  ∧ switchLabel (link w') ≠ 0%N
  ∧ links (peering w) !! peer (link w') = None
  ∧ linksByLabel (peering w) !! switchLabel (link w') = None
  ∧ started (peering w')
    = ("link writer", lid (link w)) :: ("link reader", lid (link w))
        :: started (peering w)
  ∧ closing (link w') = closing (link w).
Proof.
  unfold handleSetup.
  destruct (handleSetupMessages_untouched (outgoing (link w)) w) as [Hmsgs _].
  destruct (handleSetupMessages (outgoing (link w)) w) as [[msgs | why |] w1];
    [| done | done].
  cbn in Hmsgs. destruct Hmsgs as (Hreg1 & Hclosing1 & Hlid1).
  destruct msgs as [peeringState | err]; [| done].
  destruct (state_finalize peeringState) as [session [err |]]; [done |].
  set (w1' := onLink (setPeer _) _).
  pose proof (assignSwitchLabel_untouched w1') as (Hreg2 & Hclosing2 & Hlid2).
  destruct (assignSwitchLabel w1') as [[err |] w2] eqn:Hlabel; [done |].
  cbn in Hreg2, Hclosing2, Hlid2.
  apply assignSwitchLabel_label in Hlabel as (Hnonzero & Hfree).
  unfold GetLinkByLabel in Hfree.
  unfold AddLink.
  destruct (links (peering w2) !! peer (link w2)) eqn:Hpeer; [done |].
  destruct (linksByLabel (peering w2) !! switchLabel (link w2)) eqn:Hlab; [done |].
  intros [= <-]. cbn.
  rewrite !lookup_insert_eq. rewrite Hreg2 in Hpeer, Hlab. cbn in Hpeer, Hlab.
  rewrite Hreg1 in Hpeer, Hlab.
  split_and!; [congruence | congruence | done | done | done | | congruence].
  rewrite Hreg2. cbn. rewrite Hreg1. do 2 f_equal; congruence.
Qed.


Lemma handleSetup_success_witness :
  let C := exampleCollaborators 1 true in
  let w' := (@handleSetup C setupWorld).2 in
  links (peering w') !! peer (link w') = Some (lid (link setupWorld))
  ∧ linksByLabel (peering w') !! switchLabel (link w') = Some (lid (link setupWorld))
  ∧ switchLabel (link w') ≠ 0%N
  ∧ links (peering setupWorld) !! peer (link w') = None
  ∧ linksByLabel (peering setupWorld) !! switchLabel (link w') = None
  ∧ started (peering w')
    = ("link writer", lid (link setupWorld)) :: ("link reader", lid (link setupWorld))
        :: started (peering setupWorld)
  ∧ closing (link w') = closing (link setupWorld).
Proof.
  intros C w'. apply (@handleSetup_success C setupWorld w').
  vm_compute. reflexivity.
Defined.

(** ** What [readLengthAndData] and [readFrame] return on any connection *)




(** [readFrame] and the pool: every call takes a buffer; the buffer goes
    back to the pool exactly when [readLengthAndData] failed; when unsealing
    or parsing fails the buffer is not returned; a frame that is read names
    the link as its receiving link.  [readFrame] panics only on a link whose
    frame size is below two. *)
Theorem readFrame_pool_accounting `{Collaborators} (w : World) :
  nextHandle (readFrame w).2 = S (nextHandle w)
  ∧ match (readFrame w).1 with
    | Returns (Ok f) =>
        pool (readFrame w).2 = pool w ∧ recvLink f = Some (lid (link w))
    | Returns (Err (Errorf format _ [cause])) =>
        if String.eqb format "read frame: %w"
        then pool (readFrame w).2 = nextHandle w :: pool w
             ∧ (isNetworkReadError cause = true
                ∨ cause = ErrorsNew "frame too big for slice"
                ∨ ∃ n, n ≤ 3 ∧ cause = Errorf "invalid data length of %d" [n] [])
        else pool (readFrame w).2 = pool w
    | Returns (Err _) => False
    | Panics _ => frameSize (link w) < 2 ∧ pool (readFrame w).2 = pool w
    | OutOfFuel => False
    end.
Proof.
  split; [apply readFrame_untouched |].
  unfold readFrame, GetPooledSlice.
  pose proof (readLengthAndData_ends (replicate (frameSize (link w)) x00)
                (onNextHandle S w)) as Hends.
  destruct (readLengthAndData_conn (replicate (frameSize (link w)) x00)
              (onNextHandle S w)) as [c Hc].
  destruct (readLengthAndData _ _) as [[r to'] w1]. cbn in Hc, Hends. subst w1.
  destruct r as [[data | e] | why |]; cbn.
  - destruct (encSession (link w)) as [session |].
    + destruct (Unseal session data) as [lf [e |]]; [done |].
      by destruct (ParseFrame (LinkData lf) (nextHandle w) FrameOffset).
    + by destruct (ParseFrame (drop 2 data) (nextHandle w) 2).
  - done.
  - by rewrite length_replicate in Hends.
  - done.
Qed.

(** ** The reader worker *)

Lemma readFrame_logged `{Collaborators} (w : World) :
  logged (readFrame w).2 = logged w.
Proof.
  unfold readFrame, GetPooledSlice.
  destruct (readLengthAndData_conn (replicate (frameSize (link w)) x00)
              (onNextHandle S w)) as [c Hc].
  destruct (readLengthAndData _ _) as [[r to'] w1]. cbn in Hc. subst w1.
  repeat case_match; by simplify_eq.
Qed.

Lemma Close_open (line : string) (w : World) :
  closing (link w) = false →
  closing (link (Close (Some line) w)) = true
  ∧ connClosed (conn (link (Close (Some line) w))) = true
  ∧ logged (Close (Some line) w) = line :: logged w
  ∧ pool (Close (Some line) w) = pool w
  ∧ nextHandle (Close (Some line) w) = nextHandle w
  ∧ tx (conn (link (Close (Some line) w))) = tx (conn (link w)).
Proof. intros Hopen. unfold Close. rewrite Hopen. by split_and!. Qed.

Lemma Close_again (log : option string) (w : World) :
  closing (link w) = true → Close log w = w.
Proof. unfold Close. by intros ->. Qed.

(** The next [n] reads of the link each fail with an error that is not a
    network read error. *)
Fixpoint badReads `{Collaborators} (n : nat) (w : World) : bool :=
  match n with
  | 0 => true
  | S n' =>
      match readFrame w with
      | (Returns (Err e), w') => negb (isNetworkReadError e) && badReads n' w'
      | _ => false
      end
  end.

Lemma reader_bad_reads `{Collaborators} (hs : list Handoff) (r : ReaderState) :
  readerReturned r = false →
  closing (link (readerWorld r)) = false →
  badReads (length hs) (readerWorld r) = true →
  readerErrors r < 100 →
  readerErrors r + length hs ≤ 100 →
  delivered (readerRun hs r) = delivered r
  ∧ nextHandle (readerWorld (readerRun hs r))
    = nextHandle (readerWorld r) + length hs
  ∧ readerErrors (readerRun hs r) = readerErrors r + length hs
  ∧ if readerErrors r + length hs <? 100
    then readerReturned (readerRun hs r) = false
         ∧ closing (link (readerWorld (readerRun hs r))) = false
         ∧ logged (readerWorld (readerRun hs r)) = logged (readerWorld r)
    else readerReturned (readerRun hs r) = true
         ∧ closing (link (readerWorld (readerRun hs r))) = true
         ∧ connClosed (conn (link (readerWorld (readerRun hs r)))) = true
         ∧ logged (readerWorld (readerRun hs r))
           = "closing link after 100 consecutive read errors"
               :: logged (readerWorld r).
Proof.
  revert r. induction hs as [| h hs IH]; intros r Hrunning Hopen Hbad Hlt Hle.
  - unfold readerRun. cbn [length foldl]. rewrite !Nat.add_0_r.
    destruct (Nat.ltb_spec (readerErrors r) 100); [| lia]. by split_and!.
  - cbn [length badReads] in *.
    pose proof (readFrame_untouched (readerWorld r)) as [(_ & Hclosing & _) Hnext].
    pose proof (readFrame_logged (readerWorld r)) as Hlogged.
    destruct (readFrame (readerWorld r)) as [[[f | e] | why |] w'] eqn:Hread;
      [done | | done | done].
    apply andb_prop in Hbad as [Hkind Hbad]. apply negb_true_iff in Hkind.
    cbn [snd] in Hclosing, Hnext, Hlogged.
    unfold readerRun. cbn [foldl]. fold (readerRun hs (readerStep h r)).
    assert (Hstep : readerStep h r
      = if 100 <=? S (readerErrors r)
        then {| readerWorld :=
                  Close (Some "closing link (by reader)")
                    (Close (Some "closing link after 100 consecutive read errors") w');
                readerErrors := S (readerErrors r); delivered := delivered r;
                readerReturned := true |}
        else {| readerWorld := w'; readerErrors := S (readerErrors r);
                delivered := delivered r; readerReturned := false |}).
    { unfold readerStep. by rewrite Hrunning, Hread, Hkind. }
    rewrite Hstep. clear Hstep.
    destruct (Nat.leb_spec 100 (S (readerErrors r))) as [Hlast | Hmore].
    + assert (hs = []) as -> by (destruct hs; [done | cbn in Hle; lia]).
      cbn [length readerRun foldl readerWorld readerErrors delivered readerReturned].
      destruct (Nat.ltb_spec (readerErrors r + 1) 100); [lia |].
      destruct (Close_open "closing link after 100 consecutive read errors" w')
        as (Hc1 & Hc2 & Hc3 & _ & Hc5 & _); [congruence |].
      rewrite Close_again by done.
      split_and!; [done | lia | lia | done | done | done | congruence].
    + destruct (IH {| readerWorld := w'; readerErrors := S (readerErrors r);
                      delivered := delivered r; readerReturned := false |})
        as (Hd & Hn & He & Hrest); cbn [readerWorld readerErrors delivered readerReturned];
        [done | congruence | done | lia | lia |].
      cbn [readerWorld readerErrors delivered readerReturned] in *.
      replace (readerErrors r + S (length hs)) with (S (readerErrors r) + length hs)
        by lia.
      split_and!; [done | lia | done |].
      destruct (S (readerErrors r) + length hs <? 100).
      * destruct Hrest as (? & ? & ?). split_and!; congruence.
      * destruct Hrest as (? & ? & ? & ?). split_and!; congruence.
Qed.

(** The reader gives up after 100 reads in a row that fail without a
    network error, and not before: up to 99 such reads leave the link open
    and the reader running, with nothing logged by a [Close]; the hundredth
    closes the link with the line for it, and the deferred [Close] of the
    reader then has nothing left to do.  No frame goes upstream meanwhile,
    and every read has taken a buffer from the pool. *)
Theorem reader_closes_after_100_errors `{Collaborators} (hs : list Handoff)
    (w : World) :
  closing (link w) = false →
  badReads (length hs) w = true →
  length hs ≤ 100 →
  delivered (readerRun hs (startReader w)) = []
  ∧ nextHandle (readerWorld (readerRun hs (startReader w)))
    = nextHandle w + length hs
  ∧ readerErrors (readerRun hs (startReader w)) = length hs
  ∧ if length hs <? 100
    then readerReturned (readerRun hs (startReader w)) = false
         ∧ closing (link (readerWorld (readerRun hs (startReader w)))) = false
         ∧ logged (readerWorld (readerRun hs (startReader w))) = logged w
    else readerReturned (readerRun hs (startReader w)) = true
         ∧ closing (link (readerWorld (readerRun hs (startReader w)))) = true
         ∧ connClosed (conn (link (readerWorld (readerRun hs (startReader w))))) = true
         ∧ logged (readerWorld (readerRun hs (startReader w)))
           = "closing link after 100 consecutive read errors" :: logged w.
Proof.
  intros Hopen Hbad Hle.
  apply (reader_bad_reads hs (startReader w)); cbn; first [done | lia].
Qed.

Lemma reader_closes_after_100_errors_witness :
  let C := exampleCollaborators 1 true in
  let hs := replicate 100 UpstreamTakes in
  let w := wireWorld (replicate 200 x00) in
  delivered (@readerRun C hs (startReader w)) = []
  ∧ nextHandle (readerWorld (@readerRun C hs (startReader w)))
    = nextHandle w + length hs
  ∧ readerErrors (@readerRun C hs (startReader w)) = length hs
  ∧ if length hs <? 100
    then readerReturned (@readerRun C hs (startReader w)) = false
         ∧ closing (link (readerWorld (@readerRun C hs (startReader w)))) = false
         ∧ logged (readerWorld (@readerRun C hs (startReader w))) = logged w
    else readerReturned (@readerRun C hs (startReader w)) = true
         ∧ closing (link (readerWorld (@readerRun C hs (startReader w)))) = true
         ∧ connClosed (conn (link (readerWorld (@readerRun C hs (startReader w)))))
           = true
         ∧ logged (readerWorld (@readerRun C hs (startReader w)))
           = "closing link after 100 consecutive read errors" :: logged w.
Proof.
  intros C hs w. apply (@reader_closes_after_100_errors C hs w).
  - reflexivity.
  - vm_compute. reflexivity.
  - unfold hs. rewrite length_replicate. lia.
Defined.


(** *** The remote end closes *)

Lemma connRead_end (k : nat) (c : Conn) :
  steady c → rx c = [] →
  ∃ c', connRead k c = (Err io_EOF, c') ∧ rx c' = [] ∧ steady c'.
Proof.
  intros [Hopen Hplan] Hrx. unfold connRead, deliver. rewrite Hopen, Hrx.
  destruct (rxPlan c) as [| [n | e] plan] eqn:Hp.
  - eexists. do 3 (split; [done |]). cbn. intros e. apply not_elem_of_nil.
  - eexists. do 3 (split; [done |]). cbn. intros e He.
    apply (Hplan e). rewrite ?Hp. by right.
  - exfalso. apply (Hplan e). rewrite ?Hp. by left.
Qed.

(** A read loop on a stream that ends before the bound is reached takes
    what is there and then fails with the end of the stream. *)
Lemma readLoop_truncated (fuel upto read : nat) (to : list byte) (c : Conn) :
  steady c → read < upto → length (rx c) < upto - read → upto - read ≤ fuel →
  ∃ to' c', readLoop fuel upto read to c
            = LoopError (Errorf "%w: %w" [] [ErrNetworkReadError; io_EOF]) to' c'
            ∧ rx c' = [].
Proof.
  revert read to c.
  induction fuel as [| fuel IH]; intros read to c Hc Hread Hshort Hfuel; [lia |].
  cbn [readLoop]. destruct (Nat.leb_spec upto read); [lia |].
  destruct (decide (rx c = [])) as [Hend | Hmore].
  - destruct (connRead_end (upto - read) c Hc Hend) as (c' & -> & Hrx' & _).
    by eexists _, _.
  - destruct (connRead_steady (upto - read) c Hc Hmore)
      as (m & c' & -> & Hm & Hc' & Hrx'); [lia |].
    assert (1 ≤ length (rx c)) by (destruct (rx c); [done | cbn; lia]).
    apply IH; [done | | | ]; rewrite ?Hrx', ?length_take, ?length_drop; lia.
Qed.

(** The stream ends inside a record: before its two length bytes are
    there, or before the announced number of bytes of a record that fits a
    buffer of [size] bytes. *)
Definition endsInsideRecord (size : nat) (stream : list byte) : Prop :=
  length stream < 2
  ∨ (3 < GetUint16 (take 2 stream) ∧ GetUint16 (take 2 stream) ≤ size
     ∧ length stream < GetUint16 (take 2 stream)).

Lemma readLengthAndData_truncated (to : list byte) (w : World) :
  steady (conn (link w)) → 2 ≤ length to →
  endsInsideRecord (length to) (rx (conn (link w))) →
  ∃ to' c', readLengthAndData to w
            = (Returns (Err (Errorf "%w: %w" [] [ErrNetworkReadError; io_EOF])),
               to', withConn c' w)
            ∧ rx c' = [].
Proof.
  intros Hc Hto Hends. unfold readLengthAndData.
  destruct (Nat.ltb_spec (length to) 2); [lia |].
  destruct (decide (length (rx (conn (link w))) < 2)) as [Hhead | Hhead].
  { destruct (readLoop_truncated 2 2 0 to (conn (link w)))
      as (to' & c' & -> & Hrx'); [done | lia | lia | lia |].
    by eexists _, _. }
  destruct Hends as [| (Hvalid & Hfits & Hshort)]; [lia |].
  destruct (readLoop_steady (rx (conn (link w))) 2 2 0 to (conn (link w)))
    as (to1 & c1 & -> & Hc1 & Hrx1 & Hto1 & Hlen1);
    [done | lia | lia | lia | done | done | lia |].
  rewrite Hto1.
  destruct (Nat.leb_spec (GetUint16 (take 2 (rx (conn (link w))))) 3); [lia |].
  destruct (Nat.ltb_spec (length to1) (GetUint16 (take 2 (rx (conn (link w))))));
    [lia |].
  destruct (readLoop_truncated (GetUint16 (take 2 (rx (conn (link w)))) - 2)
              (GetUint16 (take 2 (rx (conn (link w))))) 2 to1 c1)
    as (to' & c' & -> & Hrx'); [done | lia | | lia |].
  { rewrite Hrx1, length_drop. lia. }
  by eexists _, _.
Qed.

(** When the stream of the remote end stops -- between two records or
    inside one -- the next read of the reader ends it: the link is closed
    with the line for a close by the remote end and nothing else is logged,
    the buffer of the read is back in the pool, and the reader returns. *)
Theorem reader_remote_close `{Collaborators} (h : Handoff) (w : World) :
  closing (link w) = false →
  steady (conn (link w)) →
  2 ≤ frameSize (link w) →
  endsInsideRecord (frameSize (link w)) (rx (conn (link w))) →
  readerReturned (readerStep h (startReader w)) = true
  ∧ delivered (readerStep h (startReader w)) = []
  ∧ logged (readerWorld (readerStep h (startReader w)))
    = "closing link (by remote)" :: logged w
  ∧ closing (link (readerWorld (readerStep h (startReader w)))) = true
  ∧ connClosed (conn (link (readerWorld (readerStep h (startReader w))))) = true
  ∧ pool (readerWorld (readerStep h (startReader w))) = nextHandle w :: pool w.
Proof.
  intros Hopen Hc Hsize Hends.
  destruct (readLengthAndData_truncated (replicate (frameSize (link w)) x00)
              (onNextHandle S w))
    as (to' & c' & Hread & Hrx'); [done | by rewrite length_replicate | |].
  { by rewrite length_replicate. }
  assert (Hstep : readerStep h (startReader w)
    = {| readerWorld :=
           Close (Some "closing link (by reader)")
             (Close (Some "closing link (by remote)")
                (ReturnPooledSlice (nextHandle w)
                   (withConn c' (onNextHandle S w))));
         readerErrors := 0; delivered := []; readerReturned := true |}).
  { unfold readerStep, startReader, readFrame, GetPooledSlice.
    cbn [readerReturned readerWorld readerErrors delivered].
    by rewrite Hread. }
  rewrite Hstep. cbn [readerReturned readerWorld readerErrors delivered].
  destruct (Close_open "closing link (by remote)"
              (ReturnPooledSlice (nextHandle w) (withConn c' (onNextHandle S w))))
    as (Hc1 & Hc2 & Hc3 & Hc4 & _); [done |].
  rewrite Close_again by done. by split_and!.
Qed.

Lemma reader_remote_close_witness :
  let C := exampleCollaborators 1 true in
  let w := wireWorld [x00; x08; x61; x62; x63] in
  readerReturned (@readerStep C UpstreamTakes (startReader w)) = true
  ∧ delivered (@readerStep C UpstreamTakes (startReader w)) = []
  ∧ logged (readerWorld (@readerStep C UpstreamTakes (startReader w)))
    = "closing link (by remote)" :: logged w
  ∧ closing (link (readerWorld (@readerStep C UpstreamTakes (startReader w)))) = true
  ∧ connClosed (conn (link (readerWorld (@readerStep C UpstreamTakes (startReader w)))))
    = true
  ∧ pool (readerWorld (@readerStep C UpstreamTakes (startReader w)))
    = nextHandle w :: pool w.
Proof.
  intros C w. apply (@reader_remote_close C UpstreamTakes w).
  - reflexivity.
  - apply wireWorld_steady.
  - vm_compute. lia.
  - right. vm_compute. lia.
Defined.

(** ** The writer worker *)

Section Writer.
Context `{Collaborators}.

Lemma writeFrame_pool (f : Frame) (w : World) :
  pool (writeFrame f w).2 = poolHandle f :: pool w.
Proof.
  unfold writeFrame.
  destruct (writeFrameBody_returns f w) as (err & w' & -> & Hpool).
  cbn. by rewrite Hpool.
Qed.

Lemma Close_pool (log : option string) (w : World) : pool (Close log w) = pool w.
Proof. unfold Close. by destruct (closing (link w)), log. Qed.

Lemma writerAfterSelect_pool (q : Queue) (f : Frame) (s : System) :
  pool (world (writerAfterSelect q f s)) = poolHandle f :: pool (world s).
Proof.
  unfold writerAfterSelect. pose proof (writeFrame_pool f (world s)) as Hpool.
  destruct (writeFrame f (world s)) as [[[err |] | why |] w']; cbn [snd] in Hpool;
    repeat case_match; cbn [world]; by rewrite ?Close_pool.
Qed.

Lemma writerAfterSelect_queues (q : Queue) (f : Frame) (s : System) :
  sendQueuePrio (link (world (writerAfterSelect q f s)))
  = sendQueuePrio (link (world s))
  ∧ sendQueueRegl (link (world (writerAfterSelect q f s)))
    = sendQueueRegl (link (world s)).
Proof.
  unfold writerAfterSelect.
  destruct (writeFrame_queues f (world s)) as [Hprio Hregl].
  destruct (writeFrame f (world s)) as [[[err |] | why |] w'];
    cbn [snd] in Hprio, Hregl; repeat case_match; cbn [world];
    repeat match goal with
           | |- context [Close ?log ?w] =>
               destruct (Close_queues log w) as [-> ->]
           end; by split.
Qed.

(** One action changes the pool exactly by the frame the writer took. *)
Lemma act_pool (a : Action) (s : System) :
  (selected (act a s) = selected s ∧ pool (world (act a s)) = pool (world s))
  ∨ ∃ q f, selected (act a s) = selected s ++ [(q, f)]
           ∧ pool (world (act a s)) = poolHandle f :: pool (world s).
Proof.
  assert (Htaken : ∀ q f s', selected s' = selected s →
            pool (world s') = pool (world s) →
            ∃ q' f', selected (writerAfterSelect q f s') = selected s ++ [(q', f')]
                     ∧ pool (world (writerAfterSelect q f s'))
                       = poolHandle f' :: pool (world s)).
  { intros q f s' Hsel Hpool. exists q, f.
    destruct (writerAfterSelect_facts q f s') as (-> & _).
    rewrite writerAfterSelect_pool. by rewrite Hsel, Hpool. }
  destruct a as [pick done | f | f |]; cbn [act].
  - unfold writerStep. destruct (writerPC s); [| | by left].
    + unfold takePrio. destruct (chanPoll _) as [[f q] |]; [| by left].
      right. by apply Htaken.
    + destruct (chooseCase _ _) as [[| |] |]; [| | | by left].
      * unfold takePrio. destruct (chanPoll _) as [[f q] |]; [| by left].
        right. by apply Htaken.
      * unfold takeRegl. destruct (chanPoll _) as [[f q] |]; [| by left].
        right. by apply Htaken.
      * left. cbn. by rewrite Close_pool.
  - left. unfold onWorld, Send. cbn [world selected].
    by destruct (chanOffer f (sendQueueRegl (link (world s)))).
  - left. unfold onWorld, SendPriority. cbn [world selected].
    by destruct (chanOffer f (sendQueuePrio (link (world s)))).
  - left. cbn. by rewrite Close_pool.
Qed.

(** Whatever the senders, the closers and the runtime do, and however the
    writes end, the frames the writer has taken off the queues are the
    frames that went back to the pool, each once and in the order taken. *)
Theorem writer_returns_every_frame (schedule : list Action) (s : System) :
  ∃ new, selected (run schedule s) = selected s ++ new
         ∧ pool (world (run schedule s))
           = rev (map (λ e, poolHandle e.2) new) ++ pool (world s).
Proof.
  revert s. induction schedule as [| a schedule IH]; intros s.
  - exists []. by rewrite app_nil_r.
  - unfold run. cbn [foldl]. fold (run schedule (act a s)).
    destruct (IH (act a s)) as (new & Hsel & Hpool).
    destruct (act_pool a s) as [[Hs Hp] | (q & f & Hs & Hp)];
      rewrite Hs in Hsel; rewrite Hp in Hpool.
    + by exists new.
    + exists ((q, f) :: new). rewrite Hsel, Hpool. cbn [map rev snd].
      by rewrite <- !app_assoc.
Qed.

(** An action that is not a send. *)
Definition noSender (a : Action) : bool :=
  match a with
  | ActSend _ | ActSendPriority _ => false
  | ActWriter _ _ | ActClose => true
  end.

(** The frames waiting in the queues, in the order a writer left alone
    takes them. *)
Definition pending (s : System) : list (Queue * Frame) :=
  map (pair PrioQ) (prioBuf s) ++ map (pair ReglQ) (reglBuf s).

Lemma act_drains (a : Action) (s : System) :
  noSender a = true →
  (writerPC s = AtSelectAny → prioBuf s = []) →
  selected (act a s) ++ pending (act a s) = selected s ++ pending s
  ∧ (writerPC (act a s) = AtSelectAny → prioBuf (act a s) = []).
Proof.
  intros Hquiet Hinner.
  assert (Hclosed : ∀ log pc,
            selected (setWriterPC pc (onWorld (Close log) s))
            ++ pending (setWriterPC pc (onWorld (Close log) s))
            = selected s ++ pending s
            ∧ prioBuf (setWriterPC pc (onWorld (Close log) s)) = prioBuf s).
  { intros log pc. unfold pending, prioBuf, reglBuf. cbn.
    by destruct (Close_queues log (world s)) as [-> ->]. }
  destruct a as [pick fires | f | f |]; cbn [act]; [| done | done |].
  2: { destruct (Hclosed None (writerPC s)) as [Hsame Hprio].
       split; [exact Hsame |]. intros Hpc. rewrite <- Hinner by exact Hpc.
       exact Hprio. }
  destruct (writerPC s) eqn:Hpc.
  - destruct (prioBuf s) as [| p rest] eqn:Hprio.
    + unfold writerStep, takePrio, chanPoll. rewrite Hpc.
      unfold prioBuf in Hprio. rewrite Hprio. split; [done |].
      intros _. by unfold prioBuf.
    + destruct (writerStep_prefers_priority pick fires s p rest Hpc Hprio)
        as (Hsel & Hp & Hr & Hpc').
      split; [| done]. unfold pending. rewrite Hsel, Hp, Hr, Hprio. cbn [map].
      by rewrite <- !app_assoc.
  - specialize (Hinner eq_refl).
    unfold writerStep. rewrite Hpc.
    destruct (chooseCase _ _) as [[| |] |]; [| | | done].
    + unfold takePrio, chanPoll. unfold prioBuf in Hinner. by rewrite Hinner.
    + unfold takeRegl, chanPoll.
      destruct (chanBuf (sendQueueRegl (link (world s)))) as [| f rest] eqn:Hregl;
        [done |].
      match goal with
      | |- context [writerAfterSelect ReglQ f ?s'] =>
          destruct (writerAfterSelect_facts ReglQ f s') as (Hsel & Hpc' & Hp & Hr)
      end.
      split; [| done]. unfold pending. rewrite Hsel, Hp, Hr.
      unfold prioBuf, reglBuf in *. cbn. rewrite Hinner, Hregl. cbn.
      by rewrite <- !app_assoc.
    + destruct (Hclosed (Some "closing link (by writer)") WriterReturned)
        as [Hsame Hprio].
      split; [exact Hsame | done].
  - unfold writerStep. rewrite Hpc. split; [done | congruence].
Qed.

(** While nobody sends, the writer takes the waiting frames in one fixed
    order, whatever the runtime picks and however the writes end: first the
    priority frames, oldest first, then the regular frames, oldest first.
    (What it has taken so far, followed by what still waits, never
    changes.) *)
Theorem writer_drains_in_order (schedule : list Action) (s : System) :
  forallb noSender schedule = true →
  (writerPC s = AtSelectAny → prioBuf s = []) →
  selected (run schedule s) ++ pending (run schedule s) = selected s ++ pending s.
Proof.
  revert s. induction schedule as [| a schedule IH]; intros s Hquiet Hinner; [done |].
  cbn [forallb] in Hquiet. apply andb_prop in Hquiet as [Ha Hquiet].
  unfold run. cbn [foldl]. fold (run schedule (act a s)).
  destruct (act_drains a s Ha Hinner) as [Hstep Hinner'].
  rewrite IH by done. exact Hstep.
Qed.

Lemma chanOffer_bound (f : Frame) (ch : Chan) :
  chanCap (chanOffer f ch).2 = chanCap ch
  ∧ (chanLen ch ≤ chanCap ch → chanLen (chanOffer f ch).2 ≤ chanCap ch).
Proof.
  unfold chanOffer, chanLen.
  destruct (Nat.ltb_spec (length (chanBuf ch)) (chanCap ch)); cbn; [| done].
  split; [done |]. rewrite length_app. cbn. lia.
Qed.

Lemma chanPoll_bound (ch ch' : Chan) (f : Frame) :
  chanPoll ch = Some (f, ch') →
  chanCap ch' = chanCap ch ∧ chanLen ch' ≤ chanLen ch.
Proof.
  unfold chanPoll, chanLen. destruct (chanBuf ch) as [| g rest]; [done |].
  intros [= _ <-]. cbn. split; [done | lia].
Qed.

(** The capacities of the two queues never change, and a queue that is
    within its capacity stays within it. *)
Definition queuesWithin (capPrio capRegl : nat) (s : System) : Prop :=
  chanCap (sendQueuePrio (link (world s))) = capPrio
  ∧ chanCap (sendQueueRegl (link (world s))) = capRegl
  ∧ chanLen (sendQueuePrio (link (world s))) ≤ capPrio
  ∧ chanLen (sendQueueRegl (link (world s))) ≤ capRegl.

Lemma act_queuesWithin (capPrio capRegl : nat) (a : Action) (s : System) :
  queuesWithin capPrio capRegl s → queuesWithin capPrio capRegl (act a s).
Proof.
  intros (Hcp & Hcr & Hlp & Hlr).
  assert (Hprio : ∀ f q s', chanPoll (sendQueuePrio (link (world s))) = Some (f, q) →
            world s' = onLink (setSendQueuePrio q) (world s) →
            queuesWithin capPrio capRegl (writerAfterSelect PrioQ f s')).
  { intros f q s' Hpoll Hw. apply chanPoll_bound in Hpoll as [Hc Hl].
    unfold queuesWithin.
    destruct (writerAfterSelect_queues PrioQ f s') as [-> ->]. rewrite Hw. cbn.
    split_and!; first [done | lia]. }
  assert (Hregl : ∀ f q s', chanPoll (sendQueueRegl (link (world s))) = Some (f, q) →
            world s' = onLink (setSendQueueRegl q) (world s) →
            queuesWithin capPrio capRegl (writerAfterSelect ReglQ f s')).
  { intros f q s' Hpoll Hw. apply chanPoll_bound in Hpoll as [Hc Hl].
    unfold queuesWithin.
    destruct (writerAfterSelect_queues ReglQ f s') as [-> ->]. rewrite Hw. cbn.
    split_and!; first [done | lia]. }
  assert (Hclose : ∀ log pc,
            queuesWithin capPrio capRegl (setWriterPC pc (onWorld (Close log) s))).
  { intros log pc. unfold queuesWithin. cbn.
    by destruct (Close_queues log (world s)) as [-> ->]. }
  destruct a as [pick fires | f | f |]; cbn [act].
  - unfold writerStep. destruct (writerPC s) eqn:Hpc; [| | done].
    + unfold takePrio.
      destruct (chanPoll (sendQueuePrio (link (world s)))) as [[f q] |] eqn:Hpoll;
        [by eapply Hprio | done].
    + destruct (chooseCase _ _) as [[| |] |]; [| | apply Hclose | done].
      * unfold takePrio.
        destruct (chanPoll (sendQueuePrio (link (world s)))) as [[f q] |] eqn:Hpoll;
          [by eapply Hprio | done].
      * unfold takeRegl.
        destruct (chanPoll (sendQueueRegl (link (world s)))) as [[f q] |] eqn:Hpoll;
          [by eapply Hregl | done].
  - unfold queuesWithin, Send. cbn.
    destruct (chanOffer_bound f (sendQueueRegl (link (world s)))) as [Hc Hl].
    destruct (chanOffer f (sendQueueRegl (link (world s)))) as [ok q].
    cbn in *. split_and!; first [done | lia].
  - unfold queuesWithin, SendPriority. cbn.
    destruct (chanOffer_bound f (sendQueuePrio (link (world s)))) as [Hc Hl].
    destruct (chanOffer f (sendQueuePrio (link (world s)))) as [ok q].
    cbn in *. split_and!; first [done | lia].
  - pose proof (Hclose None (writerPC s)) as Hc. exact Hc.
Qed.

(** On a link made by [newLinkBase], whatever is sent, written and closed,
    the priority queue never holds more than 100 frames and the regular
    queue never more than 1000, the capacity of the regular queue stays
    1000, and so [FlowControlIndicator] always returns a flag: its division
    cannot panic. *)
Theorem FlowControlIndicator_never_panics (schedule : list Action) (w : World)
    (id : nat) (c : Conn) (url : string) (out : bool) :
  link w = newLinkBase id c url out →
  chanLen (sendQueuePrio (link (world (run schedule (startWriter w))))) ≤ 100
  ∧ chanLen (sendQueueRegl (link (world (run schedule (startWriter w))))) ≤ 1000
  ∧ chanCap (sendQueueRegl (link (world (run schedule (startWriter w))))) = 1000
  ∧ ∃ flag, FlowControlIndicator (link (world (run schedule (startWriter w))))
            = Returns flag.
Proof.
  intros Hlink.
  assert (Hstart : queuesWithin 100 1000 (startWriter w)).
  { unfold queuesWithin. cbn [world startWriter]. rewrite Hlink.
    unfold chanLen. cbn. split_and!; first [done | lia]. }
  assert (Hrun : ∀ s, queuesWithin 100 1000 s →
                      queuesWithin 100 1000 (run schedule s)).
  { induction schedule as [| a schedule IH]; intros s Hs; [done |].
    unfold run. cbn [foldl]. apply IH. by apply act_queuesWithin. }
  destruct (Hrun _ Hstart) as (_ & Hcap & Hprio & Hregl).
  split_and!; [done | done | done |].
  unfold FlowControlIndicator. rewrite Hcap.
  destruct (Nat.eqb_spec 1000 0) as [Hzero | _]; [lia |].
  repeat case_match; eauto.
Qed.

End Writer.

Lemma writer_drains_in_order_witness :
  let C := exampleCollaborators 1 true in
  let s := startWriter
             (Send (plainFrame 1 4)
                (sendPriorityAll (framesFrom 100 3) freshWorld)).2 in
  let schedule := [ActWriter 0 false; ActClose; ActWriter 5 false;
                   ActWriter 1 true] in
  selected (@run C schedule s) ++ pending (@run C schedule s)
  = selected s ++ pending s.
Proof.
  intros C s schedule. apply (@writer_drains_in_order C schedule s).
  - reflexivity.
  - intros Hpc. discriminate Hpc.
Defined.

Lemma FlowControlIndicator_never_panics_witness :
  let C := exampleCollaborators 1 true in
  let schedule := [ActSend (plainFrame 1 4); ActWriter 0 false; ActClose;
                   ActSendPriority (plainFrame 2 4)] in
  chanLen (sendQueuePrio (link (world (@run C schedule (startWriter freshWorld)))))
  ≤ 100
  ∧ chanLen (sendQueueRegl (link (world (@run C schedule (startWriter freshWorld)))))
    ≤ 1000
  ∧ chanCap (sendQueueRegl (link (world (@run C schedule (startWriter freshWorld)))))
    = 1000
  ∧ ∃ flag, FlowControlIndicator
              (link (world (@run C schedule (startWriter freshWorld))))
            = Returns flag.
Proof.
  intros C schedule.
  apply (@FlowControlIndicator_never_panics C schedule freshWorld 1
           (idleConn (TCPAddr [xc0; xa8; x01; x01] 4242)) "tcp://192.168.1.1:4242"
           true).
  reflexivity.
Defined.


(** *** How the writer ends *)

Section WriterEnds.
Context `{Collaborators}.

(** The frame lacks the two bytes of head margin, or its payload does not
    lie inside its buffer: the margins [writeFrame] asks for on a link
    without encryption session are not there. *)
Definition unframed (f : Frame) : bool :=
  negb ((2 <=? payloadOffset f)
        && (payloadOffset f + payloadLen f + 0 <=? length (raw f))).

Lemma writeFrame_unframed (f : Frame) (w : World) :
  encSession (link w) = None → unframed f = true →
  writeFrame f w
  = (Returns (Some (Errorf "frame with margins 2,0: %w" []
                           [ErrorsNew "frame margins not available"])),
     ReturnToPool f w).
Proof.
  intros Henc Hf. unfold unframed in Hf. apply negb_true_iff in Hf.
  unfold writeFrame, writeFrameBody, FrameDataWithMargins. by rewrite Henc, Hf.
Qed.

(** The world after the writer took [f] off the priority queue and found
    it unwritable. *)
Definition afterUnframed (f : Frame) (rest : list Frame) (w : World) : World :=
  ReturnToPool f
    (onLink (setSendQueuePrio {| chanBuf := rest;
                                 chanCap := chanCap (sendQueuePrio (link w)) |}) w).

Lemma writerStep_unframed (pick : nat) (fires : bool) (s : System)
    (f : Frame) (rest : list Frame) :
  writerPC s = AtSelectPrio → prioBuf s = f :: rest →
  encSession (link (world s)) = None → unframed f = true →
  writerStep pick fires s
  = if 100 <=? S (consecutiveErrors s)
    then {| world :=
              Close (Some "closing link (by writer)")
                (Close (Some "closing link after 100 consecutive write errors")
                   (afterUnframed f rest (world s)));
            writerPC := WriterReturned;
            consecutiveErrors := S (consecutiveErrors s);
            selected := selected s ++ [(PrioQ, f)] |}
    else {| world := afterUnframed f rest (world s); writerPC := AtSelectPrio;
            consecutiveErrors := S (consecutiveErrors s);
            selected := selected s ++ [(PrioQ, f)] |}.
Proof.
  intros Hpc Hprio Henc Hf. unfold writerStep, takePrio, chanPoll.
  unfold prioBuf in Hprio. rewrite Hpc, Hprio.
  unfold writerAfterSelect. cbn [world consecutiveErrors selected].
  rewrite writeFrame_unframed by done. reflexivity.
Qed.

Lemma writer_bad_frames (fs rest : list Frame) (picks : list (nat * bool))
    (s : System) :
  writerPC s = AtSelectPrio →
  closing (link (world s)) = false →
  encSession (link (world s)) = None →
  prioBuf s = fs ++ rest →
  forallb unframed fs = true →
  length picks = length fs →
  consecutiveErrors s < 100 →
  consecutiveErrors s + length fs ≤ 100 →
  selected (run (map (λ p, ActWriter p.1 p.2) picks) s)
  = selected s ++ map (pair PrioQ) fs
  ∧ prioBuf (run (map (λ p, ActWriter p.1 p.2) picks) s) = rest
  ∧ reglBuf (run (map (λ p, ActWriter p.1 p.2) picks) s) = reglBuf s
  ∧ tx (conn (link (world (run (map (λ p, ActWriter p.1 p.2) picks) s))))
    = tx (conn (link (world s)))
  ∧ consecutiveErrors (run (map (λ p, ActWriter p.1 p.2) picks) s)
    = consecutiveErrors s + length fs
  ∧ if consecutiveErrors s + length fs <? 100
    then writerPC (run (map (λ p, ActWriter p.1 p.2) picks) s) = AtSelectPrio
         ∧ closing (link (world (run (map (λ p, ActWriter p.1 p.2) picks) s)))
           = false
         ∧ logged (world (run (map (λ p, ActWriter p.1 p.2) picks) s))
           = logged (world s)
    else writerPC (run (map (λ p, ActWriter p.1 p.2) picks) s) = WriterReturned
         ∧ closing (link (world (run (map (λ p, ActWriter p.1 p.2) picks) s)))
           = true
         ∧ connClosed
             (conn (link (world (run (map (λ p, ActWriter p.1 p.2) picks) s))))
           = true
         ∧ logged (world (run (map (λ p, ActWriter p.1 p.2) picks) s))
           = "closing link after 100 consecutive write errors"
               :: logged (world s).
Proof.
  revert picks s.
  induction fs as [| f fs IH];
    intros picks s Hpc Hopen Henc Hprio Hfs Hpicks Hlt Hle.
  - destruct picks; [| done]. unfold run. cbn [map foldl length app] in *.
    rewrite !Nat.add_0_r, app_nil_r.
    destruct (Nat.ltb_spec (consecutiveErrors s) 100); [| lia]. by split_and!.
  - destruct picks as [| p picks]; [done |].
    cbn [length forallb app] in *. apply andb_prop in Hfs as [Hf Hfs].
    unfold run. cbn [map foldl act].
    fold (run (map (λ p, ActWriter p.1 p.2) picks) (writerStep p.1 p.2 s)).
    rewrite (writerStep_unframed p.1 p.2 s f (fs ++ rest)) by done.
    destruct (Nat.leb_spec 100 (S (consecutiveErrors s))) as [Hlast | Hmore].
    + assert (fs = []) as -> by (destruct fs; [done | cbn in Hle; lia]).
      destruct picks; [| done]. unfold run.
      cbn [map foldl length app world writerPC consecutiveErrors selected].
      destruct (Nat.ltb_spec (consecutiveErrors s + 1) 100); [lia |].
      destruct (Close_open "closing link after 100 consecutive write errors"
                  (afterUnframed f rest (world s)))
        as (Hc1 & Hc2 & Hc3 & _ & _ & Hc6); [done |].
      rewrite Close_again by done.
      unfold prioBuf, reglBuf. cbn [world].
      destruct (Close_queues (Some "closing link after 100 consecutive write errors")
                  (afterUnframed f rest (world s))) as [-> ->].
      split_and!; [done | done | done | done | lia | done | done | done | done].
    + destruct (IH picks
                  {| world := afterUnframed f (fs ++ rest) (world s);
                     writerPC := AtSelectPrio;
                     consecutiveErrors := S (consecutiveErrors s);
                     selected := selected s ++ [(PrioQ, f)] |})
        as (Hsel & Hp & Hr & Htx & Herr & Hrest);
        cbn [world writerPC consecutiveErrors selected];
        [done | done | done | done | done | lia | lia | lia |].
      cbn [world writerPC consecutiveErrors selected] in *.
      replace (consecutiveErrors s + S (length fs))
        with (S (consecutiveErrors s) + length fs) by lia.
      split_and!; [| done | done | done | done | done].
      rewrite Hsel. cbn [map]. by rewrite <- app_assoc.
Qed.

(** The writer gives up after 100 frames in a row that it cannot write for
    a reason other than the network, and not before: up to 99 such frames
    leave the link open and the writer at its outer select; the hundredth
    closes the link with the line for it.  None of these frames reaches the
    wire, and the frames behind them stay queued. *)
Theorem writer_closes_after_100_errors (fs rest : list Frame)
    (picks : list (nat * bool)) (s : System) :
  writerPC s = AtSelectPrio →
  consecutiveErrors s = 0 →
  closing (link (world s)) = false →
  encSession (link (world s)) = None →
  prioBuf s = fs ++ rest →
  forallb unframed fs = true →
  length picks = length fs →
  length fs ≤ 100 →
  selected (run (map (λ p, ActWriter p.1 p.2) picks) s)
  = selected s ++ map (pair PrioQ) fs
  ∧ prioBuf (run (map (λ p, ActWriter p.1 p.2) picks) s) = rest
  ∧ reglBuf (run (map (λ p, ActWriter p.1 p.2) picks) s) = reglBuf s
  ∧ tx (conn (link (world (run (map (λ p, ActWriter p.1 p.2) picks) s))))
    = tx (conn (link (world s)))
  ∧ consecutiveErrors (run (map (λ p, ActWriter p.1 p.2) picks) s) = length fs
  ∧ if length fs <? 100
    then writerPC (run (map (λ p, ActWriter p.1 p.2) picks) s) = AtSelectPrio
         ∧ closing (link (world (run (map (λ p, ActWriter p.1 p.2) picks) s)))
           = false
         ∧ logged (world (run (map (λ p, ActWriter p.1 p.2) picks) s))
           = logged (world s)
    else writerPC (run (map (λ p, ActWriter p.1 p.2) picks) s) = WriterReturned
         ∧ closing (link (world (run (map (λ p, ActWriter p.1 p.2) picks) s)))
           = true
         ∧ connClosed
             (conn (link (world (run (map (λ p, ActWriter p.1 p.2) picks) s))))
           = true
         ∧ logged (world (run (map (λ p, ActWriter p.1 p.2) picks) s))
           = "closing link after 100 consecutive write errors"
               :: logged (world s).
Proof.
  intros Hpc Hzero Hopen Henc Hprio Hfs Hpicks Hle.
  pose proof (writer_bad_frames fs rest picks s Hpc Hopen Henc Hprio Hfs Hpicks)
    as Hrun.
  rewrite Hzero in Hrun. apply Hrun; lia.
Qed.

Lemma writeFrame_closed (f : Frame) (w : World) :
  encSession (link w) = None → framed f →
  (Z.of_nat (2 + payloadLen f) ≤ 0xFFFF)%Z →
  connClosed (conn (link w)) = true →
  writeFrame f w
  = (Returns (Some (Errorf "write: %w" []
                      [Errorf "%w: %w" [] [ErrNetworkWriteError; net_ErrClosed]])),
     ReturnToPool f (withConn (conn (link w)) w)).
Proof.
  intros Henc Hf Hsize Hclosed. unfold writeFrame, writeFrameBody.
  rewrite Henc, (FrameDataWithMargins_plain f Hf).
  destruct (PutUint16_plainRecord f Hf) as [Hlen Hput]. cbn zeta in Hlen, Hput.
  rewrite Hput, Hlen.
  destruct (Z.ltb_spec 0xFFFF (Z.of_nat (2 + payloadLen f))); [lia |].
  unfold writeData, plainRecord. cbn [length writeLoop Nat.leb drop].
  unfold connWrite. by rewrite Hclosed.
Qed.

(** After a [Close] the writer does not stop at once: it still takes the
    next frame off its queue, fails to write it on the closed connection,
    returns it to the pool and only then returns, logging nothing more.
    The frames behind it stay in the queues. *)
Theorem writer_stops_after_Close (pick : nat) (fires : bool)
    (log : option string) (s : System) (f : Frame) (rest : list Frame) :
  writerPC s = AtSelectPrio → prioBuf s = f :: rest →
  closing (link (world s)) = false →
  encSession (link (world s)) = None → framed f →
  (Z.of_nat (2 + payloadLen f) ≤ 0xFFFF)%Z →
  writerPC (writerStep pick fires (onWorld (Close log) s)) = WriterReturned
  ∧ selected (writerStep pick fires (onWorld (Close log) s))
    = selected s ++ [(PrioQ, f)]
  ∧ pool (world (writerStep pick fires (onWorld (Close log) s)))
    = poolHandle f :: pool (world s)
  ∧ tx (conn (link (world (writerStep pick fires (onWorld (Close log) s)))))
    = tx (conn (link (world s)))
  ∧ prioBuf (writerStep pick fires (onWorld (Close log) s)) = rest
  ∧ reglBuf (writerStep pick fires (onWorld (Close log) s)) = reglBuf s
  ∧ logged (world (writerStep pick fires (onWorld (Close log) s)))
    = logged (Close log (world s)).
Proof.
  intros Hpc Hprio Hopen Henc Hf Hsize.
  assert (Hclose : closing (link (Close log (world s))) = true
                   ∧ connClosed (conn (link (Close log (world s)))) = true
                   ∧ encSession (link (Close log (world s))) = None
                   ∧ tx (conn (link (Close log (world s))))
                     = tx (conn (link (world s)))).
  { unfold Close. rewrite Hopen. by destruct log. }
  destruct Hclose as (Hclosing & Hclosed & Henc' & Htx).
  destruct (Close_queues log (world s)) as [Hqp Hqr].
  pose proof (Close_pool log (world s)) as Hpool.
  unfold writerStep, takePrio, chanPoll. cbn [writerPC onWorld world].
  unfold prioBuf in Hprio. rewrite Hpc, Hqp, Hprio.
  unfold writerAfterSelect. cbn [world consecutiveErrors selected].
  rewrite writeFrame_closed by done.
  match goal with
  | |- context [isNetworkWriteError ?e] =>
      assert (isNetworkWriteError e = true) as -> by reflexivity
  end.
  rewrite !Close_again by first [exact Hclosing | apply Close_closing].
  unfold prioBuf, reglBuf. cbn. by rewrite Hqr, Hpool, Htx.
Qed.

End WriterEnds.

(** A frame without head margin, for the examples. *)
Definition bareFrame (handle : nat) : Frame :=
  {| poolHandle := handle; raw := replicate 4 x2a; payloadOffset := 0;
     payloadLen := 4; srcIP := 0%N; recvLink := None |}.

Lemma writer_closes_after_100_errors_witness :
  let C := exampleCollaborators 1 true in
  let fs := map bareFrame (seq 0 100) in
  let picks := replicate 100 (0, false) in
  let s := startWriter (sendPriorityAll fs freshWorld) in
  selected (@run C (map (λ p, ActWriter p.1 p.2) picks) s)
  = selected s ++ map (pair PrioQ) fs
  ∧ prioBuf (@run C (map (λ p, ActWriter p.1 p.2) picks) s) = []
  ∧ reglBuf (@run C (map (λ p, ActWriter p.1 p.2) picks) s) = reglBuf s
  ∧ tx (conn (link (world (@run C (map (λ p, ActWriter p.1 p.2) picks) s))))
    = tx (conn (link (world s)))
  ∧ consecutiveErrors (@run C (map (λ p, ActWriter p.1 p.2) picks) s) = length fs
  ∧ if length fs <? 100
    then writerPC (@run C (map (λ p, ActWriter p.1 p.2) picks) s) = AtSelectPrio
         ∧ closing (link (world (@run C (map (λ p, ActWriter p.1 p.2) picks) s)))
           = false
         ∧ logged (world (@run C (map (λ p, ActWriter p.1 p.2) picks) s))
           = logged (world s)
    else writerPC (@run C (map (λ p, ActWriter p.1 p.2) picks) s) = WriterReturned
         ∧ closing (link (world (@run C (map (λ p, ActWriter p.1 p.2) picks) s)))
           = true
         ∧ connClosed
             (conn (link (world (@run C (map (λ p, ActWriter p.1 p.2) picks) s))))
           = true
         ∧ logged (world (@run C (map (λ p, ActWriter p.1 p.2) picks) s))
           = "closing link after 100 consecutive write errors"
               :: logged (world s).
Proof.
  intros C fs picks s.
  apply (@writer_closes_after_100_errors C fs [] picks s).
  - reflexivity.
  - reflexivity.
  - reflexivity.
  - reflexivity.
  - vm_compute. reflexivity.
  - vm_compute. reflexivity.
  - vm_compute. reflexivity.
  - unfold fs. rewrite length_map, length_seq. lia.
Defined.

Lemma writer_stops_after_Close_witness :
  let C := exampleCollaborators 1 true in
  let f := plainFrame 7 4 in
  let s := startWriter (sendPriorityAll [f; plainFrame 8 4] freshWorld) in
  writerPC (@writerStep C 0 false (onWorld (Close None) s)) = WriterReturned
  ∧ selected (@writerStep C 0 false (onWorld (Close None) s))
    = selected s ++ [(PrioQ, f)]
  ∧ pool (world (@writerStep C 0 false (onWorld (Close None) s)))
    = poolHandle f :: pool (world s)
  ∧ tx (conn (link (world (@writerStep C 0 false (onWorld (Close None) s)))))
    = tx (conn (link (world s)))
  ∧ prioBuf (@writerStep C 0 false (onWorld (Close None) s)) = [plainFrame 8 4]
  ∧ reglBuf (@writerStep C 0 false (onWorld (Close None) s)) = reglBuf s
  ∧ logged (world (@writerStep C 0 false (onWorld (Close None) s)))
    = logged (Close None (world s)).
Proof.
  intros C f s.
  apply (@writer_stops_after_Close C 0 false None s f [plainFrame 8 4]).
  - reflexivity.
  - reflexivity.
  - reflexivity.
  - reflexivity.
  - unfold framed. cbn. lia.
  - cbn. lia.
Defined.


(** *** A healthy link: records in, records out *)

Section Healthy.
Context `{Collaborators}.

(** A frame [writeFrame] can put on an unencrypted wire. *)
Definition writable (f : Frame) : Prop :=
  framed f ∧ (Z.of_nat (2 + payloadLen f) ≤ 0xFFFF)%Z.

Lemma writerStep_plain (pick : nat) (fires : bool) (s : System)
    (f : Frame) (rest : list Frame) :
  writerPC s = AtSelectPrio → prioBuf s = f :: rest →
  encSession (link (world s)) = None → writable f →
  writeSteady (conn (link (world s))) →
  ∃ c', writerStep pick fires s
        = {| world :=
               ReturnToPool f
                 (withConn c'
                    (onLink (setSendQueuePrio
                               {| chanBuf := rest;
                                  chanCap := chanCap (sendQueuePrio (link (world s))) |})
                            (world s)));
             writerPC := AtSelectPrio; consecutiveErrors := 0;
             selected := selected s ++ [(PrioQ, f)] |}
        ∧ tx c' = tx (conn (link (world s))) ++ plainRecord f
        ∧ writeSteady c'.
Proof.
  intros Hpc Hprio Henc [Hf Hsize] Hc. unfold writerStep, takePrio, chanPoll.
  unfold prioBuf in Hprio. rewrite Hpc, Hprio.
  unfold writerAfterSelect, writeFrame. cbn [world consecutiveErrors selected].
  match goal with
  | |- context [writeFrameBody f ?w1] =>
      destruct (writeFrameBody_plain f w1) as (c' & -> & Htx & Hc' & _);
        [exact Henc | exact Hf | exact Hsize | exact Hc |]
  end.
  exists c'. by split_and!.
Qed.

(** On a link without encryption session whose writes do not fail, the
    writer puts the records of the waiting priority frames on the wire one
    after the other, in the order they were queued, and stays at its outer
    select; a written frame resets the count of consecutive errors. *)
Theorem writer_writes_in_order (fs rest : list Frame) (picks : list (nat * bool))
    (s : System) :
  writerPC s = AtSelectPrio →
  encSession (link (world s)) = None →
  writeSteady (conn (link (world s))) →
  prioBuf s = fs ++ rest →
  Forall writable fs →
  length picks = length fs →
  selected (run (map (λ p, ActWriter p.1 p.2) picks) s)
  = selected s ++ map (pair PrioQ) fs
  ∧ prioBuf (run (map (λ p, ActWriter p.1 p.2) picks) s) = rest
  ∧ reglBuf (run (map (λ p, ActWriter p.1 p.2) picks) s) = reglBuf s
  ∧ tx (conn (link (world (run (map (λ p, ActWriter p.1 p.2) picks) s))))
    = tx (conn (link (world s))) ++ concat (map plainRecord fs)
  ∧ writerPC (run (map (λ p, ActWriter p.1 p.2) picks) s) = AtSelectPrio
  ∧ (fs ≠ [] → consecutiveErrors (run (map (λ p, ActWriter p.1 p.2) picks) s) = 0)
  ∧ closing (link (world (run (map (λ p, ActWriter p.1 p.2) picks) s)))
    = closing (link (world s))
  ∧ logged (world (run (map (λ p, ActWriter p.1 p.2) picks) s)) = logged (world s).
Proof.
  revert picks s.
  induction fs as [| f fs IH]; intros picks s Hpc Henc Hc Hprio Hfs Hpicks.
  - destruct picks; [| done]. unfold run. cbn [map foldl concat app] in *.
    rewrite !app_nil_r. by split_and!.
  - destruct picks as [| p picks]; [done |].
    apply Forall_cons in Hfs as [Hf Hfs]. cbn [length app] in *.
    unfold run. cbn [map foldl act].
    fold (run (map (λ p, ActWriter p.1 p.2) picks) (writerStep p.1 p.2 s)).
    destruct (writerStep_plain p.1 p.2 s f (fs ++ rest) Hpc Hprio Henc Hf Hc)
      as (c' & -> & Htx & Hc').
    match goal with
    | |- context [run _ ?s1] =>
        destruct (IH picks s1) as (Hsel & Hp & Hr & Htx1 & Hpc1 & Herr & Hcl & Hlog);
          [done | done | exact Hc' | done | done | lia |]
    end.
    cbn [world writerPC consecutiveErrors selected] in *.
    rewrite Hsel, Hp, Hr, Htx1, Hpc1, Hcl, Hlog. cbn [map concat].
    split_and!; [by rewrite <- app_assoc | done | done | | done | | done | done].
    + cbn. by rewrite Htx, <- app_assoc.
    + intros _. destruct fs as [| g fs]; [| by apply Herr].
      destruct picks; [| done]. done.
Qed.

(** A record [readFrame] accepts into a buffer of [size] bytes. *)
Definition wellFormed (size : nat) (record : list byte) : Prop :=
  GetUint16 (take 2 record) = length record
  ∧ 4 ≤ length record ∧ length record ≤ size.

(** The frames the parser makes of the records, each in the pool buffer of
    its read and marked with the receiving link. *)
Fixpoint expectFrames (records : list (list byte)) (handle lid : nat)
  : option (list Frame) :=
  match records with
  | [] => Some []
  | record :: records' =>
      match ParseFrame (drop 2 record) handle 2 with
      | Ok g =>
          match expectFrames records' (S handle) lid with
          | Some frames => Some (SetRecvLink g lid :: frames)
          | None => None
          end
      | Err _ => None
      end
  end.

Lemma reader_good_records (records : list (list byte)) (rest : list byte)
    (r : ReaderState) (frames : list Frame) :
  readerReturned r = false →
  encSession (link (readerWorld r)) = None →
  steady (conn (link (readerWorld r))) →
  Forall (wellFormed (frameSize (link (readerWorld r)))) records →
  rx (conn (link (readerWorld r))) = concat records ++ rest →
  expectFrames records (nextHandle (readerWorld r)) (lid (link (readerWorld r)))
  = Some frames →
  delivered (readerRun (replicate (length records) UpstreamTakes) r)
  = delivered r ++ frames
  ∧ readerReturned (readerRun (replicate (length records) UpstreamTakes) r) = false
  ∧ (records ≠ [] →
     readerErrors (readerRun (replicate (length records) UpstreamTakes) r) = 0)
  ∧ rx (conn (link (readerWorld
                      (readerRun (replicate (length records) UpstreamTakes) r))))
    = rest
  ∧ pool (readerWorld (readerRun (replicate (length records) UpstreamTakes) r))
    = pool (readerWorld r)
  ∧ closing (link (readerWorld
                     (readerRun (replicate (length records) UpstreamTakes) r)))
    = closing (link (readerWorld r)).
Proof.
  revert r frames.
  induction records as [| record records IH];
    intros r frames Hrunning Henc Hc Hrecords Hrx Hframes.
  - unfold readerRun. cbn [length replicate foldl concat app expectFrames] in *.
    injection Hframes as <-. rewrite app_nil_r. by split_and!.
  - apply Forall_cons in Hrecords as [(Hlen & Hmin & Hfit) Hrecords].
    cbn [concat] in Hrx. rewrite <- app_assoc in Hrx.
    destruct (readFrame_record (readerWorld r) record (concat records ++ rest))
      as (c' & Hread & Hrx' & Hc'); [done | done | done | done | done | done |].
    cbn [expectFrames] in Hframes.
    destruct (ParseFrame (drop 2 record) (nextHandle (readerWorld r)) 2)
      as [g | e]; [| done].
    destruct (expectFrames records (S (nextHandle (readerWorld r)))
                (lid (link (readerWorld r)))) as [frames' |] eqn:Hframes';
      [| done].
    injection Hframes as <-.
    unfold readerRun. cbn [length replicate foldl].
    fold (readerRun (replicate (length records) UpstreamTakes)
            (readerStep UpstreamTakes r)).
    assert (Hstep : readerStep UpstreamTakes r
      = {| readerWorld := withConn c' (onNextHandle S (readerWorld r));
           readerErrors := 0;
           delivered := delivered r ++ [SetRecvLink g (lid (link (readerWorld r)))];
           readerReturned := false |}).
    { unfold readerStep. by rewrite Hrunning, Hread. }
    rewrite Hstep.
    match goal with
    | |- context [readerRun _ ?r1] =>
        destruct (IH r1 frames') as (Hd & Hret & Herr & Hrest & Hpool & Hcl);
          [done | exact Henc | exact Hc' | exact Hrecords | exact Hrx'
          | exact Hframes' |]
    end.
    cbn [readerWorld readerErrors delivered readerReturned] in *.
    rewrite Hd, Hret, Hrest, Hpool, Hcl.
    split_and!; [by rewrite <- app_assoc | done | | done | done | done].
    intros _. destruct records as [| record' records]; [done | by apply Herr].
Qed.

(** On a link without encryption session whose reads do not fail, the
    reader hands the frames of the records on the stream upstream in the
    order of the stream, one pool buffer each, none of which it returns to
    the pool; it keeps running and leaves the stream at the first byte
    after the records. *)
Theorem reader_delivers_in_order (records : list (list byte)) (rest : list byte)
    (w : World) (frames : list Frame) :
  encSession (link w) = None →
  steady (conn (link w)) →
  Forall (wellFormed (frameSize (link w))) records →
  rx (conn (link w)) = concat records ++ rest →
  expectFrames records (nextHandle w) (lid (link w)) = Some frames →
  delivered (readerRun (replicate (length records) UpstreamTakes) (startReader w))
  = frames
  ∧ readerReturned
      (readerRun (replicate (length records) UpstreamTakes) (startReader w))
    = false
  ∧ rx (conn (link (readerWorld
                      (readerRun (replicate (length records) UpstreamTakes)
                         (startReader w)))))
    = rest
  ∧ pool (readerWorld
            (readerRun (replicate (length records) UpstreamTakes) (startReader w)))
    = pool w
  ∧ closing (link (readerWorld
                     (readerRun (replicate (length records) UpstreamTakes)
                        (startReader w))))
    = closing (link w).
Proof.
  intros Henc Hc Hrecords Hrx Hframes.
  destruct (reader_good_records records rest (startReader w) frames)
    as (Hd & Hret & _ & Hrest & Hpool & Hcl); try done.
Qed.

End Healthy.

Lemma writer_writes_in_order_witness :
  let C := exampleCollaborators 1 true in
  let fs := [plainFrame 7 4; plainFrame 8 2] in
  let picks := [(0, false); (3, true)] in
  let s := startWriter (sendPriorityAll (fs ++ [plainFrame 9 4]) freshWorld) in
  selected (@run C (map (λ p, ActWriter p.1 p.2) picks) s)
  = selected s ++ map (pair PrioQ) fs
  ∧ prioBuf (@run C (map (λ p, ActWriter p.1 p.2) picks) s) = [plainFrame 9 4]
  ∧ reglBuf (@run C (map (λ p, ActWriter p.1 p.2) picks) s) = reglBuf s
  ∧ tx (conn (link (world (@run C (map (λ p, ActWriter p.1 p.2) picks) s))))
    = tx (conn (link (world s))) ++ concat (map plainRecord fs)
  ∧ writerPC (@run C (map (λ p, ActWriter p.1 p.2) picks) s) = AtSelectPrio
  ∧ (fs ≠ [] →
     consecutiveErrors (@run C (map (λ p, ActWriter p.1 p.2) picks) s) = 0)
  ∧ closing (link (world (@run C (map (λ p, ActWriter p.1 p.2) picks) s)))
    = closing (link (world s))
  ∧ logged (world (@run C (map (λ p, ActWriter p.1 p.2) picks) s))
    = logged (world s).
Proof.
  intros C fs picks s.
  apply (@writer_writes_in_order C fs [plainFrame 9 4] picks s).
  - reflexivity.
  - reflexivity.
  - split; [reflexivity |]. intros e He. cbn in He. by apply elem_of_nil in He.
  - reflexivity.
  - repeat constructor; unfold framed; cbn; lia.
  - reflexivity.
Defined.

Lemma reader_delivers_in_order_witness :
  let C := exampleCollaborators 1 true in
  let records := [[x00; x06; x61; x62; x63; x64]; [x00; x04; x65; x66]] in
  let w := wireWorld (concat records ++ [x00]) in
  let frames :=
    [ {| poolHandle := 0; raw := [x00; x00; x61; x62; x63; x64];
         payloadOffset := 2; payloadLen := 4; srcIP := 0%N; recvLink := Some 1 |};
      {| poolHandle := 1; raw := [x00; x00; x65; x66];
         payloadOffset := 2; payloadLen := 2; srcIP := 0%N; recvLink := Some 1 |} ] in
  delivered (@readerRun C (replicate (length records) UpstreamTakes) (startReader w))
  = frames
  ∧ readerReturned
      (@readerRun C (replicate (length records) UpstreamTakes) (startReader w))
    = false
  ∧ rx (conn (link (readerWorld
                      (@readerRun C (replicate (length records) UpstreamTakes)
                         (startReader w)))))
    = [x00]
  ∧ pool (readerWorld
            (@readerRun C (replicate (length records) UpstreamTakes)
               (startReader w)))
    = pool w
  ∧ closing (link (readerWorld
                     (@readerRun C (replicate (length records) UpstreamTakes)
                        (startReader w))))
    = closing (link w).
Proof.
  intros C records w frames.
  apply (@reader_delivers_in_order C records [x00] w frames).
  - reflexivity.
  - apply wireWorld_steady.
  - repeat constructor; cbn; lia.
  - reflexivity.
  - reflexivity.
Defined.

End LinkBehaviour.

(** * Further behaviour of the ping handler (router/ping_pong.go) *)
Module PingPongBehaviour.
Import Router PingPongProps.

Section WithCollaborators.
Context `{Collaborators}.

(** ** Requests *)

(** [handleRequest] never touches the pings this router is waiting for: the
    active states, the channels and the id generator are as before.  When it
    succeeds, the payload was a "ping" and exactly one message has been
    handed to the router: a "pong" to the source of the frame, under the
    ping id of the request, marked as follow-up.  When it fails before the
    send, nothing has been sent. *)
Theorem handleRequest_reply (f : Peering.Frame) (hdr : PingHeader)
    (data : list byte) (h : PingPongHandler) :
  active (handleRequest f hdr data h).2 = active h
  ∧ closedChans (handleRequest f hdr data h).2 = closedChans h
  ∧ nextChan (handleRequest f hdr data h).2 = nextChan h
  ∧ pingIDs (handleRequest f hdr data h).2 = pingIDs h
  ∧ match (handleRequest f hdr data h).1 with
    | None =>
        cbor_Unmarshal data = Ok "ping"
        ∧ ∃ pong, cbor_Marshal "pong" = Ok pong
                  ∧ sent (handleRequest f hdr data h).2
                    = {| msgDst := Peering.srcIP f; msgPingID := PingID hdr;
                         msgPingType := pingPongPingType; msgData := pong;
                         msgFollowUp := true; msgFlag := false |} :: sent h
    | Some (Errorf format _ _) =>
        if String.eqb format "send ping pong response: %w"
        then length (sent (handleRequest f hdr data h).2) = S (length (sent h))
        else sent (handleRequest f hdr data h).2 = sent h
    | Some _ => False
    end.
Proof.
  unfold handleRequest.
  destruct (cbor_Unmarshal data) as [msg | err]; [| by split_and!].
  destruct (String.eqb_spec msg "ping") as [-> | Hmsg]; [| by split_and!].
  cbn [negb]. destruct (cbor_Marshal "pong") as [pong | err]; [| by split_and!].
  unfold doSendPingMsg. destruct (sendPingMsg _) as [err |]; cbn.
  - by split_and!.
  - split_and!; try done. by exists pong.
Qed.

(** ** Channels nobody will close *)

(** A channel that was made, is not closed, and is the notify channel of no
    active state. *)
Definition orphaned (ch : nat) (h : PingPongHandler) : Prop :=
  ch < nextChan h
  ∧ (ch ∉ closedChans h)
  ∧ ∀ i st, active h !! i = Some st → notify st ≠ ch.

Lemma orphaned_shrink (ch : nat) (h : PingPongHandler) (m : gmap N pingPongState) :
  orphaned ch h → (∀ i st, m !! i = Some st → active h !! i = Some st) →
  orphaned ch (setActiveMap m h).
Proof. intros (Hmade & Hopen & Hfree) Hsub. split_and!; cbn; eauto. Qed.

Lemma call_orphaned (c : Call) (h h' : PingPongHandler) (ch : nat) :
  call c h = Returns h' → orphaned ch h → orphaned ch h'.
Proof.
  intros Hcall Horphan. pose proof Horphan as (Hmade & Hopen & Hfree).
  destruct c as [now1 now2 dstIP | f hdr data | now]; cbn [call] in Hcall.
  - injection Hcall as <-. unfold Send.
    destruct (cbor_Marshal "ping") as [ping | err]; [| done].
    cbn. destruct (sendPingMsg _) as [err |]; cbn.
    + split_and!; cbn; [lia | done | done].
    + split_and!; cbn; [lia | done |].
      intros i st. destruct (decide (newPingID (pingIDs h) = i)) as [-> | Hne].
      * rewrite lookup_insert_eq. intros [= <-]. cbn. lia.
      * rewrite lookup_insert_ne by done. apply Hfree.
  - unfold Handle in Hcall. destruct (FollowUp hdr).
    + unfold handleResponse, pluckActive in Hcall.
      destruct (active h !! PingID hdr) as [st |] eqn:Hst.
      2: { by injection Hcall as <-. }
      assert (Hplucked : orphaned ch (setActiveMap (delete (PingID hdr) (active h)) h)).
      { apply orphaned_shrink; [done |]. intros i st' Hi.
        by apply lookup_delete_Some in Hi as [_ Hi]. }
      destruct (cbor_Unmarshal data) as [msg | err].
      2: { by injection Hcall as <-. }
      destruct (negb (String.eqb msg "pong")).
      { by injection Hcall as <-. }
      unfold closeChan in Hcall. cbn in Hcall.
      destruct (bool_decide (notify st ∈ closedChans h)); [done |].
      injection Hcall as <-. destruct Hplucked as (Hmade' & Hopen' & Hfree').
      split_and!; cbn; [done | | done].
      apply not_elem_of_cons. split; [| done].
      intros ->. by apply (Hfree _ _ Hst).
    + unfold handleRequest in Hcall.
      destruct (cbor_Unmarshal data) as [msg | err]; [| by injection Hcall as <-].
      destruct (negb _); [by injection Hcall as <- |].
      destruct (cbor_Marshal "pong") as [pong | err]; [| by injection Hcall as <-].
      cbn in Hcall. destruct (sendPingMsg _); by injection Hcall as <-.
  - injection Hcall as <-. apply orphaned_shrink; [done |].
    intros i st Hi. by apply (Clean_lookup now h i st) in Hi as [Hi _].
Qed.

Lemma calls_orphaned (cs : list Call) (h h' : PingPongHandler) (ch : nat) :
  calls cs h = Returns h' → orphaned ch h → orphaned ch h'.
Proof.
  revert h. induction cs as [| c cs IH]; intros h; cbn [calls].
  - by intros [= <-].
  - destruct (call c h) as [h1 | why |] eqn:Hcall; [| done | done].
    intros Hcalls Horphan. apply (IH h1 Hcalls). by eapply call_orphaned.
Qed.

Lemma orphaned_forever (cs : list Call) (h : PingPongHandler) (ch : nat) :
  consistent h → orphaned ch h →
  ∃ h', calls cs h = Returns h' ∧ ch ∉ closedChans h'.
Proof.
  intros Hh Horphan. destruct (calls_consistent cs h Hh) as (h' & Hcalls & _).
  exists h'. split; [done |].
  by destruct (calls_orphaned cs h h' ch Hcalls Horphan) as (_ & Hopen & _).
Qed.

(** A response that arrives for a waiting ping but does not decode to
    "pong" fails, and it costs the ping its state: whatever is called on the
    handler afterwards, the notify channel of that ping is never closed. *)
Theorem bad_response_orphans_ping (f : Peering.Frame) (hdr : PingHeader)
    (data : list byte) (h : PingPongHandler) (st : pingPongState) :
  consistent h →
  active h !! PingID hdr = Some st →
  cbor_Unmarshal data ≠ Ok "pong" →
  (∃ e, (handleResponse f hdr data h).1 = Returns (Some e))
  ∧ active (handleResponse f hdr data h).2 !! PingID hdr = None
  ∧ ∀ cs, ∃ h', calls cs (handleResponse f hdr data h).2 = Returns h'
                ∧ notify st ∉ closedChans h'.
Proof.
  intros Hh Hst Hdata.
  pose proof (handleResponse_cases f hdr data h) as Hcases.
  rewrite Hst in Hcases. cbn zeta in Hcases.
  assert (Hresult : ∃ e, handleResponse f hdr data h
            = (Returns (Some e), setActiveMap (delete (PingID hdr) (active h)) h)).
  { destruct (cbor_Unmarshal data) as [msg | err]; [| eauto].
    destruct (String.eqb_spec msg "pong") as [-> | Hmsg]; [done | eauto]. }
  destruct Hresult as [e ->]. cbn [fst snd].
  split_and!; [eauto | apply lookup_delete_eq |].
  intros cs. apply orphaned_forever.
  - apply consistent_shrink; [done |]. intros i st' Hi.
    by apply lookup_delete_Some in Hi as [_ Hi].
  - split_and!; cbn.
    + by eapply active_made.
    + by eapply active_open.
    + intros i st' Hi Heq. apply lookup_delete_Some in Hi as [Hne Hi].
      apply Hne. by eapply (active_distinct h Hh).
Qed.

(** [Clean] drops an expired ping without closing its notify channel, and
    nothing that is called afterwards closes it: a pong that arrives late
    finds no state. *)
Theorem Clean_orphans_expired_ping (now : Z) (h : PingPongHandler)
    (i : N) (st : pingPongState) :
  consistent h →
  active h !! i = Some st →
  After now (expires st) = true →
  closedChans (Clean now h).2 = closedChans h
  ∧ active (Clean now h).2 !! i = None
  ∧ ∀ cs, ∃ h', calls cs (Clean now h).2 = Returns h'
                ∧ notify st ∉ closedChans h'.
Proof.
  intros Hh Hst Hexpired. split_and!; [done | |].
  - destruct (active (Clean now h).2 !! i) as [st' |] eqn:Hi; [| done].
    apply Clean_lookup in Hi as [Hi Hfresh]. congruence.
  - intros cs. apply orphaned_forever; [by apply Clean_consistent |].
    split; [| split].
    + change (notify st < nextChan h). by eapply active_made.
    + change (notify st ∉ closedChans h). by eapply active_open.
    + intros j st' Hj Heq. apply Clean_lookup in Hj as [Hj Hfresh].
      assert (j = i) as -> by by eapply (active_distinct h Hh).
      congruence.
Qed.

(** When the id generator draws the id of a ping that is still waiting,
    [Send] overwrites the state of that ping: its notify channel is never
    closed, whatever is called on the handler afterwards. *)
Theorem Send_collision_orphans_ping (now1 now2 : Z) (dstIP : N)
    (h : PingPongHandler) (st : pingPongState) :
  consistent h →
  active h !! newPingID (pingIDs h) = Some st →
  (∃ ch, (Send now1 now2 dstIP h).1 = Ok ch) →
  (Send now1 now2 dstIP h).1 = Ok (nextChan h)
  ∧ notify st ≠ nextChan h
  ∧ ∀ cs, ∃ h', calls cs (Send now1 now2 dstIP h).2 = Returns h'
                ∧ notify st ∉ closedChans h'.
Proof.
  intros Hh Hst [ch Hch].
  pose proof (active_made h Hh _ _ Hst) as Hmade.
  split_and!; [| lia |].
  - unfold Send in *. destruct (cbor_Marshal "ping") as [ping | err]; [| done].
    cbn in *. by destruct (sendPingMsg _).
  - intros cs. apply orphaned_forever; [by apply Send_consistent |].
    unfold Send in *. destruct (cbor_Marshal "ping") as [ping | err]; [| done].
    cbn in *. destruct (sendPingMsg _); [done |].
    split_and!; cbn.
    + lia.
    + by eapply active_open.
    + intros j st'. destruct (decide (newPingID (pingIDs h) = j)) as [<- | Hne].
      * rewrite lookup_insert_eq. intros [= <-]. cbn. lia.
      * rewrite lookup_insert_ne by done. intros Hj Heq.
        apply Hne. by eapply (active_distinct h Hh).
Qed.

(** ** A ping and its pong *)

(** Two handlers and a codec that reads back what it writes: the request
    [Send] hands to the router on one side is answered by [Handle] on the
    other side with a follow-up under the same ping id, addressed to the
    source of the request; and [Handle] on the first side takes that answer
    for the waiting ping, closes the channel [Send] returned, and forgets
    the ping. *)
Theorem ping_round_trip (a b : PingPongHandler) (now1 now2 : Z) (ipB : N)
    (fA fB : Peering.Frame) (ping pong : list byte) :
  consistent a →
  cbor_Marshal "ping" = Ok ping → cbor_Unmarshal ping = Ok "ping" →
  cbor_Marshal "pong" = Ok pong → cbor_Unmarshal pong = Ok "pong" →
  (∀ msg, sendPingMsg msg = None) →
  let request := {| msgDst := ipB; msgPingID := newPingID (pingIDs a);
                    msgPingType := pingPongPingType; msgData := ping;
                    msgFollowUp := false; msgFlag := false |} in
  let reply := {| msgDst := Peering.srcIP fB; msgPingID := newPingID (pingIDs a);
                  msgPingType := pingPongPingType; msgData := pong;
                  msgFollowUp := true; msgFlag := false |} in
  let header (msg : PingMsg) :=
    {| PingID := msgPingID msg; FollowUp := msgFollowUp msg |} in
  let a1 := (Send now1 now2 ipB a).2 in
  Send now1 now2 ipB a
  = (Ok (nextChan a),
     setActive now2 (newPingID (pingIDs a))
       {| started := now1; notify := nextChan a; expires := 0 |}
       {| active := active a; nextChan := S (nextChan a);
          closedChans := closedChans a; pingIDs := S (pingIDs a);
          sent := request :: sent a |})
  ∧ (Handle fB (header request) (msgData request) b).1 = Returns None
  ∧ sent (Handle fB (header request) (msgData request) b).2 = reply :: sent b
  ∧ (Handle fA (header reply) (msgData reply) a1).1 = Returns None
  ∧ closedChans (Handle fA (header reply) (msgData reply) a1).2
    = nextChan a :: closedChans a
  ∧ active (Handle fA (header reply) (msgData reply) a1).2
    = delete (newPingID (pingIDs a)) (active a).
Proof.
  intros Ha Hping Hping' Hpong Hpong' Hsends request reply header a1.
  assert (Hsend : Send now1 now2 ipB a
    = (Ok (nextChan a),
       setActive now2 (newPingID (pingIDs a))
         {| started := now1; notify := nextChan a; expires := 0 |}
         {| active := active a; nextChan := S (nextChan a);
            closedChans := closedChans a; pingIDs := S (pingIDs a);
            sent := request :: sent a |})).
  { unfold Send. rewrite Hping. cbn. by rewrite Hsends. }
  assert (Hrequest : Handle fB (header request) (msgData request) b
    = (Returns None,
       {| active := active b; nextChan := nextChan b;
          closedChans := closedChans b; pingIDs := pingIDs b;
          sent := reply :: sent b |})).
  { unfold Handle, handleRequest. cbn. rewrite Hping'. cbn. rewrite Hpong. cbn.
    by rewrite Hsends. }
  assert (Hfresh : nextChan a ∉ closedChans a).
  { intros Hin. pose proof (closed_made a Ha _ Hin). lia. }
  assert (Hreply : Handle fA (header reply) (msgData reply) a1
    = (Returns None,
       {| active := delete (newPingID (pingIDs a))
                      (<[newPingID (pingIDs a) :=
                           {| started := now1; notify := nextChan a;
                              expires := (now2 + thirtySeconds)%Z |}]> (active a));
          nextChan := S (nextChan a);
          closedChans := nextChan a :: closedChans a;
          pingIDs := S (pingIDs a); sent := request :: sent a |})).
  { unfold a1. rewrite Hsend. unfold Handle, handleResponse, pluckActive. cbn.
    rewrite lookup_insert_eq, Hpong'. cbn. unfold closeChan. cbn.
    by rewrite bool_decide_eq_false_2. }
  rewrite Hrequest, Hreply. cbn [fst snd active closedChans sent].
  split_and!; [done | done | done | done | done |].
  apply delete_insert_eq.
Qed.

(** ** Cleaning *)

(** Cleaning at a time and again at a later time leaves what one cleaning
    at the later time leaves; in particular cleaning twice at one time is
    cleaning once. *)
Theorem Clean_twice (earlier later : Z) (h : PingPongHandler) :
  (earlier ≤ later)%Z →
  Clean later (Clean earlier h).2 = Clean later h.
Proof.
  intros Horder.
  assert (Hactive : active (Clean later (Clean earlier h).2).2
                    = active (Clean later h).2).
  { apply map_eq. intros i. apply option_eq. intros st.
    rewrite !Clean_lookup. unfold After. split.
    - by intros [[Hi _] Hlater].
    - intros [Hi Hlater]. split_and!; [done | | done].
      apply Z.ltb_ge. apply Z.ltb_ge in Hlater. lia. }
  unfold Clean in *. cbn in *. f_equal. unfold setActiveMap. cbn. by rewrite Hactive.
Qed.

End WithCollaborators.

(** An id generator that always draws the same id, for the examples. *)
Definition stuckIDs : Collaborators :=
  {| cbor_Marshal := @cbor_Marshal exampleCodec;
     cbor_Unmarshal := @cbor_Unmarshal exampleCodec;
     newPingID := λ _, 7%N;
     sendPingMsg := λ _, None |}.

Definition probe : Peering.Frame :=
  {| Peering.poolHandle := 0; Peering.raw := []; Peering.payloadOffset := 0;
     Peering.payloadLen := 0; Peering.srcIP := 9%N; Peering.recvLink := None |}.

Lemma bad_response_orphans_ping_witness :
  let C := exampleCodec in
  let h := (@Send C 0 5 9%N NewPingPongHandler).2 in
  let hdr := {| PingID := 1000%N; FollowUp := true |} in
  let st := {| started := 0; notify := 0; expires := (5 + thirtySeconds)%Z |} in
  (∃ e, (@handleResponse C probe hdr [x01] h).1 = Returns (Some e))
  ∧ active (@handleResponse C probe hdr [x01] h).2 !! PingID hdr = None
  ∧ ∀ cs, ∃ h', @calls C cs (@handleResponse C probe hdr [x01] h).2 = Returns h'
                ∧ notify st ∉ closedChans h'.
Proof.
  intros C h hdr st. apply (@bad_response_orphans_ping C probe hdr [x01] h st).
  - apply (@Send_consistent C). apply consistent_new.
  - reflexivity.
  - discriminate.
Defined.

Lemma Clean_orphans_expired_ping_witness :
  let C := exampleCodec in
  let h := (@Send C 0 5 9%N NewPingPongHandler).2 in
  let st := {| started := 0; notify := 0; expires := (5 + thirtySeconds)%Z |} in
  let now := (6 + thirtySeconds)%Z in
  closedChans (Clean now h).2 = closedChans h
  ∧ active (Clean now h).2 !! 1000%N = None
  ∧ ∀ cs, ∃ h', @calls C cs (Clean now h).2 = Returns h'
                ∧ notify st ∉ closedChans h'.
Proof.
  intros C h st now. apply (@Clean_orphans_expired_ping C now h 1000%N st).
  - apply (@Send_consistent C). apply consistent_new.
  - reflexivity.
  - reflexivity.
Defined.

Lemma Send_collision_orphans_ping_witness :
  let C := stuckIDs in
  let h := (@Send C 0 5 9%N NewPingPongHandler).2 in
  let st := {| started := 0; notify := 0; expires := (5 + thirtySeconds)%Z |} in
  (@Send C 1 6 9%N h).1 = Ok (nextChan h)
  ∧ notify st ≠ nextChan h
  ∧ ∀ cs, ∃ h', @calls C cs (@Send C 1 6 9%N h).2 = Returns h'
                ∧ notify st ∉ closedChans h'.
Proof.
  intros C h st. apply (@Send_collision_orphans_ping C 1 6 9%N h st).
  - apply (@Send_consistent C). apply consistent_new.
  - reflexivity.
  - by exists 1.
Defined.

Lemma ping_round_trip_witness :
  let C := exampleCodec in
  let a := NewPingPongHandler in
  let b := NewPingPongHandler in
  let request := {| msgDst := 9%N; msgPingID := 1000%N;
                    msgPingType := pingPongPingType; msgData := [x01];
                    msgFollowUp := false; msgFlag := false |} in
  let reply := {| msgDst := 9%N; msgPingID := 1000%N;
                  msgPingType := pingPongPingType; msgData := [x02];
                  msgFollowUp := true; msgFlag := false |} in
  let header (msg : PingMsg) :=
    {| PingID := msgPingID msg; FollowUp := msgFollowUp msg |} in
  let a1 := (@Send C 0 5 9%N a).2 in
  @Send C 0 5 9%N a
  = (Ok (nextChan a),
     setActive 5 1000%N {| started := 0; notify := nextChan a; expires := 0 |}
       {| active := active a; nextChan := S (nextChan a);
          closedChans := closedChans a; pingIDs := S (pingIDs a);
          sent := request :: sent a |})
  ∧ (@Handle C probe (header request) (msgData request) b).1 = Returns None
  ∧ sent (@Handle C probe (header request) (msgData request) b).2 = reply :: sent b
  ∧ (@Handle C probe (header reply) (msgData reply) a1).1 = Returns None
  ∧ closedChans (@Handle C probe (header reply) (msgData reply) a1).2
    = nextChan a :: closedChans a
  ∧ active (@Handle C probe (header reply) (msgData reply) a1).2
    = delete 1000%N (active a).
Proof.
  intros C a b.
  apply (@ping_round_trip C a b 0 5 9%N probe probe [x01] [x02]).
  - apply consistent_new.
  - reflexivity.
  - reflexivity.
  - reflexivity.
  - reflexivity.
  - reflexivity.
Defined.

Lemma Clean_twice_witness :
  let C := exampleCodec in
  let h := (@Send C 0 5 9%N NewPingPongHandler).2 in
  Clean (6 + thirtySeconds) (Clean 7 h).2 = Clean (6 + thirtySeconds) h.
Proof.
  intros C h. apply (Clean_twice 7 (6 + thirtySeconds) h). by vm_compute.
Defined.

End PingPongBehaviour.
